(** * crew-ai: the MCP client, a specialist agent and the Executor step loop

    A shallow embedding of
    - [chrome-extension/src/background/agent/mcp/client.ts] (class
      [MCPClient] and the accessor [getMCPClient]),
    - [DeFiAgent.execute] of EXAMPLE_DEFI_AGENT.md, and
    - the step loop of [Executor.execute] of AGENT_ARCHITECTURE_GUIDE.md,
    together with the properties the specification states about them;
    then of the code around them: [analyzeProtocol], [YourAgent.execute]
    and [ValidatorAgent.execute], the part of [Executor.execute] that runs
    the DeFi agent with [checkIfDeFiTask] and [shouldRunDeFiRecheck], and
    the two DeFi actions of the ActionBuilder, with properties read off
    that code.

    JavaScript code that may throw is written in a state-and-exception
    monad; the libraries the code calls (the MCP SDK, the browser context,
    the language model) are oracles that the theorems quantify over. An
    [async] method is one computation, and an [await] is the place where
    the oracle answers. The calls on an [MCPClient] may overlap: for
    them the methods are also cut at their [await]s, and a machine runs
    the pieces of several calls in any order. *)

From Stdlib Require Import QArith.Qcanon.
From stdpp Require Import base option numbers strings list sorting gmap pretty.

Set Default Proof Using "Type".
#[local] Set Warnings "-clear-no-such-hyp".

(** ** Thrown values, outcomes and the effect monad *)

(** The classes of the errors the code throws or tells apart; the four
    classes of ./errors are declared there, and [OtherError] is any other
    subclass of [Error], by its [name]. *)
Inductive error_class : Type :=
  | Error
  | TypeError
  | RequestCancelledError
  | ChatModelAuthError
  | ChatModelBadRequestError
  | ChatModelForbiddenError
  | OtherError (name : string).

Global Instance error_class_eq_dec : EqDecision error_class.
Proof. solve_decision. Defined.

Definition class_name (c : error_class) : string :=
  match c with
  | Error => "Error"
  | TypeError => "TypeError"
  | RequestCancelledError => "RequestCancelledError"
  | ChatModelAuthError => "ChatModelAuthError"
  | ChatModelBadRequestError => "ChatModelBadRequestError"
  | ChatModelForbiddenError => "ChatModelForbiddenError"
  | OtherError name => name
  end.

(** What a [catch (error)] clause can receive: an instance of [Error]
    (with its class and [message]) or any other value, of which the code
    only ever takes [String(error)]. *)
Inductive thrown : Type :=
  | ErrorObj (cls : error_class) (message : string)
  | OtherValue (repr : string).

Global Instance thrown_eq_dec : EqDecision thrown.
Proof. solve_decision. Defined.

(** [new Error(msg)] *)
Definition new_Error (msg : string) : thrown := ErrorObj Error msg.

(** [Error.prototype.toString], and [String(v)] for the other values. *)
Definition js_String (e : thrown) : string :=
  match e with
  | ErrorObj cls message =>
      if decide (class_name cls = "") then message
      else if decide (message = "") then class_name cls
      else class_name cls +:+ ": " +:+ message
  | OtherValue repr => repr
  end.

(** [error instanceof Error ? error.message : String(error)] *)
Definition error_message (e : thrown) : string :=
  match e with
  | ErrorObj _ message => message
  | OtherValue repr => repr
  end.

Inductive outcome (A : Type) : Type :=
  | Returns (a : A)
  | Throws (e : thrown).
Arguments Returns {A} a.
Arguments Throws {A} e.

(** A computation over a state [S] that returns or throws. *)
Definition Eff (S A : Type) : Type := S → S * outcome A.

Global Instance eff_ret {S} : MRet (Eff S) := λ A a s, (s, Returns a).

Global Instance eff_bind {S} : MBind (Eff S) := λ A B k m s,
  match m s with
  | (s', Returns a) => k a s'
  | (s', Throws e) => (s', Throws e)
  end.

Definition throw {S A} (e : thrown) : Eff S A := λ s, (s, Throws e).

(** [try { body } catch (error) { handler }] *)
Definition try_catch {S A} (body : Eff S A) (handler : thrown → Eff S A)
  : Eff S A :=
  λ s, match body s with
       | (s', Returns a) => (s', Returns a)
       | (s', Throws e) => handler e s'
       end.

Definition gets {S A} (f : S → A) : Eff S A := λ s, (s, Returns (f s)).
Definition modify {S} (f : S → S) : Eff S unit := λ s, (f s, Returns tt).

(** The line feed used by [join('\n')]. *)
Definition LF : string := String (Ascii.ascii_of_nat 10) EmptyString.

(** [parts.join(sep)] on an array of strings. *)
Fixpoint js_join (sep : string) (parts : list string) : string :=
  match parts with
  | [] => ""
  | [p] => p
  | p :: rest => p +:+ sep +:+ js_join sep rest
  end.

(** ** The MCP client (mcp/client.ts, mcp/types.ts) *)

Module MCP.

Section WithArgs.

(** The type of the [args] record, [Record<string, unknown>]; the client
    only passes it on. *)
Context {Args : Type}.

(** [interface MCPToolResult { content: string; error?: string }] *)
Record MCPToolResult : Type := mkResult {
  content : string;
  error : option string;
}.

(** One element of the [content] array of the SDK's answer. [item_text] is
    [None] when [item.text] is [undefined] or [null], which [join] renders
    as the empty string. *)
Record ContentItem : Type := mkItem {
  item_type : string;
  item_text : option string;
}.

(** The answer of the SDK's [client.callTool]. [result_content] is [None]
    when [result.content] is not an array, so that [.map] fails. *)
Record CallToolResult : Type := mkCallToolResult {
  result_content : option (list ContentItem);
}.

(** Handles of the SDK objects built by [new]. *)
Definition ClientRef : Type := nat.
Definition TransportRef : Type := nat.

(** What the client does to the outside: logger calls and SDK calls. *)
Inductive event : Type :=
  | LogInfo (msg : string)
  | LogError (msg : string)
  | LogDebug (msg : string) (extra : option Args)
  | NewTransport (url : string) (t : TransportRef)
  | NewClient (name version : string) (c : ClientRef)
  | ClientConnect (c : ClientRef) (t : option TransportRef)
  | ClientCallTool (c : ClientRef) (name : string) (args : Args)
  | ClientClose (c : ClientRef).

(** The behaviour of the SDK: each call answers as a function of everything
    that happened so far, the call itself included. [None] is a normal
    return of a call without a result, [Some e] a throw. *)
Record Sdk : Type := mkSdk {
  sdk_new_transport : list event → option thrown;
  sdk_new_client : list event → option thrown;
  sdk_connect : list event → option thrown;
  sdk_callTool : list event → outcome CallToolResult;
  sdk_close : list event → option thrown;
}.

(** The fields of an [MCPClient] instance, with the trace of events and
    the next free handle. *)
Record state : Type := mkState {
  client : option ClientRef;
  transport : option TransportRef;
  connected : bool;
  trace : list event;
  next_ref : nat;
}.

(** The field initialisers of the class, on a given trace. *)
Definition new_MCPClient (tr : list event) (n : nat) : state :=
  {| client := None; transport := None; connected := false;
     trace := tr; next_ref := n |}.

Definition set_client (c : option ClientRef) (s : state) : state :=
  {| client := c; transport := transport s; connected := connected s;
     trace := trace s; next_ref := next_ref s |}.
Definition set_transport (t : option TransportRef) (s : state) : state :=
  {| client := client s; transport := t; connected := connected s;
     trace := trace s; next_ref := next_ref s |}.
Definition set_connected (b : bool) (s : state) : state :=
  {| client := client s; transport := transport s; connected := b;
     trace := trace s; next_ref := next_ref s |}.
Definition emit (ev : event) (s : state) : state :=
  {| client := client s; transport := transport s; connected := connected s;
     trace := trace s ++ [ev]; next_ref := next_ref s |}.
Definition bump (s : state) : state :=
  {| client := client s; transport := transport s; connected := connected s;
     trace := trace s; next_ref := S (next_ref s) |}.

Definition MCP_SERVER_URL : string := "http://localhost:8000/sse".

Definition log_info (msg : string) : Eff state unit := modify (emit (LogInfo msg)).
Definition log_error (msg : string) : Eff state unit := modify (emit (LogError msg)).
Definition log_debug (msg : string) (extra : option Args) : Eff state unit :=
  modify (emit (LogDebug msg extra)).

(** Lift an answer of the SDK that carries no value. *)
Definition answer (r : option thrown) : Eff state unit :=
  match r with
  | None => mret tt
  | Some e => throw e
  end.

Section WithSdk.

Variable sdk : Sdk.

(** [new SSEClientTransport(new URL(url))] *)
Definition new_SSEClientTransport (url : string) : Eff state TransportRef :=
  t ← gets next_ref;
  modify (emit (NewTransport url t));;
  r ← gets (λ s, sdk_new_transport sdk (trace s));
  answer r;;
  modify bump;;
  mret t.

(** [new Client({name, version}, {capabilities: {}})] *)
Definition new_Client (name version : string) : Eff state ClientRef :=
  c ← gets next_ref;
  modify (emit (NewClient name version c));;
  r ← gets (λ s, sdk_new_client sdk (trace s));
  answer r;;
  modify bump;;
  mret c.

(** [await c.connect(t)] *)
Definition client_connect (c : ClientRef) (t : option TransportRef)
  : Eff state unit :=
  modify (emit (ClientConnect c t));;
  r ← gets (λ s, sdk_connect sdk (trace s));
  answer r.

(** [await c.callTool({name, arguments: args})] *)
Definition client_callTool (c : ClientRef) (name : string) (args : Args)
  : Eff state CallToolResult :=
  modify (emit (ClientCallTool c name args));;
  r ← gets (λ s, sdk_callTool sdk (trace s));
  match r with
  | Returns v => mret v
  | Throws e => throw e
  end.

(** [await c.close()] *)
Definition client_close (c : ClientRef) : Eff state unit :=
  modify (emit (ClientClose c));;
  r ← gets (λ s, sdk_close sdk (trace s));
  answer r.

(** The body of the [try] of [connect]. *)
Definition connect_body : Eff state bool :=
  log_info ("Connecting to MCP server at " +:+ MCP_SERVER_URL);;
  t ← new_SSEClientTransport MCP_SERVER_URL;
  modify (set_transport (Some t));;
  c ← new_Client "crew-defi-agent" "1.0.0";
  modify (set_client (Some c));;
  t' ← gets transport;
  client_connect c t';;
  modify (set_connected true);;
  log_info "✅ Connected to MCP server";;
  mret true.

(** [async connect(): Promise<boolean>] *)
Definition connect : Eff state bool :=
  isc ← gets connected;
  if (isc : bool) then mret true
  else
    try_catch connect_body
      (λ error,
         log_error ("Failed to connect to MCP server: " +:+ js_String error);;
         modify (set_connected false);;
         mret false).

(** The callback of [.map] in [callTool]. *)
Definition item_to_text (item : ContentItem) : option string :=
  if decide (item_type item = "text") then item_text item else Some "".

(** [join] renders [undefined] and [null] elements as empty strings. *)
Definition join_element (x : option string) : string := default "" x.

(** [(result.content as any).map(...).join('\n')]; a [content] that is not
    an array makes the call of [.map] throw a [TypeError]. *)
Definition extract_content (result : CallToolResult) : Eff state string :=
  match result_content result with
  | Some items => mret (js_join LF (join_element <$> (item_to_text <$> items)))
  | None =>
      throw (ErrorObj TypeError
               "Cannot read properties of undefined (reading 'map')")
  end.

(** The body of the [try] of [callTool]. *)
Definition callTool_body (name : string) (args : Args)
  : Eff state MCPToolResult :=
  oc ← gets client;
  match oc with
  | None => throw (new_Error "MCP client not initialized")
  | Some c =>
      log_debug ("Calling MCP tool: " +:+ name) (Some args);;
      result ← client_callTool c name args;
      content ← extract_content result;
      log_debug ("MCP tool " +:+ name +:+ " returned "
                 +:+ pretty (String.length content) +:+ " chars") None;;
      mret {| content := content; error := None |}
  end.

(** The [catch] of [callTool]. *)
Definition callTool_handler (error : thrown) : Eff state MCPToolResult :=
  let errorMsg := error_message error in
  log_error ("MCP tool call failed: " +:+ errorMsg);;
  mret {| content := ""; error := Some errorMsg |}.

Definition unavailable : MCPToolResult :=
  {| content := ""; error := Some "MCP server not available" |}.

(** The [try ... catch] statement of [callTool]. *)
Definition callTool_try (name : string) (args : Args)
  : Eff state MCPToolResult :=
  try_catch (callTool_body name args) callTool_handler.

(** [async callTool(name, args = {}): Promise<MCPToolResult>] *)
Definition callTool (name : string) (args : Args) : Eff state MCPToolResult :=
  isc ← gets connected;
  if negb (isc : bool) then
    success ← connect;
    if negb (success : bool) then mret unavailable
    else callTool_try name args
  else callTool_try name args.

(** The state in which [callTool] reaches its [try]: at once when the
    client is connected, after a successful [connect] otherwise. *)
Definition enters_try (s s1 : state) : Prop :=
  (connected s = true ∧ s1 = s) ∨
  (connected s = false ∧ connect s = (s1, Returns true)).

(** [isConnected(): boolean] *)
Definition isConnected : Eff state bool := gets connected.

(** [async disconnect(): Promise<void>] *)
Definition disconnect : Eff state unit :=
  oc ← gets client;
  match oc with
  | Some c =>
      try_catch (client_close c)
        (λ error, log_error ("Error disconnecting: " +:+ js_String error));;
      modify (set_client None);;
      modify (set_transport None);;
      modify (set_connected false)
  | None => mret tt
  end.

(** *** The module: instances on a heap and the singleton variable

    [MCPClient] objects live on a heap and are handed around by reference;
    [mcpClientInstance] is the module-level variable of client.ts. *)

Record fields : Type := mkFields {
  f_client : option ClientRef;
  f_transport : option TransportRef;
  f_connected : bool;
}.

Record program : Type := mkProgram {
  heap : gmap nat fields;
  mcpClientInstance : option nat;
  events : list event;
  fresh_ref : nat;
}.

(** The module as it is loaded: [let mcpClientInstance = null]. *)
Definition loaded : program :=
  {| heap := ∅; mcpClientInstance := None; events := []; fresh_ref := 0 |}.

(** [new MCPClient()]: a fresh object with the field initialisers. *)
Definition construct : Eff program nat := λ p,
  let l := fresh (dom (heap p)) in
  ({| heap := <[l := mkFields None None false]> (heap p);
      mcpClientInstance := mcpClientInstance p;
      events := events p; fresh_ref := fresh_ref p |}, Returns l).

Definition set_instance (l : option nat) (p : program) : program :=
  {| heap := heap p; mcpClientInstance := l;
     events := events p; fresh_ref := fresh_ref p |}.

(** [export function getMCPClient(): MCPClient] *)
Definition getMCPClient : Eff program nat :=
  inst ← gets mcpClientInstance;
  match inst with
  | None =>
      l ← construct;
      modify (set_instance (Some l));;
      mret l
  | Some l => mret l
  end.

(** The view of the object at [l] that its methods work on, and the way
    back. *)
Definition view (f : fields) (p : program) : state :=
  {| client := f_client f; transport := f_transport f;
     connected := f_connected f; trace := events p; next_ref := fresh_ref p |}.

Definition store (l : nat) (s : state) (p : program) : program :=
  {| heap := <[l := mkFields (client s) (transport s) (connected s)]> (heap p);
     mcpClientInstance := mcpClientInstance p;
     events := trace s; fresh_ref := next_ref s |}.

(** A method call [obj.m(...)] on the object at [l]. References are only
    obtained from [construct], so the lookup succeeds in every program. *)
Definition invoke {A} (l : nat) (m : Eff state A) : Eff program A := λ p,
  match heap p !! l with
  | Some f => let '(s', r) := m (view f p) in (store l s' p, r)
  | None =>
      (p, Throws (ErrorObj TypeError
                    "Cannot read properties of undefined"))
  end.

(** What the rest of the extension can do with the module's exports. *)
Inductive op : Type :=
  | OpGetMCPClient
  | OpConstruct
  | OpConnect (l : nat)
  | OpCallTool (l : nat) (name : string) (args : Args)
  | OpIsConnected (l : nat)
  | OpDisconnect (l : nat).

Definition run_op (o : op) : Eff program unit :=
  match o with
  | OpGetMCPClient => getMCPClient;; mret tt
  | OpConstruct => construct;; mret tt
  | OpConnect l => invoke l connect;; mret tt
  | OpCallTool l name args => invoke l (callTool name args);; mret tt
  | OpIsConnected l => invoke l isConnected;; mret tt
  | OpDisconnect l => invoke l disconnect
  end.

(** A caller may catch what an operation throws and go on. *)
Definition run_ops (os : list op) (p : program) : program :=
  foldl (λ q o, (run_op o q).1) p os.

End WithSdk.

(** The client is initialised whenever it is connected. *)
Definition initialized (s : state) : Prop :=
  connected s = true → is_Some (client s).

(** Whether an event is a call of the SDK's [callTool]. *)
Definition is_tool_call (ev : event) : bool :=
  match ev with
  | ClientCallTool _ _ _ => true
  | _ => false
  end.

End WithArgs.

Arguments event : clear implicits.
Arguments Sdk : clear implicits.
Arguments state : clear implicits.
Arguments program : clear implicits.
Arguments op : clear implicits.

(** *** Sample servers

    Arguments are given as name and value pairs. *)

Definition sample_args : Type := list (string * string).

(** A server that answers every tool call with a text, an image and
    another text. *)
Definition sdk_up : Sdk sample_args :=
  {| sdk_new_transport := λ _, None;
     sdk_new_client := λ _, None;
     sdk_connect := λ _, None;
     sdk_callTool := λ _,
       Returns (mkCallToolResult
                  (Some [mkItem "text" (Some "TVL: 1");
                         mkItem "image" None;
                         mkItem "text" (Some "ok")]));
     sdk_close := λ _, None |}.

(** No server listens: the SDK's [connect] rejects. *)
Definition sdk_down : Sdk sample_args :=
  {| sdk_new_transport := λ _, None;
     sdk_new_client := λ _, None;
     sdk_connect := λ _, Some (ErrorObj Error "SSE error: connection refused");
     sdk_callTool := λ _, Throws (ErrorObj Error "Not connected");
     sdk_close := λ _, None |}.

(** A server that rejects every tool call. *)
Definition sdk_rejecting : Sdk sample_args :=
  {| sdk_new_transport := λ _, None;
     sdk_new_client := λ _, None;
     sdk_connect := λ _, None;
     sdk_callTool := λ _, Throws (ErrorObj Error "Unknown tool: get_tvl");
     sdk_close := λ _, None |}.

(** A server whose answers carry no [content] array. *)
Definition sdk_malformed : Sdk sample_args :=
  {| sdk_new_transport := λ _, None;
     sdk_new_client := λ _, None;
     sdk_connect := λ _, None;
     sdk_callTool := λ _, Returns (mkCallToolResult None);
     sdk_close := λ _, None |}.

Definition fresh_client : state sample_args := new_MCPClient [] 0.

End MCP.

(** ** Events published to the side panel (event/types) *)

Inductive Actors : Type := SYSTEM | PLANNER | NAVIGATOR.

Inductive ExecutionState : Type :=
  | TASK_START | TASK_OK | TASK_FAIL | TASK_CANCEL | TASK_PAUSE
  | STEP_START | STEP_OK | STEP_FAIL.

Global Instance ExecutionState_eq_dec : EqDecision ExecutionState.
Proof. solve_decision. Defined.

Record AgentEvent : Type := mkEvent {
  actor : Actors;
  ev_state : ExecutionState;
  details : string;
}.

(** ** The specialist agent (EXAMPLE_DEFI_AGENT.md, agents/defi.ts)

    Calls of the logger change nothing the agent or the Executor reads and
    are left out here and in the Executor. *)

Module Agent.

(** [AgentOutput<T>]. Its declaration (../types) is not among the sources;
    [execute] builds a value of this type from [{ id: this.id }] alone and
    assigns [result] or [error] afterwards, so both are optional
    properties. *)
Record AgentOutput (T : Type) : Type := mkOutput {
  id : string;
  result : option T;
  error : option string;
}.
Arguments mkOutput {T} id result error.
Arguments id {T} a.
Arguments result {T} a.
Arguments error {T} a.

(** [agentOutput.result = v] and [agentOutput.error = msg] *)
Definition assign_result {T} (o : AgentOutput T) (v : T) : AgentOutput T :=
  {| id := id o; result := Some v; error := error o |}.
Definition assign_error {T} (o : AgentOutput T) (msg : string) : AgentOutput T :=
  {| id := id o; result := result o; error := Some msg |}.

(** Exactly one of [result] and [error] is set. *)
Definition exactly_one {T} (o : AgentOutput T) : bool :=
  xorb (bool_decide (is_Some (result o))) (bool_decide (is_Some (error o))).

(** The values of [defiAnalysisSchema]. *)
Inductive ProtocolType : Type :=
  | DEX | Lending | Staking | Bridge | Yield | OtherProtocol.
Inductive RiskLevel : Type := Low | Medium | High | Critical.
Inductive AuditStatus : Type := Audited | Unaudited | UnknownStatus.
Inductive RecommendedAction : Type :=
  | Proceed | ProceedWithCaution | DoNotProceed.

Record DeFiAnalysis : Type := mkAnalysis {
  protocol_name : string;
  protocol_type : ProtocolType;
  risk_level : RiskLevel;
  risk_factors : list string;
  apr_apy : option string;
  tvl : option string;
  audit_status : AuditStatus;
  audit_firms : list string;
  recommended_action : RecommendedAction;
  confidence : Qc;
  explanation : string;
  additional_checks : list string;
}.

Definition RiskLevel_text (r : RiskLevel) : string :=
  match r with
  | Low => "Low" | Medium => "Medium" | High => "High" | Critical => "Critical"
  end.

Definition RecommendedAction_text (a : RecommendedAction) : string :=
  match a with
  | Proceed => "Proceed"
  | ProceedWithCaution => "Proceed with Caution"
  | DoNotProceed => "Do Not Proceed"
  end.

(** Messages of the conversation, by their role. *)
Inductive BaseMessage : Type :=
  | SystemMessage (text : string)
  | HumanMessage (text : string)
  | AIMessage (text : string).

(** What [browserContext.getState(false)] resolves to, as far as [execute]
    reads it; [visibleText] is the answer of
    [elementTree.getVisibleText()]. *)
Record BrowserState : Type := mkBrowserState {
  url : string;
  title : string;
  visibleText : outcome string;
}.

(** The record pushed on [context.actionResults]. *)
Record ActionResult : Type := mkActionResult {
  isDone : bool;
  success : bool;
  extractedContent : option string;
  result_error : option string;
  includeInMemory : bool;
  interactedElement : option nat;
}.

(** The part of the shared [AgentContext] that [execute] changes. *)
Record context : Type := mkContext {
  actionResults : list ActionResult;
  published : list AgentEvent;
}.

(** What the agent is given: its collaborators and the imports of
    ./errors that are not among the sources. *)
Record Env : Type := mkEnv {
  this_id : string;
  getState : outcome BrowserState;
  getMessages : outcome (list BaseMessage);
  getSystemMessage : outcome BaseMessage;
  invoke : list BaseMessage → outcome (option DeFiAnalysis);
  JSON_stringify : DeFiAnalysis → string;
  isAbortedError : thrown → bool;
  isAuthenticationError : thrown → bool;
  isBadRequestError : thrown → bool;
  isForbiddenError : thrown → bool;
}.

(** The answer of a collaborator, returned or thrown. *)
Definition ask {S A} (r : outcome A) : Eff S A :=
  match r with
  | Returns a => mret a
  | Throws e => throw e
  end.

(** Modelled from the spec: [AgentContext.emitEvent] is not among the
    sources. The Event Publisher is "a one-directional notification
    channel from the core to an observing UI; fire-and-forget, never blocks
    execution": the call records the event and returns. *)
Definition emitEvent (a : Actors) (st : ExecutionState) (d : string)
  : Eff context unit :=
  modify (λ c, {| actionResults := actionResults c;
                  published := published c ++ [mkEvent a st d] |}).

(** [this.context.actionResults.push(r)] *)
Definition push_result (r : ActionResult) : Eff context unit :=
  modify (λ c, {| actionResults := actionResults c ++ [r];
                  published := published c |}).

(** [messages.slice(-n)] *)
Definition slice_last {A} (n : nat) (l : list A) : list A :=
  drop (length l - n) l.

Definition analysisQuery (currentUrl pageTitle pageText : string) : string :=
  "Analyze this DeFi protocol page:" +:+ LF +:+ LF +:+
  "URL: " +:+ currentUrl +:+ LF +:+
  "Page Title: " +:+ pageTitle +:+ LF +:+ LF +:+
  "Page Content (first 5000 chars):" +:+ LF +:+
  String.substring 0 5000 pageText +:+ LF +:+ LF +:+
  "Perform a comprehensive DeFi security and viability analysis." +:+ LF +:+
  "Extract key metrics if available." +:+ LF +:+
  "Identify any red flags or security concerns.".

Section WithEnv.

Variable env : Env.

(** The body of the [try] of [execute], up to the assignment of
    [agentOutput.result]; it returns [modelOutput]. *)
Definition execute_body : Eff context DeFiAnalysis :=
  emitEvent SYSTEM STEP_START "DeFi Agent analyzing protocol...";;
  browserState ← ask (getState env);
  let currentUrl := url browserState in
  let pageTitle := title browserState in
  pageText ← ask (visibleText browserState);
  let query := analysisQuery currentUrl pageTitle pageText in
  messages ← ask (getMessages env);
  system ← ask (getSystemMessage env);
  let inputMessages := [system] ++ slice_last 5 messages ++ [HumanMessage query] in
  modelOutput ← ask (invoke env inputMessages);
  match modelOutput with
  | None => throw (new_Error "Failed to validate DeFi analysis output")
  | Some out =>
      push_result {| isDone := false; success := true;
                     extractedContent := Some (JSON_stringify env out);
                     result_error := None; includeInMemory := true;
                     interactedElement := None |};;
      emitEvent SYSTEM STEP_OK
        ("DeFi Analysis: " +:+ protocol_name out +:+ " - Risk: "
         +:+ RiskLevel_text (risk_level out) +:+ " - "
         +:+ RecommendedAction_text (recommended_action out));;
      mret out
  end.

(** The [catch] of [execute]. *)
Definition execute_handler (agentOutput : AgentOutput DeFiAnalysis)
    (error : thrown) : Eff context (AgentOutput DeFiAnalysis) :=
  if isAbortedError env error then
    throw (ErrorObj RequestCancelledError "DeFi analysis was cancelled")
  else if isAuthenticationError env error then
    throw (ErrorObj ChatModelAuthError "Authentication failed for DeFi analysis")
  else if isBadRequestError env error then
    throw (ErrorObj ChatModelBadRequestError "Invalid request for DeFi analysis")
  else if isForbiddenError env error then
    throw (ErrorObj ChatModelForbiddenError "Access forbidden for DeFi analysis")
  else
    emitEvent SYSTEM STEP_FAIL
      ("DeFi analysis failed: " +:+ error_message error);;
    mret (assign_error agentOutput (error_message error)).

(** The value [execute] starts from: [{ id: this.id }]. *)
Definition initial_output : AgentOutput DeFiAnalysis :=
  {| id := this_id env; result := None; error := None |}.

(** [async execute(): Promise<AgentOutput<DeFiAnalysis>>] *)
Definition execute : Eff context (AgentOutput DeFiAnalysis) :=
  let agentOutput := initial_output in
  try_catch
    (modelOutput ← execute_body;
     mret (assign_result agentOutput modelOutput))
    (execute_handler agentOutput).

(** The failure modes the [catch] tells apart, in the order of its tests. *)
Inductive failure_mode : Type :=
  | Cancellation | Authentication | BadRequest | Forbidden | OtherFailure.

Definition classify (error : thrown) : failure_mode :=
  if isAbortedError env error then Cancellation
  else if isAuthenticationError env error then Authentication
  else if isBadRequestError env error then BadRequest
  else if isForbiddenError env error then Forbidden
  else OtherFailure.

End WithEnv.

(** *** Sample environments *)

Definition sample_analysis : DeFiAnalysis :=
  {| protocol_name := "Aave"; protocol_type := Lending; risk_level := Low;
     risk_factors := ["smart contract risk"]; apr_apy := Some "3.1%";
     tvl := Some "$10B"; audit_status := Audited;
     audit_firms := ["OpenZeppelin"]; recommended_action := Proceed;
     confidence := 1%Qc; explanation := "Established lending protocol";
     additional_checks := [] |}.

Definition sample_state : BrowserState :=
  {| url := "https://app.aave.com"; title := "Aave";
     visibleText := Returns "Supply and borrow assets" |}.

(** The tests of ./errors, here by the class of the error. *)
Definition has_class (name : string) (e : thrown) : bool :=
  match e with
  | ErrorObj cls _ => bool_decide (class_name cls = name)
  | OtherValue _ => false
  end.

(** The page is there and the model answers with [answer]. *)
Definition env_with (answer : outcome (option DeFiAnalysis)) : Env :=
  {| this_id := "defi";
     getState := Returns sample_state;
     getMessages := Returns [HumanMessage "Is Aave safe?"];
     getSystemMessage := Returns (SystemMessage "You are a DeFi analyst.");
     invoke := λ _, answer;
     JSON_stringify := λ a, "{" +:+ protocol_name a +:+ "}";
     isAbortedError := has_class "AbortError";
     isAuthenticationError := has_class "AuthenticationError";
     isBadRequestError := has_class "BadRequestError";
     isForbiddenError := has_class "ForbiddenError" |}.

Definition env_answering : Env := env_with (Returns (Some sample_analysis)).
Definition env_invalid_output : Env := env_with (Returns None).
Definition env_unauthorized : Env :=
  env_with (Throws (ErrorObj (OtherError "AuthenticationError") "401 Unauthorized")).
Definition env_aborted : Env :=
  env_with (Throws (ErrorObj (OtherError "AbortError") "The operation was aborted")).
Definition env_timeout : Env :=
  env_with (Throws (ErrorObj Error "Request timed out")).

Definition empty_context : context :=
  {| actionResults := []; published := [] |}.

End Agent.

(** ** The Executor's step loop (AGENT_ARCHITECTURE_GUIDE.md, executor.ts) *)

Module Executor.

Export Agent.

(** The Planner's output schema. *)
Record PlannerOutput : Type := mkPlan {
  observation : string;
  challenges : string;
  done : bool;
  next_steps : string;
  final_answer : string;
  reasoning : string;
  web_task : bool;
}.

(** [context.options], as far as the loop reads it. *)
Record Options : Type := mkOptions {
  maxSteps : nat;
  planningInterval : nat;
}.

(** The calls the loop makes, with the step at which it makes them. *)
Inductive call : Type :=
  | CallShouldStop (step : nat)
  | CallRunPlanner (step : nat)
  | CallNavigate (step : nat).

Global Instance call_eq_dec : EqDecision call.
Proof. solve_decision. Defined.

(** The methods of the Executor that the loop calls and that are not among
    the sources, by the step at which they are called: the loop calls each
    at most once in a step. *)
Record Collaborators : Type := mkCollaborators {
  shouldStop : nat → bool;
  runPlanner : nat → outcome (option (AgentOutput PlannerOutput));
  navigate : nat → outcome bool;
}.

(** The variables of [execute] and what it did so far. *)
Record loop_state : Type := mkLoop {
  step : nat;
  latestPlanOutput : option (AgentOutput PlannerOutput);
  navigatorDone : bool;
  calls : list call;
  emitted : list AgentEvent;
}.

(** [let latestPlanOutput = null; let navigatorDone = false; step = 0] *)
Definition initial : loop_state :=
  {| step := 0; latestPlanOutput := None; navigatorDone := false;
     calls := []; emitted := [] |}.

Definition record_call (c : call) : Eff loop_state unit :=
  modify (λ s, {| step := step s; latestPlanOutput := latestPlanOutput s;
                  navigatorDone := navigatorDone s;
                  calls := calls s ++ [c]; emitted := emitted s |}).
Definition set_latestPlanOutput (o : option (AgentOutput PlannerOutput))
  : Eff loop_state unit :=
  modify (λ s, {| step := step s; latestPlanOutput := o;
                  navigatorDone := navigatorDone s;
                  calls := calls s; emitted := emitted s |}).
Definition set_navigatorDone (b : bool) : Eff loop_state unit :=
  modify (λ s, {| step := step s; latestPlanOutput := latestPlanOutput s;
                  navigatorDone := b;
                  calls := calls s; emitted := emitted s |}).
(** [step++] *)
Definition increment_step : Eff loop_state unit :=
  modify (λ s, {| step := S (step s); latestPlanOutput := latestPlanOutput s;
                  navigatorDone := navigatorDone s;
                  calls := calls s; emitted := emitted s |}).
(** [this.context.emitEvent(actor, state, details)], see [Agent.emitEvent]. *)
Definition publish (ev : AgentEvent) (s : loop_state) : loop_state :=
  {| step := step s; latestPlanOutput := latestPlanOutput s;
     navigatorDone := navigatorDone s;
     calls := calls s; emitted := emitted s ++ [ev] |}.

(** [a % b] on the non-negative integers; [None] is [NaN], the value of a
    remainder by zero. *)
Definition js_rem (a b : nat) : option nat :=
  if decide (b = 0) then None else Some (a mod b).

(** [x === 0] *)
Definition is_zero (x : option nat) : bool :=
  match x with
  | Some 0 => true
  | _ => false
  end.

(** [step % planningInterval === 0 || navigatorDone] *)
Definition planning_gate (planningInterval step : nat) (navigatorDone : bool)
  : bool :=
  is_zero (js_rem step planningInterval) || navigatorDone.

(** Modelled from the spec: [checkTaskCompletion] is not among the sources.
    "If the Planner signals done = true: ... exit the loop"; the [done]
    flag of the Planner's result is "the sole success signal consumed by
    the Executor". An output without a result signals nothing. *)
Definition checkTaskCompletion (o : option (AgentOutput PlannerOutput)) : bool :=
  match o with
  | Some out =>
      match result out with
      | Some plan => done plan
      | None => false
      end
  | None => false
  end.

(** The state in which the loop is entered:
    [this.context.emitEvent(Actors.SYSTEM, ExecutionState.TASK_START,
    this.context.taskId)] on the initial variables. *)
Definition start (taskId : string) : loop_state :=
  publish (mkEvent SYSTEM TASK_START taskId) initial.

(** How the loop is left. *)
Inductive exit : Type :=
  | Stopped        (** [if (await this.shouldStop()) break] *)
  | PlannerDone    (** [if (this.checkTaskCompletion(...)) break] *)
  | Exhausted.     (** [step < maxSteps] is false *)

Global Instance exit_eq_dec : EqDecision exit.
Proof. solve_decision. Defined.

Section WithCollaborators.

Variable opts : Options.
Variable co : Collaborators.

(** One pass of [for (step = 0; step < maxSteps; step++) { ... }]: the
    test, the body and the increment. [None] goes on to the next pass. *)
Definition pass : Eff loop_state (option exit) :=
  i ← gets step;
  if negb (i <? maxSteps opts) then mret (Some Exhausted)
  else
    record_call (CallShouldStop i);;
    if shouldStop co i then mret (Some Stopped)
    else
      nd ← gets navigatorDone;
      complete ←
        (if planning_gate (planningInterval opts) i nd then
           record_call (CallRunPlanner i);;
           out ← ask (runPlanner co i);
           set_latestPlanOutput out;;
           latest ← gets latestPlanOutput;
           mret (checkTaskCompletion latest)
         else mret false);
      if (complete : bool) then mret (Some PlannerDone)
      else
        record_call (CallNavigate i);;
        nd' ← ask (navigate co i);
        set_navigatorDone nd';;
        increment_step;;
        mret None.

(** The loop, run for at most [fuel] passes; [None] when the fuel runs
    out before the loop is left. *)
Fixpoint loop (fuel : nat) : Eff loop_state (option exit) :=
  match fuel with
  | 0 => mret None
  | S fuel' =>
      r ← pass;
      match r with
      | Some e => mret (Some e)
      | None => loop fuel'
      end
  end.

(** The terminal states of a task and the failure conditions. *)
Inductive ErrorKind : Type :=
  | StepBudgetExceeded
  | AgentError (cls : error_class)
  | UnknownError.

Inductive terminal : Type :=
  | Completed
  | Failed (kind : ErrorKind)
  | Cancelled.

Definition ErrorKind_text (k : ErrorKind) : string :=
  match k with
  | StepBudgetExceeded => "StepBudgetExceeded"
  | AgentError cls => class_name cls
  | UnknownError => "UnknownError"
  end.

(** Modelled from the spec: what follows the loop and the top-level
    [catch] of [execute] are elided in the sources ("... rest of execute
    method ...", "... existing error handling ..."). From sections 4.1
    and 7: a Planner-signalled completion is [Completed]; a stop observed
    at the cancellation check is [Cancelled]; a loop that is exhausted is
    [Failed] with [StepBudgetExceeded]; an error thrown by an agent is
    [Failed] with its kind, except [RequestCancelledError], on which the
    "task transitions to Cancelled, not Failed". *)
Definition terminal_of (r : outcome exit) : terminal :=
  match r with
  | Returns PlannerDone => Completed
  | Returns Stopped => Cancelled
  | Returns Exhausted => Failed StepBudgetExceeded
  | Throws (ErrorObj RequestCancelledError _) => Cancelled
  | Throws (ErrorObj cls _) => Failed (AgentError cls)
  | Throws (OtherValue _) => Failed UnknownError
  end.

(** Modelled from the spec: the terminal event, "emitted exactly once per
    task": [TASK_OK] "with the Planner's final answer", [TASK_CANCEL], or
    [TASK_FAIL] "carrying the error kind". *)
Definition terminal_event (t : terminal) (s : loop_state) : AgentEvent :=
  match t with
  | Completed =>
      mkEvent SYSTEM TASK_OK
        (default "" (plan ← (latestPlanOutput s ≫= result); Some (final_answer plan)))
  | Cancelled => mkEvent SYSTEM TASK_CANCEL "Task cancelled"
  | Failed k => mkEvent SYSTEM TASK_FAIL (ErrorKind_text k)
  end.

(** What a task ends in. *)
Record run : Type := mkRun {
  final : loop_state;
  outcome_of_loop : outcome exit;
  state_reached : terminal;
}.

Definition conclude (s : loop_state) (r : outcome exit) : run :=
  {| final := publish (terminal_event (terminal_of r) s) s;
     outcome_of_loop := r;
     state_reached := terminal_of r |}.

(** [async execute(): Promise<void>], for a given [taskId]: [TASK_START],
    the loop, the terminal event. [None] when [fuel] passes do not suffice
    to leave the loop. *)
Definition execute (taskId : string) (fuel : nat) : option run :=
  match loop fuel (start taskId) with
  | (_, Returns None) => None
  | (s, Returns (Some e)) => Some (conclude s (Returns e))
  | (s, Throws err) => Some (conclude s (Throws err))
  end.

(** The passes that ran the Navigator. *)
Definition navigations (l : list call) : list nat :=
  omap (λ c, match c with CallNavigate i => Some i | _ => None end) l.

(** Whether the Navigator run of the pass before [i] signalled
    completion; there is none before the first pass. *)
Definition prior_navigator_done (i : nat) : bool :=
  match i with
  | 0 => false
  | S j =>
      match navigate co j with
      | Returns b => b
      | Throws _ => false
      end
  end.

(** The test of the planning gate at pass [i]. *)
Definition gate_at (i : nat) : bool :=
  planning_gate (planningInterval opts) i (prior_navigator_done i).

Definition call_step (c : call) : nat :=
  match c with
  | CallShouldStop i | CallRunPlanner i | CallNavigate i => i
  end.

(** *** The record of the passes that were completed

    A pass that is completed was not stopped, ran the Planner exactly
    when the gate was open, without a completion, and ran the
    Navigator. *)
Definition completed_pass (i : nat) (l : list call) : Prop :=
  shouldStop co i = false ∧
  CallShouldStop i ∈ l ∧
  CallNavigate i ∈ l ∧
  (∃ b, navigate co i = Returns b) ∧
  (CallRunPlanner i ∈ l ↔ gate_at i = true) ∧
  (gate_at i = true →
   ∃ out, runPlanner co i = Returns out ∧ checkTaskCompletion out = false).

Record history (s : loop_state) : Prop := mkHistory {
  hist_step : step s ≤ maxSteps opts;
  hist_done : navigatorDone s = prior_navigator_done (step s);
  hist_calls : ∀ c, c ∈ calls s → call_step c < step s;
  hist_passes : ∀ i, i < step s → completed_pass i (calls s);
  hist_navigations : navigations (calls s) = seq 0 (step s);
}.

(** The calls of a pass that is not stopped, up to the Navigator. *)
Definition calls_before_navigate (i : nat) : list call :=
  CallShouldStop i :: (if gate_at i then [CallRunPlanner i] else []).

(** The pass in which the loop is left, from the state [s] before it. *)
Inductive last_pass (s : loop_state) : loop_state → outcome exit → Prop :=
  | last_exhausted :
      maxSteps opts ≤ step s →
      last_pass s s (Returns Exhausted)
  | last_stopped s' :
      step s < maxSteps opts →
      shouldStop co (step s) = true →
      calls s' = calls s ++ [CallShouldStop (step s)] →
      emitted s' = emitted s →
      last_pass s s' (Returns Stopped)
  | last_planner_done s' out :
      step s < maxSteps opts →
      shouldStop co (step s) = false →
      gate_at (step s) = true →
      runPlanner co (step s) = Returns out →
      checkTaskCompletion out = true →
      latestPlanOutput s' = out →
      calls s' = calls s ++ [CallShouldStop (step s); CallRunPlanner (step s)] →
      emitted s' = emitted s →
      last_pass s s' (Returns PlannerDone)
  | last_planner_throws s' e :
      step s < maxSteps opts →
      shouldStop co (step s) = false →
      gate_at (step s) = true →
      runPlanner co (step s) = Throws e →
      calls s' = calls s ++ [CallShouldStop (step s); CallRunPlanner (step s)] →
      emitted s' = emitted s →
      last_pass s s' (Throws e)
  | last_navigator_throws s' e :
      step s < maxSteps opts →
      shouldStop co (step s) = false →
      (gate_at (step s) = true →
       ∃ out, runPlanner co (step s) = Returns out ∧
              checkTaskCompletion out = false) →
      navigate co (step s) = Throws e →
      calls s' = calls s ++ calls_before_navigate (step s)
                         ++ [CallNavigate (step s)] →
      emitted s' = emitted s →
      last_pass s s' (Throws e).

(** An exit of the loop, as the result of [pass] and [loop]. *)
Definition leaving (r : outcome exit) : outcome (option exit) :=
  match r with
  | Returns e => Returns (Some e)
  | Throws err => Throws err
  end.

End WithCollaborators.

(** *** Sample tasks *)

Definition opts_10_5 : Options := {| maxSteps := 10; planningInterval := 5 |}.
Definition opts_3_1 : Options := {| maxSteps := 3; planningInterval := 1 |}.
Definition opts_3_0 : Options := {| maxSteps := 3; planningInterval := 0 |}.

Definition plan_not_done : AgentOutput PlannerOutput :=
  {| id := "planner";
     result := Some {| observation := "page is open"; challenges := "";
                       done := false; next_steps := "read the title";
                       final_answer := ""; reasoning := ""; web_task := true |};
     error := None |}.

Definition plan_done : AgentOutput PlannerOutput :=
  {| id := "planner";
     result := Some {| observation := "title was read"; challenges := "";
                       done := true; next_steps := "";
                       final_answer := "Example Domain"; reasoning := "";
                       web_task := true |};
     error := None |}.

(** The Planner never reports completion, the Navigator never finishes,
    nobody stops the task. *)
Definition co_never_done : Collaborators :=
  {| shouldStop := λ _, false;
     runPlanner := λ _, Returns (Some plan_not_done);
     navigate := λ _, Returns false |}.

(** As [co_never_done], but the user stops the task at once. *)
Definition co_stopped : Collaborators :=
  {| shouldStop := λ _, true;
     runPlanner := λ _, Returns (Some plan_not_done);
     navigate := λ _, Returns false |}.

(** The Navigator reports completion in pass 1, the Planner confirms it
    from pass 2 on. *)
Definition co_title : Collaborators :=
  {| shouldStop := λ _, false;
     runPlanner := λ i, Returns (Some (if 2 <=? i then plan_done else plan_not_done));
     navigate := λ i, Returns (bool_decide (i = 1)) |}.

(** The Navigator always reports completion, the Planner never does. *)
Definition co_navigator_only : Collaborators :=
  {| shouldStop := λ _, false;
     runPlanner := λ _, Returns (Some plan_not_done);
     navigate := λ _, Returns true |}.

(** The language model rejects the credentials at the first Planner run. *)
Definition co_auth_failure : Collaborators :=
  {| shouldStop := λ _, false;
     runPlanner := λ _, Throws (ErrorObj ChatModelAuthError "Planner API Authentication failed");
     navigate := λ _, Returns false |}.

End Executor.

(** ** More of the MCP client: what a run shows *)

Module MCPRuns.

Import MCP.

Section WithArgs.

Context {Args : Type}.

(** Whether an event is a call of a method of the SDK client [c]. *)
Definition uses (c : ClientRef) (ev : event Args) : bool :=
  match ev with
  | ClientConnect c' _ | ClientCallTool c' _ _ | ClientClose c' =>
      bool_decide (c' = c)
  | _ => false
  end.

(** Whether an event builds, connects or closes something. *)
Definition is_connection_event (ev : event Args) : bool :=
  match ev with
  | NewTransport _ _ | NewClient _ _ _ | ClientConnect _ _ | ClientClose _ =>
      true
  | _ => false
  end.

(** The tool calls among some events: client, tool name, arguments. *)
Definition tool_calls (evs : list (event Args))
  : list (ClientRef * string * Args) :=
  omap (λ ev, match ev with
              | ClientCallTool c name args => Some (c, name, args)
              | _ => None
              end) evs.

(** No event after a [close] of a client calls a method of that client. *)
Definition no_use_after_close (tr : list (event Args)) : Prop :=
  ∀ l1 l2 c ev,
    tr = l1 ++ ClientClose c :: l2 → ev ∈ l2 → uses c ev = false.

(** What [disconnect] logs after the SDK's answer to [close]. *)
Definition close_log (r : option thrown) : list (event Args) :=
  match r with
  | None => []
  | Some e => [LogError ("Error disconnecting: " +:+ js_String e)]
  end.

End WithArgs.

(** A sample run: connect, call a tool, disconnect, call a tool again. *)
Definition sample_run : state sample_args :=
  (callTool sdk_up "get_chains" []
     (disconnect sdk_up
        (callTool sdk_up "get_tvl" [("protocol", "aave")]
           (connect sdk_up fresh_client).1).1).1).1.

End MCPRuns.

(** ** The MCP client, await by await

    The methods of [MCPClient] are [async]: a call runs up to its first
    [await] and goes on when the awaited promise has settled. In between,
    other calls on the same instance may start and continue. Here each
    method is cut at its [await]s (client.ts lines 36, 54, 70 and 114),
    and a machine runs the pieces of several calls in any order. The
    answer of the SDK to a call is read when the caller continues. *)

Module MCPAsync.

Import MCP MCPRuns.

Section WithArgs.

Context {Args : Type}.

(** A call that is suspended at an [await]. *)
Inductive task : Type :=
  | AtConnect
      (* [connect], at [await this.client.connect(this.transport)] *)
  | AtCallToolConnect (name : string) (args : Args) (settled : option bool)
      (* [callTool], at [await this.connect()]; [settled] is [None] while
         that [connect] is itself suspended, and its value afterwards *)
  | AtCallTool (name : string)
      (* [callTool], at [await this.client.callTool(...)] *)
  | AtClose.
      (* [disconnect], at [await this.client.close()] *)

(** How a call ended. *)
Inductive ending : Type :=
  | ConnectResolved (b : bool)
  | CallToolResolved (r : MCPToolResult)
  | DisconnectResolved
  | Rejected (e : thrown).

(** A call that was made: still suspended, or ended. *)
Inductive slot : Type :=
  | Pending (t : task)
  | Ended (r : ending).

Section WithSdk.

Variable sdk : Sdk Args.

(** The [catch] of [connect]. *)
Definition connect_handler (error : thrown) : Eff (state Args) bool :=
  log_error ("Failed to connect to MCP server: " +:+ js_String error);;
  modify (set_connected false);;
  mret false.

(** [connect] up to its [await]: [Some b] when it has returned [b],
    [None] when it is suspended at line 36, the SDK's [connect] called. *)
Definition connect_begin : Eff (state Args) (option bool) :=
  isc ← gets connected;
  if (isc : bool) then mret (Some true)
  else
    try_catch
      (log_info ("Connecting to MCP server at " +:+ MCP_SERVER_URL);;
       t ← new_SSEClientTransport sdk MCP_SERVER_URL;
       modify (set_transport (Some t));;
       c ← new_Client sdk "crew-defi-agent" "1.0.0";
       modify (set_client (Some c));;
       t' ← gets transport;
       modify (emit (ClientConnect c t'));;
       mret None)
      (λ error, b ← connect_handler error; mret (Some b)).

(** [connect] from its [await] on. *)
Definition connect_resume : Eff (state Args) bool :=
  try_catch
    (r ← gets (λ s, sdk_connect sdk (trace s));
     answer r;;
     modify (set_connected true);;
     log_info "✅ Connected to MCP server";;
     mret true)
    connect_handler.

(** The [try] of [callTool] up to its [await] at line 70, the SDK's
    [callTool] called; without a client the [catch] ends the call. *)
Definition callTool_enter (name : string) (args : Args)
  : Eff (state Args) slot :=
  try_catch
    (oc ← gets client;
     match oc with
     | None => throw (new_Error "MCP client not initialized")
     | Some c =>
         log_debug ("Calling MCP tool: " +:+ name) (Some args);;
         modify (emit (ClientCallTool c name args));;
         mret (Pending (AtCallTool name))
     end)
    (λ error, r ← callTool_handler error; mret (Ended (CallToolResolved r))).

(** [callTool] up to its first [await]. Not connected, it calls
    [this.connect()], which runs up to its own [await] or its end, and
    awaits the promise. *)
Definition callTool_begin (name : string) (args : Args)
  : Eff (state Args) slot :=
  isc ← gets connected;
  if negb (isc : bool) then
    settled ← connect_begin;
    mret (Pending (AtCallToolConnect name args settled))
  else callTool_enter name args.

(** [callTool] from its [await] at line 70 on. *)
Definition callTool_finish (name : string) : Eff (state Args) MCPToolResult :=
  try_catch
    (r ← gets (λ s, sdk_callTool sdk (trace s));
     result ← match r with
              | Returns v => mret v
              | Throws e => throw e
              end;
     content ← extract_content result;
     log_debug ("MCP tool " +:+ name +:+ " returned "
                +:+ pretty (String.length content) +:+ " chars") None;;
     mret {| content := content; error := None |})
    callTool_handler.

(** [disconnect] up to its [await], the SDK's [close] called; without a
    client it has returned. *)
Definition disconnect_begin : Eff (state Args) slot :=
  oc ← gets client;
  match oc with
  | Some c => modify (emit (ClientClose c));; mret (Pending AtClose)
  | None => mret (Ended DisconnectResolved)
  end.

(** [disconnect] from its [await] on. *)
Definition disconnect_resume : Eff (state Args) unit :=
  try_catch
    (r ← gets (λ s, sdk_close sdk (trace s)); answer r)
    (λ error, log_error ("Error disconnecting: " +:+ js_String error));;
  modify (set_client None);;
  modify (set_transport None);;
  modify (set_connected false).

(** The calls a user of the instance can make. *)
Inductive call : Type :=
  | CallConnect
  | CallCallTool (name : string) (args : Args)
  | CallDisconnect.

(** A call, up to its first [await] or its end. *)
Definition start (c : call) : Eff (state Args) slot :=
  match c with
  | CallConnect =>
      r ← connect_begin;
      mret match r with
           | Some b => Ended (ConnectResolved b)
           | None => Pending AtConnect
           end
  | CallCallTool name args => callTool_begin name args
  | CallDisconnect => disconnect_begin
  end.

(** A suspended call, from its [await] to the next one or its end. The
    [connect] that [callTool] awaits continues first; [callTool] itself
    continues in a later turn. *)
Definition resume (t : task) : Eff (state Args) slot :=
  match t with
  | AtConnect =>
      b ← connect_resume; mret (Ended (ConnectResolved b))
  | AtCallToolConnect name args None =>
      b ← connect_resume; mret (Pending (AtCallToolConnect name args (Some b)))
  | AtCallToolConnect name args (Some success) =>
      if negb success then mret (Ended (CallToolResolved unavailable))
      else callTool_enter name args
  | AtCallTool name =>
      r ← callTool_finish name; mret (Ended (CallToolResolved r))
  | AtClose =>
      disconnect_resume;; mret (Ended DisconnectResolved)
  end.

(** The instance and the calls made on it, in the order they were made. *)
Record machine : Type := mkMachine {
  inst : state Args;
  slots : list slot;
}.

(** A new instance on which no call has been made. *)
Definition boot (tr : list (event Args)) (n : nat) : machine :=
  {| inst := new_MCPClient tr n; slots := [] |}.

(** What a piece leaves: a promise that rejects is an ended call. *)
Definition piece (m : Eff (state Args) slot) (s : state Args)
  : state Args * slot :=
  match m s with
  | (s', Returns sl) => (s', sl)
  | (s', Throws e) => (s', Ended (Rejected e))
  end.

(** One turn: a new call is made, or the suspended call [i] goes on. *)
Inductive turn : Type :=
  | Start (c : call)
  | Resume (i : nat).

Definition step (t : turn) (m : machine) : machine :=
  match t with
  | Start c =>
      let '(s', sl) := piece (start c) (inst m) in
      {| inst := s'; slots := slots m ++ [sl] |}
  | Resume i =>
      match slots m !! i with
      | Some (Pending t) =>
          let '(s', sl) := piece (resume t) (inst m) in
          {| inst := s'; slots := <[i := sl]> (slots m) |}
      | _ => m
      end
  end.

Definition exec (ts : list turn) (m : machine) : machine :=
  foldl (λ m t, step t m) m ts.

(** A suspended call goes on, an ended one stays. *)
Definition go_on (p : state Args * slot) : state Args * slot :=
  match p.2 with
  | Pending t => piece (resume t) p.1
  | Ended _ => p
  end.

(** The method of a call, run to its end in one go. *)
Definition in_one_go (c : call) : Eff (state Args) ending :=
  match c with
  | CallConnect => b ← connect sdk; mret (ConnectResolved b)
  | CallCallTool name args =>
      r ← callTool sdk name args; mret (CallToolResolved r)
  | CallDisconnect => disconnect sdk;; mret DisconnectResolved
  end.

End WithSdk.

Definition is_pending (sl : slot) : bool :=
  match sl with
  | Pending _ => true
  | Ended _ => false
  end.

Definition is_closing (sl : slot) : bool :=
  match sl with
  | Pending AtClose => true
  | _ => false
  end.

(** A turn that keeps [disconnect] apart from the other calls:
    [disconnect] is called only when no call is suspended, and nothing is
    called while a [disconnect] is suspended. *)
Definition apart (t : turn) (m : machine) : bool :=
  match t with
  | Start CallDisconnect => negb (existsb is_pending (slots m))
  | Start _ => negb (existsb is_closing (slots m))
  | Resume _ => true
  end.

(** All turns of a run keep [disconnect] apart. *)
Fixpoint disconnect_apart (sdk : Sdk Args) (ts : list turn) (m : machine)
  : bool :=
  match ts with
  | [] => true
  | t :: ts => apart t m && disconnect_apart sdk ts (step sdk t m)
  end.

(** The calls that go on with the client they found or built: a
    [connect] that is suspended, and a [callTool] whose [connect] is
    suspended or has succeeded. *)
Definition needs_client (t : task) : bool :=
  match t with
  | AtConnect | AtCallToolConnect _ _ None
  | AtCallToolConnect _ _ (Some true) => true
  | _ => false
  end.

(** What a run that keeps [disconnect] apart keeps of the machine: a
    connected instance has its client, the calls that need the client
    have it, and a suspended [disconnect] is the only suspended call. *)
Record settled_machine (m : machine) : Prop := mkSettled {
  sm_initialized : initialized (inst m);
  sm_needs : ∀ i t, slots m !! i = Some (Pending t) →
                    needs_client t = true → is_Some (client (inst m));
  sm_alone : ∀ i j t, slots m !! i = Some (Pending AtClose) →
                      slots m !! j = Some (Pending t) → j = i;
}.

(** What the pieces keep of the handles: the handles in use are ones
    that were handed out, and no closed client was used again. *)
Record handles_kept (s : state Args) : Prop := mkHandlesKept {
  hk_used : ∀ ev c, ev ∈ trace s → uses c ev = true → c < next_ref s;
  hk_client : ∀ c, client s = Some c → c < next_ref s;
  hk_trace : no_use_after_close (trace s);
}.

(** The present client has not been closed. *)
Definition client_open (s : state Args) : Prop :=
  ∀ c, client s = Some c → ClientClose c ∉ trace s.

(** The present client is open unless a [disconnect] is suspended. *)
Record handles_machine (m : machine) : Prop := mkHandlesMachine {
  hm_kept : handles_kept (inst m);
  hm_open : existsb is_closing (slots m) = false → client_open (inst m);
}.

End WithArgs.

Arguments task : clear implicits.
Arguments slot : clear implicits.
Arguments call : clear implicits.
Arguments turn : clear implicits.
Arguments machine : clear implicits.

(** *** Sample runs *)


(** A tool is called while [disconnect] awaits the SDK's [close]. *)
Definition callTool_during_disconnect : list (turn sample_args) :=
  [Start CallConnect; Resume 0; Start CallDisconnect;
   Start (CallCallTool "get_tvl" []); Resume 1; Resume 2].

(** Two tool calls overlap; [disconnect] is called when both have ended,
    and the next tool call when [disconnect] has. *)
Definition overlapping_tool_calls : list (turn sample_args) :=
  [Start (CallCallTool "get_tvl" [("protocol", "aave")]);
   Start (CallCallTool "get_chains" []);
   Resume 0; Resume 1; Resume 1; Resume 0; Resume 0; Resume 1;
   Start CallDisconnect; Resume 2;
   Start (CallCallTool "get_tvl" [("protocol", "uniswap")]);
   Resume 3; Resume 3; Resume 3].

(** The events of a run that build, connect, close or call a tool. *)
Definition sdk_calls (m : machine sample_args) : list (event sample_args) :=
  filter (λ ev, is_connection_event ev = true ∨ is_tool_call ev = true)
    (trace (inst m)).

End MCPAsync.


(** ** More of the step loop: the order of its calls *)

Module ExecutorOrder.

Import Executor.

(** The place of a call in the body of the loop: the cancellation check,
    then the Planner, then the Navigator. *)
Definition call_rank (c : call) : nat :=
  match c with
  | CallShouldStop _ => 0
  | CallRunPlanner _ => 1
  | CallNavigate _ => 2
  end.

(** [a] belongs to an earlier pass than [b], or to an earlier statement
    of the same pass. *)
Definition call_before (a b : call) : Prop :=
  call_step a < call_step b ∨
  (call_step a = call_step b ∧ call_rank a < call_rank b).

(** The record of the calls between two passes: in order, and ending
    with the Navigator run of the pass before. *)
Record tidy (s : loop_state) : Prop := mkTidy {
  tidy_sorted : StronglySorted call_before (calls s);
  tidy_last : match step s with
              | 0 => calls s = []
              | S j => last (calls s) = Some (CallNavigate j)
              end;
}.

End ExecutorOrder.

(** ** More agents: analyzeProtocol, the Validator and the agent template *)

Module MoreAgents.

Import Agent.

(** *** [DeFiAgent.analyzeProtocol] (EXAMPLE_DEFI_AGENT.md)

    [navigate] is the answer of
    [this.context.browserContext.getCurrentPage().navigate(url)]; the
    three seconds of [setTimeout] pass without an effect on the context. *)
Definition analyzeProtocol (env : Env) (navigate : string → outcome unit)
    (protocolUrl : string) : Eff context (AgentOutput DeFiAnalysis) :=
  ask (navigate protocolUrl);;
  execute env.

(** *** [ValidatorAgent] (AGENT_ARCHITECTURE_GUIDE.md, agents/validator.ts) *)

Record ValidatorOutput : Type := mkValidatorOutput {
  valid : bool;
  issues : list string;
  suggestions : list string;
}.

Record ValidatorEnv : Type := mkValidatorEnv {
  validator_id : string;
  validator_getState : outcome BrowserState;
  validator_getSystemMessage : outcome BaseMessage;
  validator_invoke : list BaseMessage → outcome (option ValidatorOutput);
}.

(** [`${b}`] for a boolean *)
Definition bool_text (b : bool) : string := if b then "true" else "false".

(** [a.error || 'none'] *)
Definition error_or_none (e : option string) : string :=
  match e with
  | Some msg => if decide (msg = "") then "none" else msg
  | None => "none"
  end.

(** [`- Success: ${a.success}, Error: ${a.error || 'none'}`] *)
Definition action_line (a : ActionResult) : string :=
  "- Success: " +:+ bool_text (success a) +:+ ", Error: "
  +:+ error_or_none (result_error a).

Definition validationQuery (recentActions : list ActionResult) (url : string)
  : string :=
  LF +:+ "Recent actions:" +:+ LF +:+
  js_join LF (action_line <$> recentActions) +:+ LF +:+ LF +:+
  "Current URL: " +:+ url +:+ LF +:+ LF +:+
  "Validate if the recent actions achieved their intended goals." +:+ LF.

(** The body of the [try] of [ValidatorAgent.execute]; it returns
    [output], which is [None] when [invoke] resolves to [null]. *)
Definition validator_body (env : ValidatorEnv)
  : Eff context (option ValidatorOutput) :=
  recentActions ← gets (λ c, slice_last 3 (actionResults c));
  browserState ← ask (validator_getState env);
  let query := validationQuery recentActions (url browserState) in
  system ← ask (validator_getSystemMessage env);
  let messages := [system; HumanMessage query] in
  ask (validator_invoke env messages).

(** [async execute(): Promise<AgentOutput<ValidatorOutput>>] *)
Definition validator_execute (env : ValidatorEnv)
  : Eff context (AgentOutput ValidatorOutput) :=
  try_catch
    (output ← validator_body env;
     mret {| id := validator_id env; result := output; error := None |})
    (λ error,
       mret {| id := validator_id env; result := None;
               error := Some (error_message error) |}).

(** *** [YourAgent], the agent template (AGENT_ARCHITECTURE_GUIDE.md) *)

Record YourAgentOutput : Type := mkYourAgentOutput {
  analysis : string;
  recommendation : string;
  your_confidence : Qc;
}.

Record YourAgentEnv : Type := mkYourAgentEnv {
  your_id : string;
  your_getMessages : outcome (list BaseMessage);
  your_getSystemMessage : outcome BaseMessage;
  your_invoke : list BaseMessage → outcome (option YourAgentOutput);
}.

(** The body of the [try] of [YourAgent.execute]. *)
Definition your_body (env : YourAgentEnv) : Eff context YourAgentOutput :=
  emitEvent SYSTEM STEP_START "Analyzing...";;
  messages ← ask (your_getMessages env);
  system ← ask (your_getSystemMessage env);
  let inputMessages := system :: messages in
  modelOutput ← ask (your_invoke env inputMessages);
  match modelOutput with
  | None => throw (new_Error "Failed to get agent output")
  | Some out =>
      emitEvent SYSTEM STEP_OK
        ("Analysis complete: " +:+ recommendation out);;
      mret out
  end.

(** [async execute(): Promise<AgentOutput<YourAgentOutput>>] *)
Definition your_execute (env : YourAgentEnv)
  : Eff context (AgentOutput YourAgentOutput) :=
  try_catch
    (modelOutput ← your_body env;
     mret {| id := your_id env; result := Some modelOutput; error := None |})
    (λ error,
       mret {| id := your_id env; result := None;
               error := Some (error_message error) |}).

(** *** Samples *)

Definition failed_click : ActionResult :=
  {| isDone := false; success := false; extractedContent := None;
     result_error := Some "Element not found"; includeInMemory := true;
     interactedElement := None |}.

Definition context_with_failure : context :=
  {| actionResults := [failed_click]; published := [] |}.

(** A Validator whose model call is cancelled by the user. *)
Definition validator_cancelled : ValidatorEnv :=
  {| validator_id := "validator";
     validator_getState := Returns sample_state;
     validator_getSystemMessage := Returns (SystemMessage "You validate actions.");
     validator_invoke := λ _,
       Throws (ErrorObj (OtherError "AbortError") "The operation was aborted") |}.

(** A Validator whose model call resolves to [null]. *)
Definition validator_null : ValidatorEnv :=
  {| validator_id := "validator";
     validator_getState := Returns sample_state;
     validator_getSystemMessage := Returns (SystemMessage "You validate actions.");
     validator_invoke := λ _, Returns None |}.

(** A navigation that times out. *)
Definition navigate_timeout (url : string) : outcome unit :=
  Throws (ErrorObj Error ("Navigation timeout: " +:+ url)).

End MoreAgents.

(** ** The Executor with the DeFi agent (EXAMPLE_DEFI_AGENT.md, executor.ts) *)

Module DeFiExecutor.

Import Agent.

(** [s.includes(needle)]. Strings are sequences of UTF-8 bytes; a
    sequence of characters occurs in a text exactly when its bytes occur
    in the bytes of the text. *)
Fixpoint includes (s needle : string) : bool :=
  if String.prefix needle s then true
  else match s with
       | EmptyString => false
       | String _ rest => includes rest needle
       end.

(** The ASCII part of [toLowerCase]: [A-Z] to [a-z], every other ASCII
    character to itself. *)
Definition lower_ascii (a : Ascii.ascii) : Ascii.ascii :=
  let n := Ascii.nat_of_ascii a in
  if (65 <=? n) && (n <=? 90) then Ascii.ascii_of_nat (n + 32) else a.

Fixpoint ascii_lower (s : string) : string :=
  match s with
  | EmptyString => EmptyString
  | String a rest => String (lower_ascii a) (ascii_lower rest)
  end.

(** Whether a text is ASCII only. *)
Fixpoint is_ascii (s : string) : bool :=
  match s with
  | EmptyString => true
  | String a rest => (Ascii.nat_of_ascii a <? 128) && is_ascii rest
  end.

Definition defiKeywords : list string :=
  ["defi"; "swap"; "stake"; "yield"; "farm"; "pool"; "liquidity"; "apy";
   "apr"; "token"; "dex"; "uniswap"; "aave"; "compound"; "lend"; "borrow";
   "collateral"; "protocol"; "smart contract"; "ethereum"; "bsc"; "polygon";
   "arbitrum"; "optimism"].

(** [result.extractedContent?.includes('go_to_url') ||
    result.extractedContent?.includes('switch_tab')] *)
Definition mentions_navigation (result : ActionResult) : bool :=
  match extractedContent result with
  | Some text => includes text "go_to_url" || includes text "switch_tab"
  | None => false
  end.

(** [private shouldRunDeFiRecheck(context: AgentContext): boolean], on
    [context.actionResults] *)
Definition shouldRunDeFiRecheck (actionResults : list ActionResult) : bool :=
  let recentResults := slice_last 3 actionResults in
  existsb mentions_navigation recentResults.

Section WithBuiltins.

(** [String.prototype.toLowerCase], of which the theorems only assume
    what it does to ASCII text. *)
Variable toLowerCase : string → string.

(** [private async checkIfDeFiTask(task: string): Promise<boolean>] *)
Definition checkIfDeFiTask (task : string) : bool :=
  let lowerTask := toLowerCase task in
  existsb (λ keyword, includes lowerTask keyword) defiKeywords.

(** How the statements of [execute] before the step loop end: with the
    [return] that halts the task, or at the loop. *)
Inductive prologue_end : Type := Halted | EntersLoop.

(** [this.tasks[this.tasks.length - 1]] is [undefined] for an empty
    array, and [task.toLowerCase()] then throws this [TypeError] (the
    message is the one of V8, the engine of the extension). *)
Definition no_task : thrown :=
  ErrorObj TypeError "Cannot read properties of undefined (reading 'toLowerCase')".

(** The statements of the [try] of [execute] before the step loop, for
    the agent [this.defi] ([None] is [null]). [checkIfDeFiTask] is called
    whether there is an agent or not. What is thrown leaves this part as
    it is; the [catch] of [execute] is not among the sources. *)
Definition execute_prologue (defi : option Env) (taskId : string)
    (tasks : list string) : Eff context prologue_end :=
  emitEvent SYSTEM TASK_START taskId;;
  isDeFiTask ← match last tasks with
               | Some task => mret (checkIfDeFiTask task)
               | None => throw no_task
               end;
  match (isDeFiTask : bool), defi with
  | true, Some agent =>
      defiAnalysis ← execute agent;
      match result defiAnalysis with
      | Some analysis =>
          match risk_level analysis, recommended_action analysis with
          | Critical, DoNotProceed =>
              emitEvent SYSTEM TASK_FAIL
                "Critical risk detected in DeFi protocol. Task halted for safety.";;
              mret Halted
          | _, _ => mret EntersLoop
          end
      | None => mret EntersLoop
      end
  | _, _ => mret EntersLoop
  end.

End WithBuiltins.

(** *** Samples *)

Definition critical_analysis : DeFiAnalysis :=
  {| protocol_name := "Unknown Protocol"; protocol_type := Yield;
     risk_level := Critical;
     risk_factors := ["No audit found"; "Anonymous team"];
     apr_apy := Some "5000%"; tvl := None; audit_status := Unaudited;
     audit_firms := []; recommended_action := DoNotProceed;
     confidence := 1%Qc; explanation := "Multiple critical red flags detected";
     additional_checks := [] |}.

Definition env_critical : Env := env_with (Returns (Some critical_analysis)).

Definition navigation_result : ActionResult :=
  {| isDone := false; success := true;
     extractedContent := Some "go_to_url: navigated to https://app.aave.com";
     result_error := None; includeInMemory := true;
     interactedElement := None |}.

Definition click_result : ActionResult :=
  {| isDone := false; success := true;
     extractedContent := Some "Clicked button with index 3";
     result_error := None; includeInMemory := true;
     interactedElement := Some 3 |}.

Definition context_after_navigation : context :=
  {| actionResults := [navigation_result; click_result; click_result];
     published := [] |}.

End DeFiExecutor.

(** ** The DeFi actions of the ActionBuilder (EXAMPLE_DEFI_AGENT.md,
       actions/builder.ts) *)

Module DeFiActions.

Import Agent DeFiExecutor.

(** The object given to [new ActionResult({...})], with [None] for a
    field that is left out; the class itself is not among the sources. *)
Record ActionResultInit : Type := mkInit {
  init_success : bool;
  init_extractedContent : option string;
  init_error : option string;
  init_includeInMemory : option bool;
}.

(** [this.context.browserContext] and its current page, as the two
    handlers use them. [getCurrentPage] answers with the page, of which
    there is one; the argument of [getState] is [useVision]. *)
Record Browser : Type := mkBrowser {
  getCurrentPage : outcome unit;
  navigate : string → outcome unit;
  waitForPageLoad : outcome unit;
  getState : bool → outcome BrowserState;
}.

(** The shared context together with the addresses [page.navigate] was
    called with, in order. *)
Record world : Type := mkWorld {
  ctx : context;
  visited : list string;
}.

(** A computation on the context, run on the context of the world. *)
Definition in_context {A} (m : Eff context A) : Eff world A :=
  λ w, match m (ctx w) with
       | (c, r) => ({| ctx := c; visited := visited w |}, r)
       end.

(** [await page.navigate(url)]: the call is made, then it answers. *)
Definition page_navigate (b : Browser) (url : string) : Eff world unit :=
  modify (λ w, {| ctx := ctx w; visited := visited w ++ [url] |});;
  ask (navigate b url).

(** The arguments of [check_contract_audit]. *)
Record AuditArgs : Type := mkAuditArgs {
  contract_address : string;
  chain : string;
}.

Definition auditSites (contract_address : string) : list string :=
  ["https://etherscan.io/address/" +:+ contract_address;
   "https://de.fi/scanner/contract/" +:+ contract_address].

(** [new ActionResult({ success: false, error: error instanceof Error ?
    error.message : String(error) })], the [catch] of both handlers. *)
Definition failed (error : thrown) : ActionResultInit :=
  {| init_success := false; init_extractedContent := None;
     init_error := Some (error_message error);
     init_includeInMemory := None |}.

Section WithBuiltins.

(** [String.prototype.substring], which counts UTF-16 code units:
    [substring start end text] is [text.substring(start, end)]. *)
Variable substring : nat → nat → string → string.

(** The [try] of the handler of [buildCheckContractAuditAction]. *)
Definition checkContractAudit_body (b : Browser) (args : AuditArgs)
  : Eff world ActionResultInit :=
  let contract_address := contract_address args in
  let auditSites := auditSites contract_address in
  in_context
    (emitEvent NAVIGATOR STEP_START
       ("Checking audit status for contract "
        +:+ substring 0 10 contract_address +:+ "..."));;
  ask (getCurrentPage b);;
  match auditSites !! 0 with
  | Some site => page_navigate b site
  | None => mret tt
  end;;
  ask (waitForPageLoad b);;
  state ← ask (getState b false);
  pageText ← ask (visibleText state);
  in_context (emitEvent NAVIGATOR STEP_OK "Contract information retrieved");;
  mret {| init_success := true;
          init_extractedContent :=
            Some ("Contract audit check: " +:+ substring 0 1000 pageText);
          init_error := None;
          init_includeInMemory := Some true |}.

(** The handler of [buildCheckContractAuditAction]. *)
Definition checkContractAudit (b : Browser) (args : AuditArgs)
  : Eff world ActionResultInit :=
  try_catch (checkContractAudit_body b args) (λ error, mret (failed error)).

Definition tokenomicsKeywords : list string :=
  ["total supply"; "circulating supply"; "market cap"; "token distribution";
   "vesting"; "unlock schedule"; "tokenomics"; "token allocation"].

(** [pageText.split('\n')]: the pieces between the line feeds, of which
    there is always one. *)
Fixpoint split_LF (s : string) : list string :=
  match s with
  | EmptyString => [EmptyString]
  | String a rest =>
      if Ascii.eqb a (Ascii.ascii_of_nat 10) then EmptyString :: split_LF rest
      else match split_LF rest with
           | line :: lines => String a line :: lines
           | [] => [String a EmptyString]
           end
  end.

(** Whether a text holds no line feed. *)
Fixpoint no_LF (s : string) : bool :=
  match s with
  | EmptyString => true
  | String a rest => negb (Ascii.eqb a (Ascii.ascii_of_nat 10)) && no_LF rest
  end.

(** [String.prototype.toLowerCase] and [String.prototype.trim]. *)
Variables toLowerCase trim : string → string.

(** [tokenomicsKeywords.some(keyword =>
    line.toLowerCase().includes(keyword))] *)
Definition mentions_tokenomics (line : string) : bool :=
  existsb (λ keyword, includes (toLowerCase line) keyword) tokenomicsKeywords.

(** The array [relevantInfo] after the [for] loop over the lines. *)
Definition relevantInfo (pageText : string) : list string :=
  let lines := split_LF pageText in
  foldl (λ relevantInfo line,
           if mentions_tokenomics line then relevantInfo ++ [trim line]
           else relevantInfo)
        [] lines.

(** The handler of [buildExtractTokenomicsAction]. *)
Definition extractTokenomics (b : Browser) : Eff world ActionResultInit :=
  try_catch
    (state ← ask (getState b true);
     pageText ← ask (visibleText state);
     mret {| init_success := true;
             init_extractedContent :=
               Some ("Tokenomics: " +:+ js_join " | " (relevantInfo pageText));
             init_error := None;
             init_includeInMemory := Some true |})
    (λ error, mret (failed error)).

End WithBuiltins.

(** *** Samples *)

Definition etherscan_page : BrowserState :=
  {| url := "https://etherscan.io/address/0xabc"; title := "Contract 0xabc";
     visibleText := Returns "Contract Source Code Verified" |}.

Definition browser_up : Browser :=
  {| getCurrentPage := Returns tt;
     navigate := λ _, Returns tt;
     waitForPageLoad := Returns tt;
     getState := λ _, Returns etherscan_page |}.

(** The page does not finish loading. *)
Definition browser_timeout : Browser :=
  {| getCurrentPage := Returns tt;
     navigate := λ _, Returns tt;
     waitForPageLoad := Throws (new_Error "Navigation timeout");
     getState := λ _, Returns etherscan_page |}.

Definition tokenomics_text : string :=
  "Welcome" +:+ LF +:+ "  Total Supply: 1,000,000  " +:+ LF +:+ "Team"
  +:+ LF +:+ "VESTING over 4 years".

Definition token_page : Browser :=
  {| getCurrentPage := Returns tt;
     navigate := λ _, Returns tt;
     waitForPageLoad := Returns tt;
     getState := λ _, Returns {| url := "https://example.org/token";
                                 title := "Token";
                                 visibleText := Returns tokenomics_text |} |}.

Definition audit_args : AuditArgs :=
  {| contract_address := "0xabc"; chain := "ethereum" |}.

Definition empty_world : world := {| ctx := empty_context; visited := [] |}.

End DeFiActions.

(** * Properties of the MCP client *)

Module MCPFacts.

Import MCP.

Section Facts.

Context {Args : Type}.
Implicit Types (sdk : Sdk Args) (s : state Args) (p : program Args).

Ltac eff_unfold :=
  cbv [connect connect_body callTool callTool_try callTool_body
       callTool_handler disconnect isConnected extract_content
       new_SSEClientTransport new_Client client_connect client_callTool
       client_close log_info log_error log_debug answer
       mbind mret eff_bind eff_ret gets modify try_catch throw].

Ltac eff_cases := repeat case_match; simplify_eq/=.

(** [connect] on a connected client is the identity. *)
Lemma connect_connected sdk s :
  connected s = true → connect sdk s = (s, Returns true).
Proof. intros Hc. eff_unfold. by rewrite Hc. Qed.

(** [connect] never throws; on a client that is not connected it returns
    what its body returns, or [false] when the body throws. *)
Lemma connect_not_connected sdk s :
  connected s = false →
  (∃ s', connect_body sdk s = (s', Returns true) ∧
         connect sdk s = (s', Returns true) ∧
         connected s' = true ∧ is_Some (client s')) ∨
  (∃ s0 e s', connect_body sdk s = (s0, Throws e) ∧
              connect sdk s = (s', Returns false) ∧
              connected s' = false).
Proof.
  intros Hc. eff_unfold. rewrite Hc.
  eff_cases; eauto 10.
Qed.

Lemma connect_total sdk s :
  ∃ s' b, connect sdk s = (s', Returns b) ∧ connected s' = b.
Proof.
  destruct (connected s) eqn:Hc.
  - exists s, true. by rewrite connect_connected.
  - destruct (connect_not_connected sdk s Hc)
      as [(s' & _ & -> & ? & _)|(s0 & e & s' & _ & -> & ?)]; eauto.
Qed.

(** [connect] only adds events, none of them a tool call. *)
Lemma connect_trace sdk s :
  ∃ evs, trace (connect sdk s).1 = trace s ++ evs ∧
         Forall (λ ev, is_tool_call ev = false) evs.
Proof.
  eff_unfold.
  destruct (connected s) eqn:Hc; cbn.
  { exists []. by rewrite app_nil_r. }
  eff_cases; rewrite <- ?(assoc_L (++)); eexists; split; try reflexivity;
    repeat constructor.
Qed.

(** The [try ... catch] of [callTool] returns what its body returns and
    turns what its body throws into a result. *)
Lemma callTool_try_cases sdk name args s :
  (∃ s' v, callTool_body sdk name args s = (s', Returns v) ∧
           callTool_try sdk name args s = (s', Returns v) ∧
           error v = None) ∨
  (∃ s0 e s', callTool_body sdk name args s = (s0, Throws e) ∧
              callTool_try sdk name args s
              = (s', Returns {| content := ""; error := Some (error_message e) |})).
Proof.
  eff_unfold. eff_cases; eauto 10.
Qed.

(** [callTool] is [unavailable] or its [try ... catch]. *)
Lemma callTool_cases sdk name args s :
  (∃ s0 e s', connected s = false ∧
              connect_body sdk s = (s0, Throws e) ∧
              connect sdk s = (s', Returns false) ∧
              callTool sdk name args s = (s', Returns unavailable)) ∨
  (∃ s1, enters_try sdk s s1 ∧
         callTool sdk name args s = callTool_try sdk name args s1).
Proof.
  destruct (connected s) eqn:Hc.
  - right. exists s. split; [by left|].
    unfold callTool. cbv [mbind eff_bind gets]. by rewrite Hc.
  - destruct (connect_not_connected sdk s Hc)
      as [(s' & Hb & Hk & _)|(s0 & e & s' & Hb & Hk & _)].
    + right. exists s'. split; [by right|].
      unfold callTool. cbv [mbind eff_bind gets]. rewrite Hc. cbn [negb].
      by rewrite Hk.
    + left. exists s0, e, s'. repeat split; try done.
      unfold callTool. cbv [mbind eff_bind gets]. rewrite Hc. cbn [negb].
      by rewrite Hk.
Qed.

Lemma enters_try_functional sdk s s1 s2 :
  enters_try sdk s s1 → enters_try sdk s s2 → s1 = s2.
Proof. intros [[? ->]|[? ?]] [[? ->]|[? ?]]; congruence. Qed.

(** A failing connection attempt makes [connect] return [false]. *)
Lemma connect_failure sdk s s0 e :
  connected s = false →
  connect_body sdk s = (s0, Throws e) →
  ∃ s', connect sdk s = (s', Returns false) ∧ connected s' = false.
Proof.
  intros Hc Hb.
  destruct (connect_not_connected sdk s Hc)
    as [(s' & Hb' & _)|(s1 & e1 & s' & _ & Hk & ?)]; [congruence|eauto].
Qed.

Lemma enters_try_not_failed sdk s s1 s0 e :
  enters_try sdk s s1 →
  connected s = false →
  connect_body sdk s = (s0, Throws e) →
  False.
Proof.
  intros [[? _]|[_ Hk]] Hc Hb; [congruence|].
  destruct (connect_failure sdk s s0 e Hc Hb) as (s' & Hk' & _). congruence.
Qed.

(** The singleton variable, once set, is never written again. *)
Lemma run_op_keeps_instance sdk o p l :
  mcpClientInstance p = Some l →
  mcpClientInstance (run_op sdk o p).1 = Some l.
Proof.
  intros Hl.
  destruct o; cbv [run_op getMCPClient construct invoke
                   mbind mret eff_bind eff_ret gets modify];
    rewrite ?Hl; eff_cases; done.
Qed.

Lemma run_ops_keeps_instance sdk ops p l :
  mcpClientInstance p = Some l →
  mcpClientInstance (run_ops sdk ops p) = Some l.
Proof.
  revert p. induction ops as [|o ops IH]; intros p Hl; [done|].
  cbn. apply IH. by apply run_op_keeps_instance.
Qed.

Lemma getMCPClient_set p l :
  mcpClientInstance p = Some l → getMCPClient p = (p, Returns l).
Proof.
  intros Hl. cbv [getMCPClient mbind mret eff_bind eff_ret gets].
  by rewrite Hl.
Qed.

Lemma getMCPClient_unset p :
  mcpClientInstance p = None →
  let l := fresh (dom (heap p)) in
  getMCPClient p
  = ({| heap := <[l := mkFields None None false]> (heap p);
        mcpClientInstance := Some l;
        events := events p; fresh_ref := fresh_ref p |}, Returns l).
Proof.
  intros Hl. cbv [getMCPClient construct set_instance
                  mbind mret eff_bind eff_ret gets modify].
  by rewrite Hl.
Qed.

(** C1. For every tool name and argument record, [callTool] resolves to an
    [MCPToolResult] and never throws: a failing connection attempt gives
    the result with the error 'MCP server not available', a client that is
    not initialised the error 'MCP client not initialized', and anything
    else thrown inside the [try] (by the SDK's tool call or while the
    content is extracted) a result with empty content whose error is the
    message of what was thrown. *)
Theorem callTool_never_raises sdk name args s :
  ∃ s' r,
    callTool sdk name args s = (s', Returns r) ∧
    (∀ s0 e, connected s = false → connect_body sdk s = (s0, Throws e) →
       r = {| content := ""; error := Some "MCP server not available" |}) ∧
    (∀ s1, enters_try sdk s s1 → client s1 = None →
       r = {| content := ""; error := Some "MCP client not initialized" |}) ∧
    (∀ s1 s2 e, enters_try sdk s s1 →
       callTool_body sdk name args s1 = (s2, Throws e) →
       r = {| content := ""; error := Some (error_message e) |}).
Proof.
  destruct (callTool_cases sdk name args s)
    as [(s0 & e & s' & Hc & Hb & Hk & Hr)|(s1 & Ht & Hr)].
  - exists s', unavailable. split; [done|]. split; [done|].
    split; intros; exfalso; eauto using enters_try_not_failed.
  - destruct (callTool_try_cases sdk name args s1)
      as [(s' & v & Hb & Hy & _)|(s0 & e & s' & Hb & Hy)].
    + exists s', v. split; [congruence|].
      split; [intros; exfalso; eauto using enters_try_not_failed|].
      split.
      * intros s2 Ht2 Hcl.
        rewrite (enters_try_functional _ _ _ _ Ht2 Ht) in Hcl.
        revert Hb. eff_unfold. rewrite Hcl. done.
      * intros s2 s3 e Ht2 Hb2.
        rewrite (enters_try_functional _ _ _ _ Ht2 Ht) in Hb2. congruence.
    + exists s', {| content := ""; error := Some (error_message e) |}.
      split; [congruence|].
      split; [intros; exfalso; eauto using enters_try_not_failed|].
      split.
      * intros s2 Ht2 Hcl.
        rewrite (enters_try_functional _ _ _ _ Ht2 Ht) in Hcl.
        revert Hb. eff_unfold. rewrite Hcl. by intros [= <- <-].
      * intros s2 s3 e2 Ht2 Hb2.
        rewrite (enters_try_functional _ _ _ _ Ht2 Ht) in Hb2. congruence.
Qed.

(** C7. If the client is not connected and the connection attempt fails,
    [connect] returns [false] with the [connected] flag left [false]
    instead of throwing, and [callTool] returns the result
    [{content: '', error: 'MCP server not available'}] in the state
    [connect] left, without any call of the SDK's [callTool]. *)
Theorem callTool_unavailable sdk name args s s0 e :
  connected s = false →
  connect_body sdk s = (s0, Throws e) →
  ∃ s', connect sdk s = (s', Returns false) ∧
        connected s' = false ∧
        callTool sdk name args s
        = (s', Returns {| content := ""; error := Some "MCP server not available" |}) ∧
        ∃ evs, trace s' = trace s ++ evs ∧
               Forall (λ ev, is_tool_call ev = false) evs.
Proof.
  intros Hc Hb.
  destruct (connect_failure sdk s s0 e Hc Hb) as (s' & Hk & Hc').
  exists s'. split; [done|]. split; [done|]. split.
  - unfold callTool. cbv [mbind eff_bind gets]. rewrite Hc. cbn [negb].
    by rewrite Hk.
  - pose proof (connect_trace sdk s) as Ht. by rewrite Hk in Ht.
Qed.

(** C8. [getMCPClient] is a memoised singleton accessor: the first call
    (the variable is [null]) constructs one fresh instance, and after any
    call, whatever the rest of the extension does with the module in
    between, another call returns the same reference and changes
    nothing. *)
Theorem getMCPClient_singleton sdk p ops :
  ∃ l,
    (getMCPClient p).2 = Returns l ∧
    getMCPClient (run_ops sdk ops (getMCPClient p).1)
    = (run_ops sdk ops (getMCPClient p).1, Returns l) ∧
    (mcpClientInstance p = None →
       (l ∉ dom (heap p)) ∧
       heap (getMCPClient p).1 = <[l := mkFields None None false]> (heap p)) ∧
    (∀ l0, mcpClientInstance p = Some l0 →
       l = l0 ∧ (getMCPClient p).1 = p).
Proof.
  destruct (mcpClientInstance p) as [l0|] eqn:Hl.
  - exists l0. rewrite (getMCPClient_set p l0 Hl). cbn.
    split; [done|]. split.
    + apply getMCPClient_set. by apply run_ops_keeps_instance.
    + split; [done|]. by intros ? [= <-].
  - exists (fresh (dom (heap p))). rewrite (getMCPClient_unset p Hl). cbn.
    split; [done|]. split.
    + apply getMCPClient_set. by apply run_ops_keeps_instance.
    + split; [|done]. intros _. split; [apply is_fresh|done].
Qed.

(** C10. A result of [callTool] whose [error] is set has the empty
    [content], and a result with content has no [error]; the content
    extracted by the body of the [try] is returned without an [error]. *)
Theorem callTool_content_or_error sdk name args s :
  ∃ s' r,
    callTool sdk name args s = (s', Returns r) ∧
    (is_Some (error r) → content r = "") ∧
    (content r ≠ "" → error r = None) ∧
    (∀ s1 s2 v, enters_try sdk s s1 →
       callTool_body sdk name args s1 = (s2, Returns v) →
       r = v ∧ error r = None).
Proof.
  destruct (callTool_cases sdk name args s)
    as [(s0 & e & s' & Hc & Hb & Hk & Hr)|(s1 & Ht & Hr)].
  - exists s', unavailable. split; [done|]. split; [done|]. split; [done|].
    intros; exfalso; eauto using enters_try_not_failed.
  - destruct (callTool_try_cases sdk name args s1)
      as [(s' & v & Hb & Hy & He)|(s0 & e & s' & Hb & Hy)].
    + exists s', v. split; [congruence|]. rewrite He.
      split; [by intros [? [=]]|]. split; [done|].
      intros s2 s3 v' Ht2 Hb2.
      rewrite (enters_try_functional _ _ _ _ Ht2 Ht) in Hb2.
      split; congruence.
    + exists s', {| content := ""; error := Some (error_message e) |}.
      split; [congruence|]. cbn. split; [done|]. split; [done|].
      intros s2 s3 v' Ht2 Hb2.
      rewrite (enters_try_functional _ _ _ _ Ht2 Ht) in Hb2. congruence.
Qed.

End Facts.

(** The sample servers, run. *)

Example callTool_sdk_up :
  (callTool sdk_up "get_tvl" [("protocol", "aave")] fresh_client).2
  = Returns {| content := "TVL: 1" +:+ LF +:+ LF +:+ "ok"; error := None |}.
Proof. vm_compute. reflexivity. Qed.

Example callTool_sdk_down :
  (callTool sdk_down "get_tvl" [("protocol", "aave")] fresh_client).2
  = Returns {| content := ""; error := Some "MCP server not available" |}.
Proof. vm_compute. reflexivity. Qed.

Example callTool_sdk_rejecting :
  (callTool sdk_rejecting "get_tvl" [("protocol", "aave")] fresh_client).2
  = Returns {| content := ""; error := Some "Unknown tool: get_tvl" |}.
Proof. vm_compute. reflexivity. Qed.

Example callTool_sdk_malformed :
  (callTool sdk_malformed "get_tvl" [] fresh_client).2
  = Returns {| content := "";
               error := Some "Cannot read properties of undefined (reading 'map')" |}.
Proof. vm_compute. reflexivity. Qed.

(** A state no instance reaches: connected without a client. *)
Example callTool_not_initialized :
  (callTool sdk_up "get_tvl" []
     {| client := None; transport := None; connected := true;
        trace := []; next_ref := 0 |}).2
  = Returns {| content := ""; error := Some "MCP client not initialized" |}.
Proof. vm_compute. reflexivity. Qed.

Lemma callTool_unavailable_witness :
  connected fresh_client = false ∧
  connect_body sdk_down fresh_client
  = ((connect_body sdk_down fresh_client).1,
     Throws (ErrorObj Error "SSE error: connection refused")) ∧
  ∃ s', connect sdk_down fresh_client = (s', Returns false) ∧
        connected s' = false ∧
        callTool sdk_down "get_tvl" [("protocol", "aave")] fresh_client
        = (s', Returns {| content := ""; error := Some "MCP server not available" |}) ∧
        ∃ evs, trace s' = trace fresh_client ++ evs ∧
               Forall (λ ev, is_tool_call ev = false) evs.
Proof.
  split; [reflexivity|]. split; [vm_compute; reflexivity|].
  apply (callTool_unavailable sdk_down "get_tvl" [("protocol", "aave")]
           fresh_client (connect_body sdk_down fresh_client).1
           (ErrorObj Error "SSE error: connection refused")).
  - reflexivity.
  - vm_compute; reflexivity.
Defined.

End MCPFacts.

(** * Properties of the specialist agent *)

Module AgentFacts.

Import Agent.

Section Facts.

Variable env : Env.

Ltac agent_unfold :=
  cbv [execute try_catch mbind mret eff_bind eff_ret].

(** [execute] returns the output with the result of its body, or hands
    what its body throws to the [catch]. *)
Lemma execute_cases s :
  (∃ s' out, execute_body env s = (s', Returns out) ∧
             execute env s
             = (s', Returns (assign_result (initial_output env) out))) ∨
  (∃ s0 e, execute_body env s = (s0, Throws e) ∧
           execute env s = execute_handler env (initial_output env) e s0).
Proof.
  agent_unfold.
  destruct (execute_body env s) as [s' [out|e]]; eauto 10.
Qed.

(** The [catch] throws one of the four fatal errors or returns the
    output with the message of the error. *)
Lemma execute_handler_cases e s :
  match classify env e with
  | Cancellation =>
      execute_handler env (initial_output env) e s
      = (s, Throws (ErrorObj RequestCancelledError "DeFi analysis was cancelled"))
  | Authentication =>
      execute_handler env (initial_output env) e s
      = (s, Throws (ErrorObj ChatModelAuthError
                      "Authentication failed for DeFi analysis"))
  | BadRequest =>
      execute_handler env (initial_output env) e s
      = (s, Throws (ErrorObj ChatModelBadRequestError
                      "Invalid request for DeFi analysis"))
  | Forbidden =>
      execute_handler env (initial_output env) e s
      = (s, Throws (ErrorObj ChatModelForbiddenError
                      "Access forbidden for DeFi analysis"))
  | OtherFailure =>
      ∃ s', execute_handler env (initial_output env) e s
            = (s', Returns {| id := this_id env; result := None;
                              error := Some (error_message e) |})
  end.
Proof.
  unfold classify, execute_handler.
  destruct (isAbortedError env e); [done|].
  destruct (isAuthenticationError env e); [done|].
  destruct (isBadRequestError env e); [done|].
  destruct (isForbiddenError env e); [done|].
  eexists. reflexivity.
Qed.

(** When at most one of the four tests of ./errors holds of an error, the
    order of the tests does not matter. *)
Lemma classify_exclusive e :
  (isAbortedError env e = true → isAuthenticationError env e = false ∧
     isBadRequestError env e = false ∧ isForbiddenError env e = false) →
  (isAuthenticationError env e = true → isBadRequestError env e = false ∧
     isForbiddenError env e = false) →
  (isBadRequestError env e = true → isForbiddenError env e = false) →
  (isAbortedError env e = true ↔ classify env e = Cancellation) ∧
  (isAuthenticationError env e = true ↔ classify env e = Authentication) ∧
  (isBadRequestError env e = true ↔ classify env e = BadRequest) ∧
  (isForbiddenError env e = true ↔ classify env e = Forbidden).
Proof.
  unfold classify.
  destruct (isAbortedError env e), (isAuthenticationError env e),
    (isBadRequestError env e), (isForbiddenError env e); naive_solver.
Qed.

(** C2 (amended). Every [AgentOutput] that [DeFiAgent.execute] returns
    has exactly one of [result] and [error] set: the result when the body
    of the [try] returned the model output, the error otherwise. *)
Theorem execute_output_exclusive s s' out :
  execute env s = (s', Returns out) →
  exactly_one out = true ∧
  (is_Some (result out) ↔ ∃ s1 v, execute_body env s = (s1, Returns v)) ∧
  (is_Some (error out) ↔ ∃ s0 e, execute_body env s = (s0, Throws e)).
Proof.
  intros Hx.
  destruct (execute_cases s) as [(s1 & v & Hb & Hy)|(s0 & e & Hb & Hy)].
  - rewrite Hy in Hx. injection Hx as <- <-. rewrite Hb. cbn.
    split; [done|]. split; [naive_solver|].
    split; [by intros [? [=]]|by intros (? & ? & [=])].
  - rewrite Hy in Hx. rewrite Hb.
    pose proof (execute_handler_cases e s0) as Hh.
    destruct (classify env e); try (rewrite Hh in Hx; done).
    destruct Hh as [s2 Hh]. rewrite Hh in Hx. injection Hx as <- <-. cbn.
    split; [done|]. split; [|naive_solver].
    split; [by intros [? [=]]|by intros (? & ? & [=])].
Qed.

(** C6. For every error [e] raised inside [execute]: cancellation,
    authentication, bad-request and forbidden failures are rethrown to
    the Executor as [RequestCancelledError], [ChatModelAuthError],
    [ChatModelBadRequestError] and [ChatModelForbiddenError]; these four
    kinds are distinct; the Executor ends the task [Cancelled] on the
    first and [Failed] with the kind on the others; every other error is
    returned as the [error] of the AgentOutput. *)
Theorem execute_error_mapping s s0 e :
  execute_body env s = (s0, Throws e) →
  match classify env e with
  | Cancellation =>
      execute env s
      = (s0, Throws (ErrorObj RequestCancelledError "DeFi analysis was cancelled")) ∧
      Executor.terminal_of
        (Throws (ErrorObj RequestCancelledError "DeFi analysis was cancelled"))
      = Executor.Cancelled
  | Authentication =>
      execute env s
      = (s0, Throws (ErrorObj ChatModelAuthError
                       "Authentication failed for DeFi analysis")) ∧
      Executor.terminal_of
        (Throws (ErrorObj ChatModelAuthError
                   "Authentication failed for DeFi analysis"))
      = Executor.Failed (Executor.AgentError ChatModelAuthError)
  | BadRequest =>
      execute env s
      = (s0, Throws (ErrorObj ChatModelBadRequestError
                       "Invalid request for DeFi analysis")) ∧
      Executor.terminal_of
        (Throws (ErrorObj ChatModelBadRequestError
                   "Invalid request for DeFi analysis"))
      = Executor.Failed (Executor.AgentError ChatModelBadRequestError)
  | Forbidden =>
      execute env s
      = (s0, Throws (ErrorObj ChatModelForbiddenError
                       "Access forbidden for DeFi analysis")) ∧
      Executor.terminal_of
        (Throws (ErrorObj ChatModelForbiddenError
                   "Access forbidden for DeFi analysis"))
      = Executor.Failed (Executor.AgentError ChatModelForbiddenError)
  | OtherFailure =>
      ∃ s', execute env s
            = (s', Returns {| id := this_id env; result := None;
                              error := Some (error_message e) |})
  end ∧
  NoDup [RequestCancelledError; ChatModelAuthError;
         ChatModelBadRequestError; ChatModelForbiddenError].
Proof.
  intros Hb. split.
  - destruct (execute_cases s) as [(s1 & v & Hb' & _)|(s1 & e' & Hb' & ->)];
      [congruence|].
    rewrite Hb in Hb'. injection Hb' as <- <-.
    pose proof (execute_handler_cases e s0) as Hh.
    destruct (classify env e); try done.
  - repeat constructor; rewrite ?elem_of_cons, ?elem_of_nil; naive_solver.
Qed.

End Facts.

(** The sample environments, run. *)

Example execute_answering :
  (execute env_answering empty_context).2
  = Returns {| id := "defi"; result := Some sample_analysis; error := None |}.
Proof. vm_compute. reflexivity. Qed.

Example execute_invalid_output :
  (execute env_invalid_output empty_context).2
  = Returns {| id := "defi"; result := None;
               error := Some "Failed to validate DeFi analysis output" |}.
Proof. vm_compute. reflexivity. Qed.

Example execute_timeout :
  (execute env_timeout empty_context).2
  = Returns {| id := "defi"; result := None;
               error := Some "Request timed out" |}.
Proof. vm_compute. reflexivity. Qed.

Example execute_aborted :
  (execute env_aborted empty_context).2
  = Throws (ErrorObj RequestCancelledError "DeFi analysis was cancelled").
Proof. vm_compute. reflexivity. Qed.

(** C2, the counterexample. The value that [execute] constructs,
    [{ id: this.id }], has neither [result] nor [error], and the type has
    values with both: the exclusivity of the returned outputs is not
    enforced where an [AgentOutput] is constructed. *)
Lemma output_exclusivity_not_by_construction :
  exactly_one (initial_output env_answering) = false ∧
  exactly_one (assign_error
                 (assign_result (initial_output env_answering) sample_analysis)
                 "late failure") = false ∧
  ¬ (∀ o : AgentOutput DeFiAnalysis, exactly_one o = true).
Proof.
  split; [reflexivity|]. split; [reflexivity|].
  intros H. specialize (H (initial_output env_answering)). discriminate H.
Qed.

Lemma execute_output_exclusive_witness :
  execute env_answering empty_context
  = ((execute env_answering empty_context).1,
     Returns {| id := "defi"; result := Some sample_analysis; error := None |}) ∧
  exactly_one {| id := "defi"; result := Some sample_analysis; error := None |}
  = true.
Proof.
  split; [vm_compute; reflexivity|].
  apply (execute_output_exclusive env_answering empty_context
           (execute env_answering empty_context).1).
  vm_compute; reflexivity.
Defined.

Lemma execute_error_mapping_witness :
  execute_body env_unauthorized empty_context
  = ((execute_body env_unauthorized empty_context).1,
     Throws (ErrorObj (OtherError "AuthenticationError") "401 Unauthorized")) ∧
  execute env_unauthorized empty_context
  = ((execute_body env_unauthorized empty_context).1,
     Throws (ErrorObj ChatModelAuthError
               "Authentication failed for DeFi analysis")).
Proof.
  split; [vm_compute; reflexivity|].
  apply (execute_error_mapping env_unauthorized empty_context
           (execute_body env_unauthorized empty_context).1
           (ErrorObj (OtherError "AuthenticationError") "401 Unauthorized")).
  vm_compute; reflexivity.
Defined.

End AgentFacts.

(** * Properties of the Executor's step loop *)

Module ExecutorFacts.

Import Executor.

Ltac mem :=
  repeat (setoid_rewrite elem_of_app || setoid_rewrite elem_of_cons
          || setoid_rewrite elem_of_nil);
  naive_solver.

Section Facts.

Variable opts : Options.
Variable co : Collaborators.

Ltac pass_unfold :=
  cbv [pass record_call set_latestPlanOutput set_navigatorDone increment_step
       ask mbind mret eff_bind eff_ret gets modify throw].

Lemma navigations_app l1 l2 :
  navigations (l1 ++ l2) = navigations l1 ++ navigations l2.
Proof. unfold navigations. by rewrite omap_app. Qed.

Lemma navigations_before i :
  navigations (calls_before_navigate opts co i) = [].
Proof. unfold calls_before_navigate. by destruct (gate_at opts co i). Qed.

Lemma calls_before_step i c :
  c ∈ calls_before_navigate opts co i → call_step c = i.
Proof. unfold calls_before_navigate. destruct (gate_at opts co i); mem. Qed.

Lemma planner_before i :
  CallRunPlanner i ∈ calls_before_navigate opts co i ↔ gate_at opts co i = true.
Proof. unfold calls_before_navigate. destruct (gate_at opts co i); mem. Qed.

Lemma stop_check_before i :
  CallShouldStop i ∈ calls_before_navigate opts co i.
Proof. unfold calls_before_navigate. mem. Qed.

Lemma completed_pass_app i l l' :
  completed_pass opts co i l →
  (∀ c, c ∈ l' → call_step c ≠ i) →
  completed_pass opts co i (l ++ l').
Proof.
  intros (Hs & Hss & Hn & Hb & Hp & Ho) Hl'.
  split; [done|]. split; [mem|]. split; [mem|]. split; [done|].
  split; [|done]. split.
  - intros [?|Hin]%elem_of_app; [by apply Hp|].
    by destruct (Hl' _ Hin).
  - intros ?. apply elem_of_app. left. by apply Hp.
Qed.

(** A pass that runs the Navigator to its end extends the record. *)
Lemma history_next s s' b :
  history opts co s →
  step s < maxSteps opts →
  shouldStop co (step s) = false →
  (gate_at opts co (step s) = true →
   ∃ out, runPlanner co (step s) = Returns out ∧
          checkTaskCompletion out = false) →
  navigate co (step s) = Returns b →
  step s' = S (step s) →
  navigatorDone s' = b →
  calls s' = calls s ++ calls_before_navigate opts co (step s)
                     ++ [CallNavigate (step s)] →
  history opts co s'.
Proof.
  intros [Hle Hd Hc Hp Hn] Hlt Hstop Hplan Hnav Hstep Hdone Hcalls.
  split.
  - lia.
  - rewrite Hstep, Hdone. cbn. by rewrite Hnav.
  - intros c. rewrite Hcalls, Hstep, !elem_of_app, list_elem_of_singleton.
    intros [Hin|[Hin| ->]].
    + apply Hc in Hin. lia.
    + apply calls_before_step in Hin. lia.
    + cbn. lia.
  - intros i Hi. rewrite Hcalls. rewrite Hstep in Hi.
    destruct (decide (i = step s)) as [->|Hne].
    + split; [done|]. split; [|split; [|split; [|split]]].
      * pose proof (stop_check_before (step s)). mem.
      * mem.
      * eauto.
      * rewrite !elem_of_app, list_elem_of_singleton, planner_before.
        split; [|by auto].
        intros [Hin|[?|?]]; [|done|done].
        apply Hc in Hin. cbn in Hin. lia.
      * done.
    + apply completed_pass_app; [apply Hp; lia|].
      intros c [Hin| ->%list_elem_of_singleton]%elem_of_app.
      * apply calls_before_step in Hin. congruence.
      * cbn. congruence.
  - rewrite Hcalls, Hstep, !navigations_app, navigations_before, Hn, seq_S.
    reflexivity.
Qed.

Lemma pass_spec s :
  history opts co s →
  (∃ s', pass opts co s = (s', Returns None) ∧
         history opts co s' ∧ step s' = S (step s) ∧
         step s < maxSteps opts ∧ emitted s' = emitted s) ∨
  (∃ s' r, pass opts co s = (s', leaving r) ∧ last_pass opts co s s' r).
Proof.
  intros Hh. pose proof Hh as [Hle Hd Hc Hp Hn]. pass_unfold.
  destruct (step s <? maxSteps opts) eqn:Hlt; cbn [negb].
  2: { right. exists s, (Returns Exhausted). split; [done|].
       constructor. by apply Nat.ltb_ge. }
  apply Nat.ltb_lt in Hlt.
  destruct (shouldStop co (step s)) eqn:Hstop.
  { right. eexists _, (Returns Stopped). split; [done|]. by constructor. }
  cbn [step navigatorDone latestPlanOutput calls emitted]. rewrite Hd.
  change (planning_gate (planningInterval opts) (step s)
            (prior_navigator_done co (step s)))
    with (gate_at opts co (step s)).
  destruct (gate_at opts co (step s)) eqn:Hg.
  - destruct (runPlanner co (step s)) as [out|e] eqn:Hrp.
    2: { right. eexists _, (Throws e). split; [done|].
         apply last_planner_throws; try done;
           cbn; rewrite <- ?(assoc_L (++)); reflexivity. }
    cbn. destruct (checkTaskCompletion out) eqn:Hck.
    { right. eexists _, (Returns PlannerDone). split; [done|].
      apply (last_planner_done _ _ _ _ out); try done;
        cbn; rewrite <- ?(assoc_L (++)); reflexivity. }
    destruct (navigate co (step s)) as [b|e] eqn:Hnav.
    + left. eexists. split; [done|]. split; [|done].
      eapply (history_next s _ b); try done; eauto;
        cbn; unfold calls_before_navigate; rewrite Hg;
        rewrite <- ?(assoc_L (++)); reflexivity.
    + right. eexists _, (Throws e). split; [done|].
      apply last_navigator_throws; try done; eauto;
        cbn; unfold calls_before_navigate; rewrite Hg;
        rewrite <- ?(assoc_L (++)); reflexivity.
  - destruct (navigate co (step s)) as [b|e] eqn:Hnav.
    + left. eexists. split; [done|]. split; [|done].
      eapply (history_next s _ b); try done; try (intros; congruence);
        cbn; unfold calls_before_navigate; rewrite Hg;
        rewrite <- ?(assoc_L (++)); reflexivity.
    + right. eexists _, (Throws e). split; [done|].
      apply last_navigator_throws; try done; try (intros; congruence);
        cbn; unfold calls_before_navigate; rewrite Hg;
        rewrite <- ?(assoc_L (++)); reflexivity.
Qed.


Lemma loop_S fuel s :
  loop opts co (S fuel) s
  = match pass opts co s with
    | (s', Returns (Some e)) => (s', Returns (Some e))
    | (s', Returns None) => loop opts co fuel s'
    | (s', Throws err) => (s', Throws err)
    end.
Proof.
  cbn [loop]. cbv [mbind mret eff_bind eff_ret].
  destruct (pass opts co s) as [s' [[e|]|err]]; done.
Qed.

(** The loop runs out of fuel after [fuel] completed passes, or is left
    in a last pass that follows completed passes. *)
Lemma loop_spec fuel s :
  history opts co s →
  (∃ s', loop opts co fuel s = (s', Returns None) ∧
         history opts co s' ∧ step s' = step s + fuel ∧
         emitted s' = emitted s) ∨
  (∃ s0 s' r, loop opts co fuel s = (s', leaving r) ∧
              history opts co s0 ∧ emitted s0 = emitted s ∧
              last_pass opts co s0 s' r).
Proof.
  revert s. induction fuel as [|fuel IH]; intros s Hh.
  { left. exists s. rewrite Nat.add_0_r. done. }
  rewrite loop_S.
  destruct (pass_spec s Hh) as [(s' & -> & Hh' & Hs & _ & He)|(s' & r & -> & Hl)].
  - destruct (IH s' Hh') as [(s'' & -> & ? & ? & ?)|(s0 & s'' & r & -> & ? & ? & ?)].
    + left. exists s''. split; [done|]. split; [done|].
      split; [lia|congruence].
    + right. exists s0, s'', r. split; [done|]. split; [done|].
      split; [congruence|done].
  - right. exists s, s', r. split; [by destruct r|]. done.
Qed.

Lemma history_start taskId : history opts co (start taskId).
Proof.
  split; cbn; try done; try lia.
  intros c Hc. by apply elem_of_nil in Hc.
Qed.

(** A task ends in the conclusion of a last pass. *)
Lemma execute_spec taskId fuel r :
  execute opts co taskId fuel = Some r →
  ∃ s0 s' o, r = conclude s' o ∧
             history opts co s0 ∧
             emitted s' = [mkEvent SYSTEM TASK_START taskId] ∧
             last_pass opts co s0 s' o.
Proof.
  unfold execute.
  destruct (loop_spec fuel (start taskId) (history_start taskId))
    as [(s' & -> & _)|(s0 & s' & o & -> & Hh & He & Hl)]; [done|].
  assert (emitted s' = [mkEvent SYSTEM TASK_START taskId]) as He'.
  { cbn in He. destruct Hl; congruence. }
  destruct o as [e|err]; cbn; intros [= <-]; eauto 10.
Qed.


Lemma calls_conclude s o : calls (final (conclude s o)) = calls s.
Proof. done. Qed.

Lemma emitted_conclude s o :
  emitted (final (conclude s o))
  = emitted s ++ [terminal_event (terminal_of o) s].
Proof. done. Qed.

(** The calls of the last pass carry its step. *)
Lemma last_pass_calls s s' o :
  last_pass opts co s s' o →
  ∃ l, calls s' = calls s ++ l ∧ (∀ c, c ∈ l → call_step c = step s).
Proof.
  destruct 1 as [?|s' ? ? Hc ?|s' out ? ? ? ? ? ? Hc ?|s' e ? ? ? ? Hc ?
                 |s' e ? ? ? ? Hc ?].
  - exists []. rewrite app_nil_r. split; [done|]. by intros c ?%elem_of_nil.
  - eexists. split; [exact Hc|]. intros c ->%list_elem_of_singleton. done.
  - eexists. split; [exact Hc|]. intros c. mem.
  - eexists. split; [exact Hc|]. intros c. mem.
  - eexists. split; [exact Hc|].
    intros c [?%calls_before_step| ->%list_elem_of_singleton]%elem_of_app; done.
Qed.

(** An error thrown by an agent ends the task in the state the Executor
    gives to that error. *)
Lemma thrown_error_ends_task taskId fuel r err :
  execute opts co taskId fuel = Some r →
  outcome_of_loop r = Throws err →
  state_reached r = terminal_of (Throws err) ∧
  ∃ i, CallShouldStop i ∈ calls (final r) ∧
       (runPlanner co i = Throws err ∨ navigate co i = Throws err).
Proof.
  intros (s0 & s' & o & -> & Hh & He & Hl)%execute_spec Ho.
  cbn in Ho. subst o. split; [done|].
  exists (step s0). rewrite calls_conclude.
  inversion Hl as [| | |s1 e ? ? ? ? Hc ?|s1 e ? ? ? ? Hc ?]; subst;
    rewrite Hc; split; try mem; auto.
Qed.

(** The planning gate is the remainder test of the specification when
    the interval is positive. *)
Lemma planning_gate_mod k i nd :
  0 < k → planning_gate k i nd = true ↔ i mod k = 0 ∨ nd = true.
Proof.
  intros Hk. unfold planning_gate, js_rem.
  destruct (decide (k = 0)) as [->|_]; [lia|]. cbn.
  destruct (i mod k) eqn:Hm; cbn; [naive_solver|].
  destruct nd; naive_solver.
Qed.


(** C4 (amended). In every pass of the loop that gets past the
    cancellation check, the Planner is run if and only if
    [step % planningInterval === 0] or the Navigator run of the pass
    before signalled completion; in the other such passes the Planner is
    skipped and the Navigator runs. *)
Theorem planning_gate_decides taskId fuel r i :
  execute opts co taskId fuel = Some r →
  CallShouldStop i ∈ calls (final r) →
  shouldStop co i = false →
  (CallRunPlanner i ∈ calls (final r) ↔
   planning_gate (planningInterval opts) i (prior_navigator_done co i) = true) ∧
  (planning_gate (planningInterval opts) i (prior_navigator_done co i) = false →
   (CallRunPlanner i ∉ calls (final r)) ∧ CallNavigate i ∈ calls (final r)) ∧
  (0 < planningInterval opts →
   (CallRunPlanner i ∈ calls (final r) ↔
    i mod planningInterval opts = 0 ∨ prior_navigator_done co i = true)).
Proof.
  intros (s0 & s' & o & -> & Hh & He & Hl)%execute_spec.
  rewrite calls_conclude. intros Hin Hstop.
  fold (gate_at opts co i).
  assert (CallRunPlanner i ∈ calls s' ↔ gate_at opts co i = true) as Hiff;
    [|assert (gate_at opts co i = false → CallNavigate i ∈ calls s') as Hnav].
  3: { split; [done|]. split.
       - intros Hg. split; [|by apply Hnav].
         rewrite Hiff, Hg. done.
       - intros Hk. rewrite Hiff. by apply planning_gate_mod. }
  - destruct (last_pass_calls _ _ _ Hl) as (l & Hc & Hl').
    destruct Hh as [_ _ Hb Hp _].
    destruct (decide (i < step s0)) as [Hi|Hi].
    { destruct (completed_pass_app i (calls s0) l (Hp i Hi))
        as (_ & _ & _ & _ & Hiff & _); [|by rewrite Hc].
      intros c Hcl. rewrite (Hl' c Hcl). lia. }
    assert (i = step s0) as ->.
    { rewrite Hc in Hin. apply elem_of_app in Hin as [Hin|Hin].
      - apply Hb in Hin. cbn in Hin. lia.
      - by rewrite <- (Hl' _ Hin). }
    assert (CallRunPlanner (step s0) ∉ calls s0) as Hnot.
    { intros Hx%Hb. cbn in Hx. lia. }
    inversion Hl as [Hle Heq|s1 ? Hs Hc' ?|s1 out ? ? Hg ? ? ? Hc' ?
                     |s1 e ? ? Hg ? Hc' ?|s1 e ? ? Hp' ? Hc' ?]; subst.
    + exfalso. apply Hb in Hin. cbn in Hin. lia.
    + congruence.
    + rewrite Hc', Hg. split; [done|]. intros _. mem.
    + rewrite Hc', Hg. split; [done|]. intros _. mem.
    + rewrite Hc', !elem_of_app, planner_before, list_elem_of_singleton.
      naive_solver.
  - intros Hg.
    destruct (last_pass_calls _ _ _ Hl) as (l & Hc & Hl').
    destruct Hh as [_ _ Hb Hp _].
    destruct (decide (i < step s0)) as [Hi|Hi].
    { destruct (Hp i Hi) as (_ & _ & Hn & _). rewrite Hc. mem. }
    assert (i = step s0) as ->.
    { rewrite Hc in Hin. apply elem_of_app in Hin as [Hin|Hin].
      - apply Hb in Hin. cbn in Hin. lia.
      - by rewrite <- (Hl' _ Hin). }
    inversion Hl as [Hle Heq|s1 ? Hs Hc' ?|s1 out ? ? Hg' ? ? ? Hc' ?
                     |s1 e ? ? Hg' ? Hc' ?|s1 e ? ? Hp' ? Hc' ?]; subst.
    + exfalso. apply Hb in Hin. cbn in Hin. lia.
    + congruence.
    + congruence.
    + congruence.
    + rewrite Hc'. mem.
Qed.

(** C5. A task ends [Completed], with [TASK_OK] emitted, exactly when
    the loop is left by the Planner's completion check: the Planner ran in
    the last pass and its result has [done = true], and [TASK_OK] carries
    its final answer. Whatever the Navigator signals, a task whose Planner
    never reports [done = true] does not complete. *)
Theorem completion_only_by_planner taskId fuel r :
  execute opts co taskId fuel = Some r →
  (state_reached r = Completed ↔ outcome_of_loop r = Returns PlannerDone) ∧
  ((∃ d, mkEvent SYSTEM TASK_OK d ∈ emitted (final r)) ↔
   state_reached r = Completed) ∧
  (state_reached r = Completed →
   ∃ i out plan,
     CallRunPlanner i ∈ calls (final r) ∧
     runPlanner co i = Returns (Some out) ∧
     result out = Some plan ∧ done plan = true ∧
     latestPlanOutput (final r) = Some out ∧
     last (emitted (final r))
     = Some (mkEvent SYSTEM TASK_OK (final_answer plan))) ∧
  ((∀ i out plan, runPlanner co i = Returns (Some out) →
                  result out = Some plan → done plan = false) →
   state_reached r ≠ Completed).
Proof.
  intros (s0 & s' & o & -> & Hh & He & Hl)%execute_spec.
  assert (state_reached (conclude s' o) = Completed →
          ∃ i out plan,
            CallRunPlanner i ∈ calls s' ∧
            runPlanner co i = Returns (Some out) ∧
            result out = Some plan ∧ done plan = true ∧
            latestPlanOutput s' = Some out) as Hdone.
  { cbn. intros Ht.
    destruct Hl as [Hle|s' ? Hs Hc' ?|s' out ? ? Hg Hp Hk Hlat Hc' ?
                    |s' e ? ? Hg ? Hc' ?|s' e ? ? Hp' ? Hc' ?];
      try done.
    - destruct out as [out|]; [|done]. cbn in Hk.
      destruct (result out) as [plan|] eqn:Hres; [|done].
      exists (step s0), out, plan. rewrite Hc'. split; [mem|done].
    - by destruct e as [[]|].
    - by destruct e as [[]|]. }
  split; [|split; [|split]].
  - cbn. destruct o as [[]|[[]|]]; naive_solver.
  - rewrite emitted_conclude, He. cbn.
    destruct (terminal_of o) eqn:Ht; cbn; split; try done.
    + intros _. eexists. mem.
    + intros [d Hd]. revert Hd. mem.
    + intros [d Hd]. revert Hd. mem.
  - intros Ht. destruct (Hdone Ht) as (i & out & plan & ? & ? & Hres & ? & Hlat).
    exists i, out, plan. rewrite calls_conclude, emitted_conclude. cbn in *.
    rewrite Ht, last_snoc. cbn. rewrite Hlat. cbn. rewrite Hres. done.
  - intros Hnever Ht.
    destruct (Hdone Ht) as (i & out & plan & _ & Hrp & Hres & Hd & _).
    rewrite (Hnever i out plan Hrp Hres) in Hd. done.
Qed.

End Facts.
(** The sample tasks, run. *)

(** The Navigator reports completion in pass 1; the Planner, run for that
    reason in pass 2, confirms it. *)
Example title_task_completes :
  ∃ r, execute opts_10_5 co_title "task-1" 11 = Some r ∧
       state_reached r = Completed ∧
       calls (final r)
       = [CallShouldStop 0; CallRunPlanner 0; CallNavigate 0;
          CallShouldStop 1; CallNavigate 1;
          CallShouldStop 2; CallRunPlanner 2] ∧
       emitted (final r)
       = [mkEvent SYSTEM TASK_START "task-1";
          mkEvent SYSTEM TASK_OK "Example Domain"].
Proof. eexists. split; [vm_compute; reflexivity|]. done. Qed.

(** A Navigator that reports completion in every pass completes
    nothing. *)
Example navigator_alone_does_not_complete :
  ∃ r, execute opts_10_5 co_navigator_only "task-2" 11 = Some r ∧
       state_reached r = Failed StepBudgetExceeded ∧
       navigations (calls (final r)) = seq 0 10.
Proof. eexists. split; [vm_compute; reflexivity|]. done. Qed.

(** An authentication failure of the first Planner run fails the task
    before any Navigator run. *)
Example auth_failure_fails_task :
  ∃ r, execute opts_10_5 co_auth_failure "task-3" 11 = Some r ∧
       state_reached r = Failed (AgentError ChatModelAuthError) ∧
       navigations (calls (final r)) = [] ∧
       last (emitted (final r))
       = Some (mkEvent SYSTEM TASK_FAIL "ChatModelAuthError").
Proof. eexists. split; [vm_compute; reflexivity|]. done. Qed.

(** With [planningInterval = 0] the remainder is [NaN] and the Planner
    never runs on its own. *)
Example interval_zero_never_plans :
  ∃ r, execute opts_3_0 co_never_done "task-4" 4 = Some r ∧
       calls (final r)
       = [CallShouldStop 0; CallNavigate 0; CallShouldStop 1; CallNavigate 1;
          CallShouldStop 2; CallNavigate 2].
Proof. eexists. split; [vm_compute; reflexivity|]. done. Qed.

(** With too little fuel the runner gives up; the loop itself has not
    ended. *)
Example fuel_too_small : execute opts_10_5 co_never_done "task-5" 10 = None.
Proof. vm_compute. reflexivity. Qed.


(** C4, the counterexample. Pass 0 of the stopped task is a pass in
    which [step % planningInterval === 0] holds, and the Planner is not
    run in it: the loop is left at the cancellation check. *)
Lemma planning_gate_counterexample :
  ∃ r, execute opts_3_1 co_stopped "task" 4 = Some r ∧
       CallShouldStop 0 ∈ calls (final r) ∧
       0 mod planningInterval opts_3_1 = 0 ∧
       planning_gate (planningInterval opts_3_1) 0
         (prior_navigator_done co_stopped 0) = true ∧
       CallRunPlanner 0 ∉ calls (final r).
Proof.
  eexists. split; [vm_compute; reflexivity|]. cbn.
  split; [mem|]. split; [done|]. split; [done|]. mem.
Qed.


Lemma planning_gate_decides_witness :
  ∃ r, execute opts_10_5 co_title "task-1" 11 = Some r ∧
       CallShouldStop 2 ∈ calls (final r) ∧
       shouldStop co_title 2 = false ∧
       (CallRunPlanner 2 ∈ calls (final r) ↔
        planning_gate (planningInterval opts_10_5) 2
          (prior_navigator_done co_title 2) = true) ∧
       (planning_gate (planningInterval opts_10_5) 2
          (prior_navigator_done co_title 2) = false →
        (CallRunPlanner 2 ∉ calls (final r)) ∧
        CallNavigate 2 ∈ calls (final r)) ∧
       (0 < planningInterval opts_10_5 →
        (CallRunPlanner 2 ∈ calls (final r) ↔
         2 mod planningInterval opts_10_5 = 0 ∨
         prior_navigator_done co_title 2 = true)).
Proof.
  destruct (execute opts_10_5 co_title "task-1" 11) as [r|] eqn:Hr;
    [|vm_compute in Hr; discriminate Hr].
  exists r. split; [reflexivity|].
  assert (CallShouldStop 2 ∈ calls (final r)) as Hin.
  { vm_compute in Hr. injection Hr as <-. cbn. mem. }
  split; [exact Hin|]. split; [reflexivity|].
  exact (planning_gate_decides opts_10_5 co_title "task-1" 11 r 2 Hr Hin eq_refl).
Defined.

Lemma completion_only_by_planner_witness :
  ∃ r, execute opts_10_5 co_title "task-1" 11 = Some r ∧
       (state_reached r = Completed ↔ outcome_of_loop r = Returns PlannerDone) ∧
       ((∃ d, mkEvent SYSTEM TASK_OK d ∈ emitted (final r)) ↔
        state_reached r = Completed) ∧
       (state_reached r = Completed →
        ∃ i out plan,
          CallRunPlanner i ∈ calls (final r) ∧
          runPlanner co_title i = Returns (Some out) ∧
          result out = Some plan ∧ done plan = true ∧
          latestPlanOutput (final r) = Some out ∧
          last (emitted (final r))
          = Some (mkEvent SYSTEM TASK_OK (final_answer plan))) ∧
       ((∀ i out plan, runPlanner co_title i = Returns (Some out) →
                       result out = Some plan → done plan = false) →
        state_reached r ≠ Completed).
Proof.
  destruct (execute opts_10_5 co_title "task-1" 11) as [r|] eqn:Hr;
    [|vm_compute in Hr; discriminate Hr].
  exists r. split; [reflexivity|].
  exact (completion_only_by_planner opts_10_5 co_title "task-1" 11 r Hr).
Defined.

End ExecutorFacts.

(** * More properties of the MCP client *)

Module MCPMore.

Import MCP MCPRuns.

Section Facts.

Context {Args : Type}.
Implicit Types (sdk : Sdk Args) (s : state Args) (p : program Args).

Ltac eff_unfold :=
  cbv [connect connect_body callTool callTool_try callTool_body
       callTool_handler disconnect isConnected extract_content
       new_SSEClientTransport new_Client client_connect client_callTool
       client_close log_info log_error log_debug answer
       mbind mret eff_bind eff_ret gets modify try_catch throw].

Ltac eff_cases := repeat case_match; simplify_eq/=.

(** X2. [disconnect] never throws. With a client it calls the SDK's
    [close] on it once and then clears [client], [transport] and
    [connected], also when [close] throws (the error is only logged);
    without a client it does nothing at all. *)
Theorem disconnect_resets sdk s :
  ∃ s', disconnect sdk s = (s', Returns tt) ∧
        match client s with
        | Some c =>
            client s' = None ∧ transport s' = None ∧ connected s' = false ∧
            next_ref s' = next_ref s ∧
            trace s' = trace s ++ ClientClose c
                         :: close_log (sdk_close sdk (trace s ++ [ClientClose c]))
        | None => s' = s
        end.
Proof.
  eff_unfold. destruct (client s) as [c|] eqn:Hc; [|by eexists].
  cbn. destruct (sdk_close sdk (trace s ++ [ClientClose c])) as [e|];
    cbn; eexists; (split; [reflexivity|]); cbn;
    rewrite <- ?(assoc_L (++)); done.
Qed.


(** X4. On a connected instance [callTool] works with the connection it
    has: it builds, connects and closes nothing, makes exactly one tool
    call on the present client (none if there is no client), and leaves
    [client], [transport] and [connected] as they are, also when the tool
    call fails. *)
Theorem callTool_keeps_connection sdk name args s :
  connected s = true →
  ∃ evs,
    trace (callTool sdk name args s).1 = trace s ++ evs ∧
    Forall (λ ev, is_connection_event ev = false) evs ∧
    tool_calls evs = match client s with
                     | Some c => [(c, name, args)]
                     | None => []
                     end ∧
    client (callTool sdk name args s).1 = client s ∧
    transport (callTool sdk name args s).1 = transport s ∧
    connected (callTool sdk name args s).1 = true ∧
    next_ref (callTool sdk name args s).1 = next_ref s.
Proof.
  intros Hc. eff_unfold. rewrite Hc. cbn [negb].
  destruct (client s) as [c|] eqn:Hcl; cbn.
  - eff_cases; rewrite <- ?(assoc_L (++)); eexists;
      (split; [reflexivity|]); (split; [by repeat constructor|]); done.
  - eexists. split; [reflexivity|]. split; [by repeat constructor|]. done.
Qed.


End Facts.

Lemma callTool_keeps_connection_witness :
  connected (connect sdk_up fresh_client).1 = true ∧
  ∃ evs,
    trace (callTool sdk_rejecting "get_tvl" [] (connect sdk_up fresh_client).1).1
    = trace (connect sdk_up fresh_client).1 ++ evs ∧
    Forall (λ ev, is_connection_event ev = false) evs ∧
    tool_calls evs = match client (connect sdk_up fresh_client).1 with
                     | Some c => [(c, "get_tvl", [])]
                     | None => []
                     end ∧
    client (callTool sdk_rejecting "get_tvl" [] (connect sdk_up fresh_client).1).1
    = client (connect sdk_up fresh_client).1 ∧
    transport (callTool sdk_rejecting "get_tvl" [] (connect sdk_up fresh_client).1).1
    = transport (connect sdk_up fresh_client).1 ∧
    connected (callTool sdk_rejecting "get_tvl" [] (connect sdk_up fresh_client).1).1
    = true ∧
    next_ref (callTool sdk_rejecting "get_tvl" [] (connect sdk_up fresh_client).1).1
    = next_ref (connect sdk_up fresh_client).1.
Proof.
  split; [reflexivity|].
  apply (callTool_keeps_connection sdk_rejecting "get_tvl" []
           (connect sdk_up fresh_client).1).
  reflexivity.
Defined.

(** The sample run closes client 1 and goes on with client 3. *)
Example sample_run_tool_calls :
  tool_calls (trace sample_run)
  = [(1, "get_tvl", [("protocol", "aave")]); (3, "get_chains", [])].
Proof. vm_compute. reflexivity. Qed.

End MCPMore.

(** * The MCP client under overlapping calls *)

Module MCPAsyncFacts.

Import MCP MCPRuns MCPAsync.

Section Facts.

Context {Args : Type}.
Implicit Types (sdk : Sdk Args) (s : state Args) (m : machine Args)
  (t : task Args) (sl : slot Args) (ts : list (turn Args)).

Ltac async_unfold :=
  cbv [piece start resume connect_begin connect_resume connect_handler
       callTool_begin callTool_enter callTool_finish callTool_handler
       disconnect_begin disconnect_resume extract_content
       new_SSEClientTransport new_Client log_info log_error log_debug answer
       mbind mret eff_bind eff_ret gets modify try_catch throw].

Ltac async_cases := repeat case_match; simplify_eq/=.

(** *** The pieces compose to the methods

    A call that is continued at once, with nothing in between, is the
    method run in one go. *)

Lemma connect_in_one_go sdk s :
  connect sdk s
  = match connect_begin sdk s with
    | (s1, Returns (Some b)) => (s1, Returns b)
    | (s1, Returns None) => connect_resume sdk s1
    | (s1, Throws e) => (s1, Throws e)
    end.
Proof.
  cbv [connect connect_body client_connect]. async_unfold.
  destruct (connected s); [done|]. by async_cases.
Qed.

Lemma disconnect_in_one_go sdk s :
  disconnect sdk s
  = match disconnect_begin s with
    | (s1, Returns (Pending _)) => disconnect_resume sdk s1
    | (s1, Returns (Ended _)) => (s1, Returns tt)
    | (s1, Throws e) => (s1, Throws e)
    end.
Proof.
  cbv [disconnect client_close]. async_unfold.
  destruct (client s); [|done]. by async_cases.
Qed.

Lemma callTool_try_in_one_go sdk name args s :
  callTool_try sdk name args s
  = match callTool_enter name args s with
    | (s1, Returns (Pending _)) => callTool_finish sdk name s1
    | (s1, Returns (Ended (CallToolResolved r))) => (s1, Returns r)
    | (s1, Returns (Ended _)) => (s1, Returns unavailable)
    | (s1, Throws e) => (s1, Throws e)
    end.
Proof.
  cbv [callTool_try callTool_body client_callTool]. async_unfold.
  destruct (client s); [|done]. by async_cases.
Qed.

Lemma go_on_ended sdk (p : state Args * slot Args) r :
  p.2 = Ended r → go_on sdk p = p.
Proof. unfold go_on. by intros ->. Qed.

Lemma enter_in_one_go sdk name args s :
  go_on sdk (piece (callTool_enter name args) s)
  = piece (r ← callTool_try sdk name args; mret (Ended (CallToolResolved r))) s.
Proof.
  unfold piece at 2. cbv [mbind eff_bind mret eff_ret].
  rewrite callTool_try_in_one_go.
  unfold callTool_enter, go_on, piece. async_unfold.
  destruct (client s); cbn; [|done]. by async_cases.
Qed.

Lemma piece_ended sdk (m : Eff (state Args) ending) s :
  ∃ r, (piece (r ← m; mret (Ended r)) s).2 = Ended r.
Proof.
  unfold piece. cbv [mbind eff_bind mret eff_ret].
  destruct (m s) as [s' [r|e]]; by eexists.
Qed.

Lemma piece_ext (m m' : Eff (state Args) (slot Args)) s :
  m s = m' s → piece m s = piece m' s.
Proof. unfold piece. by intros ->. Qed.

Lemma after_connect sdk name args s (b : bool) :
  go_on sdk (go_on sdk (s, Pending (AtCallToolConnect name args (Some b))))
  = piece (r ← (if negb b then mret unavailable
                else callTool_try sdk name args);
           mret (Ended (CallToolResolved r))) s.
Proof.
  unfold go_on at 2. cbn [fst snd resume]. destruct b; cbn [negb].
  - apply enter_in_one_go.
  - done.
Qed.

Lemma call_in_one_go sdk c s :
  go_on sdk (go_on sdk (go_on sdk (piece (start sdk c) s)))
  = piece (r ← in_one_go sdk c; mret (Ended r)) s.
Proof.
  destruct (piece_ended sdk (in_one_go sdk c) s) as [r Hr].
  destruct c as [|name args|].
  - assert (go_on sdk (piece (start sdk CallConnect) s)
            = piece (r ← in_one_go sdk CallConnect; mret (Ended r)) s) as ->.
    { unfold in_one_go. cbv [mbind eff_bind mret eff_ret piece].
      rewrite connect_in_one_go. unfold start, go_on.
      cbv [mbind eff_bind mret eff_ret].
      destruct (connect_begin sdk s) as [s1 [[b|]|e]]; try done.
      cbn [snd fst]. unfold piece, resume. cbv [mbind eff_bind mret eff_ret].
      by destruct (connect_resume sdk s1) as [s2 [b|e]]. }
    by rewrite !(go_on_ended _ _ _ Hr).
  - destruct (connected s) eqn:Hc.
    + assert (piece (start sdk (CallCallTool name args)) s
              = piece (callTool_enter name args) s) as ->.
      { apply piece_ext. unfold start, callTool_begin.
        cbv [mbind eff_bind gets]. by rewrite Hc. }
      rewrite enter_in_one_go.
      assert (piece (r ← callTool_try sdk name args;
                     mret (Ended (CallToolResolved r))) s
              = piece (r ← in_one_go sdk (CallCallTool name args);
                       mret (Ended r)) s) as ->.
      { apply piece_ext. unfold in_one_go, callTool.
        cbv [mbind eff_bind gets mret eff_ret]. rewrite Hc. cbn [negb].
        by destruct (callTool_try sdk name args s) as [s1 [v|e]]. }
      by rewrite !(go_on_ended _ _ _ Hr).
    + assert (∀ s1 (b : bool),
                connect sdk s = (s1, Returns b) →
                piece (r ← (if negb b then mret unavailable
                            else callTool_try sdk name args);
                       mret (Ended (CallToolResolved r))) s1
                = piece (r ← in_one_go sdk (CallCallTool name args);
                         mret (Ended r)) s) as Hafter.
      { intros s1 b Hk. unfold piece, in_one_go, callTool.
        cbv [mbind eff_bind gets mret eff_ret]. rewrite Hc. cbn [negb].
        rewrite Hk. destruct b; cbn [negb]; [|done].
        by destruct (callTool_try sdk name args s1) as [s2 [v|e]]. }
      pose proof (connect_in_one_go sdk s) as Hk.
      unfold piece at 1, start, callTool_begin.
      cbv [mbind eff_bind gets mret eff_ret]. rewrite Hc. cbn [negb].
      destruct (connect_begin sdk s) as [s1 [[b|]|e]].
      * rewrite after_connect, (Hafter _ _ Hk).
        by rewrite (go_on_ended _ _ _ Hr).
      * unfold go_on at 3. cbn [fst snd]. unfold piece at 1, resume.
        cbv [mbind eff_bind mret eff_ret].
        destruct (connect_resume sdk s1) as [s2 [b|e]].
        -- by rewrite after_connect, (Hafter _ _ Hk).
        -- rewrite !(go_on_ended _ _ (Rejected e)) by done.
           unfold piece, in_one_go, callTool.
           cbv [mbind eff_bind gets mret eff_ret]. rewrite Hc. cbn [negb].
           by rewrite Hk.
      * rewrite !(go_on_ended _ _ (Rejected e)) by done.
        unfold piece, in_one_go, callTool.
        cbv [mbind eff_bind gets mret eff_ret]. rewrite Hc. cbn [negb].
        by rewrite Hk.
  - assert (go_on sdk (piece (start sdk CallDisconnect) s)
            = piece (r ← in_one_go sdk CallDisconnect; mret (Ended r)) s) as ->.
    { unfold in_one_go. cbv [mbind eff_bind mret eff_ret piece].
      rewrite disconnect_in_one_go. unfold start, go_on.
      unfold disconnect_begin. cbv [mbind eff_bind mret eff_ret gets modify].
      destruct (client s); [|done].
      cbn [snd fst]. unfold piece, resume. cbv [mbind eff_bind mret eff_ret].
      by destruct (disconnect_resume sdk _) as [s2 [[]|e]]. }
    by rewrite !(go_on_ended _ _ _ Hr).
Qed.

(** On the machine: a call that is made and continued until it has
    ended, with no other turn in between, leaves the instance as its
    method run in one go does, and has ended with the method's result. *)
Lemma turns_in_one_go sdk c m :
  let k := length (slots m) in
  let p := piece (r ← in_one_go sdk c; mret (Ended r)) (inst m) in
  exec sdk [Start c; Resume k; Resume k; Resume k] m
  = {| inst := p.1; slots := slots m ++ [p.2] |}.
Proof.
  intros k p.
  assert (∀ q : state Args * slot Args,
            step sdk (Resume k) {| inst := q.1; slots := slots m ++ [q.2] |}
            = {| inst := (go_on sdk q).1;
                 slots := slots m ++ [(go_on sdk q).2] |}) as Hgo.
  { intros [s sl]. cbn [step inst slots fst snd]. unfold k.
    rewrite list_lookup_middle by done. unfold go_on. cbn [fst snd].
    destruct sl as [t|r]; [|done].
    destruct (piece (resume sdk t) s) as [s' sl'].
    cbn [fst snd]. f_equal.
    rewrite insert_app_r_alt by done. by rewrite Nat.sub_diag. }
  unfold p. rewrite <- call_in_one_go. cbn [exec foldl].
  rewrite <- !Hgo. do 3 f_equal. cbn [step].
  by destruct (piece (start sdk c) (inst m)).
Qed.

(** *** What the pieces do to the fields *)

Lemma connect_begin_fields sdk s :
  ∃ s' r,
    connect_begin sdk s = (s', Returns r) ∧
    (connected s = true → s' = s ∧ r = Some true) ∧
    (connected s = false →
     connected s' = false ∧
     match r with
     | None => is_Some (client s')
     | Some b => b = false ∧ client s' = client s
     end).
Proof.
  async_unfold. destruct (connected s) eqn:Hc.
  - eexists _, _. split; [reflexivity|]. by split.
  - async_cases; eexists _, _; (split; [reflexivity|]); by split.
Qed.

Lemma connect_resume_fields sdk s :
  ∃ s' b,
    connect_resume sdk s = (s', Returns b) ∧
    client s' = client s ∧ connected s' = b.
Proof. async_unfold. async_cases; by eexists _, _. Qed.

Lemma callTool_enter_fields name args s :
  ∃ s' sl,
    callTool_enter name args s = (s', Returns sl) ∧
    client s' = client s ∧ connected s' = connected s ∧
    match client s with
    | Some c =>
        sl = Pending (AtCallTool name) ∧
        last (trace s') = Some (ClientCallTool c name args)
    | None =>
        sl = Ended (CallToolResolved
                      {| content := ""; error := Some "MCP client not initialized" |})
    end.
Proof.
  async_unfold. destruct (client s) as [c|] eqn:Hc; cbn.
  - eexists _, _. split; [reflexivity|]. cbn. by rewrite last_snoc.
  - eexists _, _. split; [reflexivity|]. by cbn.
Qed.

Lemma callTool_finish_fields sdk name s :
  ∃ s' r,
    callTool_finish sdk name s = (s', Returns r) ∧
    client s' = client s ∧ connected s' = connected s.
Proof. async_unfold. async_cases; by eexists _, _. Qed.

Lemma disconnect_begin_fields s :
  ∃ s' sl,
    disconnect_begin s = (s', Returns sl) ∧
    client s' = client s ∧ connected s' = connected s ∧
    match client s with
    | Some c => sl = Pending AtClose
    | None => sl = Ended DisconnectResolved ∧ s' = s
    end.
Proof.
  async_unfold. destruct (client s) as [c|] eqn:Hc; by eexists _, _.
Qed.

Lemma disconnect_resume_fields sdk s :
  ∃ s',
    disconnect_resume sdk s = (s', Returns tt) ∧
    client s' = None ∧ connected s' = false.
Proof. async_unfold. async_cases; by eexists. Qed.

(** A call that is made, [disconnect] apart. *)
Lemma start_fields sdk c s :
  initialized s →
  ∃ s' sl,
    piece (start sdk c) s = (s', sl) ∧
    initialized s' ∧
    (is_Some (client s) → is_Some (client s')) ∧
    (∀ t, sl = Pending t → needs_client t = true → is_Some (client s')) ∧
    (c ≠ CallDisconnect → is_closing sl = false) ∧
    (c = CallDisconnect → client s' = client s ∧ ∀ t, sl = Pending t → t = AtClose).
Proof.
  intros Hi. unfold initialized in *. destruct c as [|name args|].
  - destruct (connect_begin_fields sdk s) as (s' & r & Hk & Hy & Hn).
    unfold piece, start. cbv [mbind eff_bind mret eff_ret]. rewrite Hk.
    eexists _, _. split; [reflexivity|].
    destruct (connected s) eqn:Hc.
    + destruct (Hy eq_refl) as [-> ->]. rewrite Hc. by repeat split.
    + destruct (Hn eq_refl) as [Hc' Hr]. rewrite Hc'.
      destruct r as [b|]; [destruct Hr as [-> Hr]; rewrite Hr|];
        repeat split; try done; by intros ? [= <-].
  - unfold piece, start, callTool_begin. cbv [mbind eff_bind gets mret eff_ret].
    destruct (connected s) eqn:Hc; cbn [negb].
    + destruct (callTool_enter_fields name args s) as (s' & sl & Hk & Hcl & Hco & Hsl).
      rewrite Hk. eexists _, _. split; [reflexivity|]. rewrite Hcl, Hco.
      destruct (Hi eq_refl) as [c Hcs]. rewrite Hcs in Hsl. destruct Hsl as [-> _].
      repeat split; try done; by intros ? [= <-].
    + destruct (connect_begin_fields sdk s) as (s' & r & Hk & _ & Hn).
      rewrite Hk. eexists _, _. split; [reflexivity|].
      destruct (Hn Hc) as [Hc' Hr]. rewrite Hc'.
      destruct r as [b|]; [destruct Hr as [-> Hr]; rewrite Hr|];
        repeat split; try done; by intros ? [= <-].
  - destruct (disconnect_begin_fields s) as (s' & sl & Hk & Hcl & Hco & Hsl).
    unfold piece, start. rewrite Hk. eexists _, _. split; [reflexivity|].
    rewrite Hcl, Hco. repeat split; try done.
    + destruct (client s); [subst sl|destruct Hsl as [-> _]];
        by intros ? [= <-].
    + destruct (client s); [subst sl|destruct Hsl as [-> _]];
        by intros ? [= <-].
Qed.

(** A suspended call that goes on. *)
Lemma resume_fields sdk t s :
  initialized s →
  (needs_client t = true → is_Some (client s)) →
  ∃ s' sl,
    piece (resume sdk t) s = (s', sl) ∧
    initialized s' ∧
    (∀ t', sl = Pending t' → needs_client t' = true → is_Some (client s')) ∧
    (t ≠ AtClose → client s' = client s ∧ is_closing sl = false) ∧
    (t = AtClose → client s' = None ∧ sl = Ended DisconnectResolved).
Proof.
  intros Hi Hn. unfold initialized in *.
  destruct t as [|name args [[]|]|name|]; cbn in Hn.
  - destruct (connect_resume_fields sdk s) as (s' & b & Hk & Hcl & Hco).
    unfold piece, resume. cbv [mbind eff_bind mret eff_ret]. rewrite Hk.
    eexists _, _. split; [reflexivity|]. rewrite Hcl.
    repeat split; try done; intros _; by apply Hn.
  - destruct (callTool_enter_fields name args s) as (s' & sl & Hk & Hcl & Hco & Hsl).
    unfold piece, resume. cbn [negb]. rewrite Hk.
    eexists _, _. split; [reflexivity|]. rewrite Hcl, Hco.
    destruct (Hn eq_refl) as [c Hcs]. rewrite Hcs in Hsl. destruct Hsl as [-> _].
    repeat split; try done; by intros ? [= <-].
  - unfold piece, resume. cbn [negb]. cbv [mret eff_ret].
    eexists _, _. split; [reflexivity|]. by repeat split.
  - destruct (connect_resume_fields sdk s) as (s' & b & Hk & Hcl & Hco).
    unfold piece, resume. cbv [mbind eff_bind mret eff_ret]. rewrite Hk.
    eexists _, _. split; [reflexivity|]. rewrite Hcl.
    repeat split; try done; intros; by apply Hn.
  - destruct (callTool_finish_fields sdk name s) as (s' & r & Hk & Hcl & Hco).
    unfold piece, resume. cbv [mbind eff_bind mret eff_ret]. rewrite Hk.
    eexists _, _. split; [reflexivity|]. rewrite Hcl, Hco.
    by repeat split.
  - destruct (disconnect_resume_fields sdk s) as (s' & Hk & Hcl & Hco).
    unfold piece, resume. cbv [mbind eff_bind mret eff_ret]. rewrite Hk.
    eexists _, _. split; [reflexivity|]. rewrite Hcl, Hco.
    by repeat split.
Qed.

(** *** What a run that keeps [disconnect] apart keeps *)

Lemma existsb_false_lookup {A} (f : A → bool) (l : list A) i x :
  existsb f l = false → l !! i = Some x → f x = false.
Proof.
  intros Hf Hi. destruct (f x) eqn:Hx; [|done].
  assert (existsb f l = true) as Ht; [|congruence].
  apply existsb_exists. exists x. split; [|done].
  apply list_elem_of_In. by eapply list_elem_of_lookup_2.
Qed.

Lemma lookup_snoc_cases {A} (l : list A) (x y : A) i :
  (l ++ [x]) !! i = Some y →
  l !! i = Some y ∨ (i = length l ∧ y = x).
Proof.
  intros Hi. destruct (decide (i < length l)) as [Hlt|Hge].
  - left. by rewrite lookup_app_l in Hi.
  - right. rewrite lookup_app_r in Hi by lia.
    destruct (i - length l) as [|k] eqn:Hk; [|by destruct k].
    injection Hi as <-. split; [|done].
    apply lookup_lt_Some in Hi || idtac. lia.
Qed.

Lemma call_disconnect_or (c : call Args) :
  c = CallDisconnect ∨ c ≠ CallDisconnect.
Proof. destruct c; auto. Qed.

Lemma task_close_or t : t = AtClose ∨ t ≠ AtClose.
Proof. destruct t; auto. Qed.

Lemma boot_settled tr n : settled_machine (boot (Args:=Args) tr n).
Proof. split; [done|by intros i t [=]|by intros i j t [=]]. Qed.

Lemma step_settled sdk (u : turn Args) m :
  settled_machine m → apart u m = true → settled_machine (step sdk u m).
Proof.
  intros [Hi Hn Ha] Hap. destruct u as [c|i0]; cbn [step].
  - destruct (start_fields sdk c (inst m) Hi)
      as (s' & sl & Hk & Hi' & Hcl & Hsl & Hnd & Hd).
    rewrite Hk. split; cbn [inst slots].
    + done.
    + intros i t [Hold|[-> Hs]]%lookup_snoc_cases Ht; [|by eapply Hsl].
      apply Hcl. by eapply Hn.
    + destruct (call_disconnect_or c) as [->|Hc].
      * cbn in Hap. apply negb_true_iff in Hap.
        intros i j t [Hold|[-> Hs]]%lookup_snoc_cases
                     [Hold'|[-> Hs']]%lookup_snoc_cases; try done.
        -- by pose proof (existsb_false_lookup _ _ _ _ Hap Hold).
        -- by pose proof (existsb_false_lookup _ _ _ _ Hap Hold).
        -- by pose proof (existsb_false_lookup _ _ _ _ Hap Hold').
      * assert (existsb is_closing (slots m) = false) as Hnc.
        { destruct c; try done; cbn in Hap; by apply negb_true_iff in Hap. }
        intros i j t [Hold|[-> Hs]]%lookup_snoc_cases _.
        -- by pose proof (existsb_false_lookup _ _ _ _ Hnc Hold).
        -- specialize (Hnd Hc). by rewrite <- Hs in Hnd.
  - destruct (slots m !! i0) as [[t0|]|] eqn:H0; [|by split..].
    destruct (resume_fields sdk t0 (inst m) Hi (Hn i0 t0 H0))
      as (s' & sl & Hk & Hi' & Hsl & Hnc & Hc).
    rewrite Hk.
    assert (i0 < length (slots m)) as Hlt by by eapply lookup_lt_Some.
    split; cbn [inst slots].
    + done.
    + intros i t Hl Ht. destruct (decide (i = i0)) as [->|Hne].
      * rewrite list_lookup_insert_eq in Hl by done.
        injection Hl as ->. by eapply Hsl.
      * rewrite list_lookup_insert_ne in Hl by done.
        destruct (task_close_or t0) as [->|Hnot].
        -- by pose proof (Ha i0 i t H0 Hl).
        -- destruct (Hnc Hnot) as [-> _]. by eapply Hn.
    + intros i j t Hl _. exfalso. destruct (decide (i = i0)) as [->|Hne].
      * rewrite list_lookup_insert_eq in Hl by done. injection Hl as Hl.
        destruct (task_close_or t0) as [->|Hnot].
        -- destruct (Hc eq_refl) as [_ ->]. done.
        -- destruct (Hnc Hnot) as [_ Hf]. by rewrite Hl in Hf.
      * rewrite list_lookup_insert_ne in Hl by done.
        by pose proof (Ha i i0 t0 Hl H0).
Qed.


(** *** The handles *)

Lemma no_use_after_close_nil : no_use_after_close (@nil (event Args)).
Proof. intros l1 l2 c ev Heq. by destruct l1. Qed.

Lemma no_use_after_close_snoc (tr : list (event Args)) (ev : event Args) :
  no_use_after_close tr →
  (∀ c, uses c ev = true → ClientClose c ∉ tr) →
  no_use_after_close (tr ++ [ev]).
Proof.
  intros Htr Hev l1 l2 c e Heq Hin.
  destruct l2 as [|x l2 _] using rev_ind; [by apply elem_of_nil in Hin|].
  change (ClientClose c :: l2 ++ [x]) with ((ClientClose c :: l2) ++ [x]) in Heq.
  rewrite (assoc_L (++)) in Heq.
  apply app_inj_tail in Heq as [-> <-].
  apply elem_of_app in Hin as [Hin|Hin%list_elem_of_singleton].
  - by eapply Htr.
  - subst e. destruct (uses c ev) eqn:Hu; [|done].
    destruct (Hev c Hu). rewrite elem_of_app, elem_of_cons. auto.
Qed.

Ltac handles_step :=
  repeat match goal with
         | |- no_use_after_close (_ ++ [_]) =>
             apply no_use_after_close_snoc
         | H : _ ∈ _ ++ _ |- _ => apply elem_of_app in H as [H|H]
         | H : _ ∈ [_] |- _ => apply list_elem_of_singleton in H; subst
         | H : _ ∈ _ :: _ |- _ => apply elem_of_cons in H as [H|H]; subst
         | H : _ ∈ [] |- _ => by apply elem_of_nil in H
         | H : uses _ _ = true |- _ =>
             progress (cbn in H); try discriminate H;
             try apply bool_decide_eq_true_1 in H; subst
         | H : Some _ = Some _ |- _ => injection H as H; subst
         | |- _ ∉ _ => intros ?
         | |- ∀ _, _ => intros ?
         | |- _ → _ => intros ?
         end.

Ltac handles_finish Hu Hc Ho :=
  try done; try lia; try (by eapply Ho); try (by apply Hc);
  try (by eapply Nat.lt_lt_succ_r, Hc);
  try match goal with
      | H : ?ev ∈ trace _, H' : uses ?c ?ev = true |- _ =>
          pose proof (Hu _ _ H H'); lia
      | H : ClientClose ?c ∈ trace _ |- _ =>
          pose proof (Hu (ClientClose c) c H (bool_decide_eq_true_2 _ eq_refl));
          lia
      end.

Ltac handles_pieces Hu Hc Ho :=
  async_cases; (split; [split|unfold client_open]); cbn;
  handles_step; handles_finish Hu Hc Ho.

(** A call that is made or goes on, and is no [disconnect], keeps the
    handles, and the client it leaves is open. *)
Lemma piece_bind_state {A} (m : Eff (state Args) A) (f : A → slot Args) s :
  (piece (r ← m; mret (f r)) s).1 = (m s).1.
Proof.
  unfold piece. cbv [mbind eff_bind mret eff_ret].
  by destruct (m s) as [s' [r|e]].
Qed.

Lemma connect_begin_handles sdk s :
  handles_kept s → client_open s →
  handles_kept (connect_begin sdk s).1 ∧ client_open (connect_begin sdk s).1.
Proof.
  intros Hk Ho. destruct Hk as [Hu Hc Ht]; unfold client_open in Ho.
  async_unfold. destruct (connected s) eqn:Hcon; [by split|].
  handles_pieces Hu Hc Ho.
Qed.

Lemma start_handles sdk c s :
  c ≠ CallDisconnect → handles_kept s → client_open s →
  handles_kept (piece (start sdk c) s).1 ∧ client_open (piece (start sdk c) s).1.
Proof.
  intros Hnd Hk Ho.
  destruct c as [|name args|]; [| |done].
  - unfold start. rewrite piece_bind_state. by apply connect_begin_handles.
  - unfold start, callTool_begin.
    destruct (connected s) eqn:Hcon.
    + async_unfold. rewrite Hcon. cbn [negb].
      destruct (client s) as [c|] eqn:Hcl;
        destruct Hk as [Hu Hc Ht]; unfold client_open in Ho; cbn;
        handles_pieces Hu Hc Ho.
    + assert (piece (isc ← gets connected;
                     if negb (isc : bool)
                     then settled ← connect_begin sdk;
                          mret (Pending (AtCallToolConnect name args settled))
                     else callTool_enter name args) s
              = piece (settled ← connect_begin sdk;
                       mret (Pending (AtCallToolConnect name args settled))) s)
        as ->.
      { apply piece_ext. cbv [mbind eff_bind gets]. by rewrite Hcon. }
      rewrite piece_bind_state. by apply connect_begin_handles.
Qed.

Lemma resume_handles sdk t s :
  t ≠ AtClose → handles_kept s → client_open s →
  handles_kept (piece (resume sdk t) s).1 ∧ client_open (piece (resume sdk t) s).1.
Proof.
  intros Hnc Hk Ho.
  destruct t as [|name args [[]|]|name|]; [| | | | |done].
  - destruct Hk as [Hu Hc Ht]; unfold client_open in Ho. async_unfold. handles_pieces Hu Hc Ho.
  - async_unfold. cbn [negb].
    destruct (client s) as [c|] eqn:Hcl; destruct Hk as [Hu Hc Ht]; unfold client_open in Ho; cbn;
      handles_pieces Hu Hc Ho.
  - async_unfold. cbn [negb]. by split.
  - destruct Hk as [Hu Hc Ht]; unfold client_open in Ho. async_unfold. handles_pieces Hu Hc Ho.
  - destruct Hk as [Hu Hc Ht]; unfold client_open in Ho. async_unfold. handles_pieces Hu Hc Ho.
Qed.

(** [disconnect] closes the client it finds, which was open. *)
Lemma disconnect_begin_handles sdk s :
  handles_kept s → client_open s →
  handles_kept (piece (start sdk CallDisconnect) s).1.
Proof.
  intros Hk Ho. async_unfold.
  destruct (client s) as [c|] eqn:Hcl; destruct Hk as [Hu Hc Ht]; unfold client_open in Ho; cbn;
    [|by split].
  split; cbn; handles_step; handles_finish Hu Hc Ho.
Qed.

Lemma disconnect_resume_handles sdk s :
  handles_kept s →
  handles_kept (piece (resume sdk AtClose) s).1 ∧
  client_open (piece (resume sdk AtClose) s).1.
Proof.
  intros [Hu Hc Ht]. async_unfold.
  async_cases; (split; [split|unfold client_open]); cbn;
    handles_step; handles_finish Hu Hc Hc.
Qed.

Lemma closing_is_pending sl : is_closing sl = true → is_pending sl = true.
Proof. by destruct sl as [[]|]. Qed.

Lemma no_pending_no_closing (l : list (slot Args)) :
  existsb is_pending l = false → existsb is_closing l = false.
Proof.
  intros Hp. destruct (existsb is_closing l) eqn:Hc; [|done].
  apply existsb_exists in Hc as (sl & Hin & Hsl%closing_is_pending).
  assert (existsb is_pending l = true) as Ht; [|congruence].
  apply existsb_exists. eauto.
Qed.

Lemma existsb_snoc_false {A} (f : A → bool) (l : list A) x :
  existsb f (l ++ [x]) = false → f x = false.
Proof. rewrite existsb_app. cbn. by intros [_ [? _]%orb_false_iff]%orb_false_iff. Qed.

(** Where a call other than [disconnect] is suspended, no [disconnect]
    is. *)
Lemma no_closing_beside m i t :
  settled_machine m → slots m !! i = Some (Pending t) → t ≠ AtClose →
  existsb is_closing (slots m) = false.
Proof.
  intros [_ _ Ha] Hi Ht. destruct (existsb is_closing (slots m)) eqn:Hc; [|done].
  apply existsb_exists in Hc as (sl & Hin & Hsl).
  apply list_elem_of_In, list_elem_of_lookup_1 in Hin as [j Hj].
  destruct sl as [[]|]; try done.
  pose proof (Ha j i t Hj Hi) as ->. congruence.
Qed.

Lemma boot_handles n : handles_machine (boot (Args:=Args) [] n).
Proof.
  split; [split|]; cbn; try done.
  - intros ev c Hin. by apply elem_of_nil in Hin.
  - apply no_use_after_close_nil.
Qed.

Lemma step_handles sdk (u : turn Args) m :
  settled_machine m → handles_machine m → apart u m = true →
  handles_machine (step sdk u m).
Proof.
  intros Hm [Hk Ho] Hap. destruct u as [c|i0]; cbn [step].
  - destruct (call_disconnect_or c) as [->|Hc].
    + cbn in Hap. apply negb_true_iff, no_pending_no_closing in Hap.
      specialize (Ho Hap).
      pose proof (disconnect_begin_handles sdk _ Hk Ho) as Hk'.
      destruct (disconnect_begin_fields (inst m))
        as (s' & sl & Hb & _ & _ & Hsl).
      unfold piece, start in Hk' |- *. rewrite Hb in Hk' |- *.
      split; cbn [inst slots]; [done|].
      intros Hnc%existsb_snoc_false.
      destruct (client (inst m)); [by subst sl|by destruct Hsl as [_ ->]].
    + assert (existsb is_closing (slots m) = false) as Hnc.
      { destruct c; try done; cbn in Hap; by apply negb_true_iff in Hap. }
      destruct (start_handles sdk c _ Hc Hk (Ho Hnc)) as [Hk' Ho'].
      destruct (piece (start sdk c) (inst m)) as [s' sl]. by split.
  - destruct (slots m !! i0) as [[t0|]|] eqn:H0; [|by split..].
    destruct (task_close_or t0) as [->|Hnot].
    + destruct (disconnect_resume_handles sdk _ Hk) as [Hk' Ho'].
      destruct (piece (resume sdk AtClose) (inst m)) as [s' sl]. by split.
    + pose proof (no_closing_beside m i0 t0 Hm H0 Hnot) as Hnc.
      destruct (resume_handles sdk t0 _ Hnot Hk (Ho Hnc)) as [Hk' Ho'].
      destruct (piece (resume sdk t0) (inst m)) as [s' sl]. by split.
Qed.

Lemma exec_handles sdk ts m :
  settled_machine m → handles_machine m → disconnect_apart sdk ts m = true →
  handles_machine (exec sdk ts m).
Proof.
  revert m. induction ts as [|u ts IH]; intros m Hm Hh Hap; [done|].
  cbn in Hap. apply andb_true_iff in Hap as [Hu Hap].
  cbn. apply IH; [by apply step_settled|by apply step_handles|done].
Qed.

(** X1. When [disconnect] is kept apart from the other calls on the
    instance, a client that was closed is never used again, however the
    calls of [connect] and [callTool] overlap: after an event
    [ClientClose c] the trace holds no call of [connect], [callTool] or
    [close] on [c]. *)
Theorem closed_client_never_used sdk n ts l1 l2 c ev :
  disconnect_apart sdk ts (boot [] n) = true →
  trace (inst (exec sdk ts (boot [] n))) = l1 ++ ClientClose c :: l2 →
  ev ∈ l2 →
  uses c ev = false.
Proof.
  intros Hap Heq Hin.
  destruct (exec_handles sdk ts _ (boot_settled [] n) (boot_handles n) Hap)
    as [[_ _ Ht] _].
  by eapply Ht.
Qed.


End Facts.



Lemma closed_client_never_used_witness :
  disconnect_apart sdk_up overlapping_tool_calls (boot [] 0) = true ∧
  trace (inst (exec sdk_up overlapping_tool_calls (boot [] 0)))
  = take 16 (trace (inst (exec sdk_up overlapping_tool_calls (boot [] 0))))
    ++ ClientClose 3
    :: drop 17 (trace (inst (exec sdk_up overlapping_tool_calls (boot [] 0)))) ∧
  ClientCallTool 5 "get_tvl" [("protocol", "uniswap")]
  ∈ drop 17 (trace (inst (exec sdk_up overlapping_tool_calls (boot [] 0)))) ∧
  uses 3 (ClientCallTool 5 "get_tvl" [("protocol", "uniswap")]
          : event sample_args) = false.
Proof.
  assert (disconnect_apart sdk_up overlapping_tool_calls (boot [] 0) = true)
    as Hap by (vm_compute; reflexivity).
  assert (trace (inst (exec sdk_up overlapping_tool_calls (boot [] 0)))
          = take 16 (trace (inst (exec sdk_up overlapping_tool_calls (boot [] 0))))
            ++ ClientClose 3
            :: drop 17 (trace (inst (exec sdk_up overlapping_tool_calls (boot [] 0)))))
    as Heq by (vm_compute; reflexivity).
  assert (ClientCallTool 5 "get_tvl" [("protocol", "uniswap")]
          ∈ drop 17 (trace (inst (exec sdk_up overlapping_tool_calls (boot [] 0)))))
    as Hin.
  { let l := eval vm_compute in
      (drop 17 (trace (inst (exec sdk_up overlapping_tool_calls (boot [] 0))))) in
    assert (drop 17 (trace (inst (exec sdk_up overlapping_tool_calls (boot [] 0))))
            = l) as -> by (vm_compute; reflexivity).
    rewrite !elem_of_cons. auto 10. }
  split; [exact Hap|]. split; [exact Heq|]. split; [exact Hin|].
  exact (closed_client_never_used sdk_up 0 overlapping_tool_calls _ _ 3 _
           Hap Heq Hin).
Defined.

(** Without the proviso a closed client is used: a tool is called while
    [disconnect] awaits the SDK's [close], and the call goes to the
    client that has just been closed. *)
Example closed_client_used_when_overlapping :
  sdk_calls (exec sdk_up callTool_during_disconnect (boot [] 0))
  = [NewTransport MCP_SERVER_URL 0; NewClient "crew-defi-agent" "1.0.0" 1;
     ClientConnect 1 (Some 0); ClientClose 1; ClientCallTool 1 "get_tvl" []].
Proof. vm_compute. reflexivity. Qed.

(** Of two overlapping tool calls on a new instance each builds a client;
    both calls go to the second one, and the first is never closed. *)
Example overlapping_tool_calls_run :
  sdk_calls (exec sdk_up overlapping_tool_calls (boot [] 0))
  = [NewTransport MCP_SERVER_URL 0; NewClient "crew-defi-agent" "1.0.0" 1;
     ClientConnect 1 (Some 0);
     NewTransport MCP_SERVER_URL 2; NewClient "crew-defi-agent" "1.0.0" 3;
     ClientConnect 3 (Some 2);
     ClientCallTool 3 "get_chains" [];
     ClientCallTool 3 "get_tvl" [("protocol", "aave")];
     ClientClose 3;
     NewTransport MCP_SERVER_URL 4; NewClient "crew-defi-agent" "1.0.0" 5;
     ClientConnect 5 (Some 4);
     ClientCallTool 5 "get_tvl" [("protocol", "uniswap")]].
Proof. vm_compute. reflexivity. Qed.

End MCPAsyncFacts.

(** * More properties of the step loop *)

Module ExecutorMore.

Import Executor ExecutorOrder ExecutorFacts.

Ltac mem :=
  repeat (setoid_rewrite elem_of_app || setoid_rewrite elem_of_cons
          || setoid_rewrite elem_of_nil);
  naive_solver.

Section Facts.

Variable opts : Options.
Variable co : Collaborators.

Ltac pass_unfold :=
  cbv [pass record_call set_latestPlanOutput set_navigatorDone increment_step
       ask mbind mret eff_bind eff_ret gets modify throw].

(** A pass that goes on to the next one has made the calls of a full
    pass. *)
Lemma pass_continue_calls s s' :
  history opts co s →
  pass opts co s = (s', Returns None) →
  step s' = S (step s) ∧
  calls s' = calls s ++ calls_before_navigate opts co (step s)
                     ++ [CallNavigate (step s)].
Proof.
  intros [_ Hd _ _ _]. pass_unfold.
  destruct (step s <? maxSteps opts); cbn [negb]; [|done].
  destruct (shouldStop co (step s)); [done|].
  cbn [step navigatorDone latestPlanOutput calls emitted]. rewrite Hd.
  change (planning_gate (planningInterval opts) (step s)
            (prior_navigator_done co (step s)))
    with (gate_at opts co (step s)).
  unfold calls_before_navigate.
  destruct (gate_at opts co (step s)).
  - destruct (runPlanner co (step s)) as [out|e]; [|done]. cbn.
    destruct (checkTaskCompletion out); [done|].
    destruct (navigate co (step s)); [|done].
    intros [= <-]. cbn. split; [done|].
    rewrite <- ?(assoc_L (++)). reflexivity.
  - destruct (navigate co (step s)); [|done].
    intros [= <-]. cbn. split; [done|].
    rewrite <- ?(assoc_L (++)). reflexivity.
Qed.

Lemma calls_before_sorted i :
  StronglySorted call_before
    (calls_before_navigate opts co i ++ [CallNavigate i]).
Proof.
  unfold calls_before_navigate.
  destruct (gate_at opts co i); cbn;
    repeat (constructor; [|repeat constructor; right; cbn; lia]);
    constructor.
Qed.

Lemma tidy_next s s' :
  history opts co s → tidy s →
  pass opts co s = (s', Returns None) →
  tidy s'.
Proof.
  intros Hh [Hs Hl] Hp.
  destruct (pass_continue_calls s s' Hh Hp) as [Hstep Hcalls].
  split.
  - rewrite Hcalls. apply StronglySorted_app_2; [|done|apply calls_before_sorted].
    intros x1 x2 Hx1 Hx2. left.
    apply (hist_calls _ _ _ Hh) in Hx1.
    apply elem_of_app in Hx2 as [Hx2%calls_before_step
                                |Hx2%list_elem_of_singleton]; [lia|].
    subst x2. cbn. lia.
  - rewrite Hstep, Hcalls, !(assoc_L (++)). apply last_snoc.
Qed.

(** The loop is left in a last pass that follows a tidy record. *)
Lemma loop_tidy fuel s s' r :
  history opts co s → tidy s →
  loop opts co fuel s = (s', leaving r) →
  ∃ s0, history opts co s0 ∧ tidy s0 ∧ last_pass opts co s0 s' r.
Proof.
  revert s. induction fuel as [|fuel IH]; intros s Hh Ht.
  { cbn. by destruct r. }
  rewrite loop_S.
  destruct (pass_spec opts co s Hh)
    as [(s1 & Hp & Hh' & _)|(s1 & r1 & Hp & Hl)]; rewrite Hp.
  - intros Hloop. apply (IH s1); [done| |done].
    exact (tidy_next s s1 Hh Ht Hp).
  - destruct r1 as [e1|err1]; cbn; intros Heq;
      destruct r as [e|err]; simplify_eq/=; eauto.
Qed.

Lemma tidy_start taskId : tidy (start taskId).
Proof. split; [constructor|done]. Qed.

Lemma execute_tidy taskId fuel r :
  execute opts co taskId fuel = Some r →
  ∃ s0 s' o, r = conclude s' o ∧ history opts co s0 ∧ tidy s0 ∧
             last_pass opts co s0 s' o.
Proof.
  unfold execute.
  destruct (loop opts co fuel (start taskId)) as [s' [[e|]|err]] eqn:Hl;
    [| done |]; intros [= <-].
  - destruct (loop_tidy fuel (start taskId) s' (Returns e))
      as (s0 & ? & ? & ?); eauto 10 using history_start, tidy_start.
  - destruct (loop_tidy fuel (start taskId) s' (Throws err))
      as (s0 & ? & ? & ?); eauto 10 using history_start, tidy_start.
Qed.

Lemma sorted_extend s0 l :
  history opts co s0 → tidy s0 →
  StronglySorted call_before l →
  (∀ c, c ∈ l → call_step c = step s0) →
  StronglySorted call_before (calls s0 ++ l).
Proof.
  intros Hh [Hs _] Hl Hstep. apply StronglySorted_app_2; [|done|done].
  intros x1 x2 Hx1 Hx2. left.
  apply (hist_calls _ _ _ Hh) in Hx1. rewrite (Hstep _ Hx2). lia.
Qed.

(** X6. The calls of a run are in the order of the loop: pass by pass,
    and within a pass the cancellation check, then the Planner, then the
    Navigator. So no collaborator is called twice in a pass, the Planner
    of a pass always runs before its Navigator, and no pass starts before
    the one before has ended. *)
Theorem calls_in_order taskId fuel r :
  execute opts co taskId fuel = Some r →
  StronglySorted call_before (calls (final r)).
Proof.
  intros (s0 & s' & o & -> & Hh & Ht & Hl)%execute_tidy.
  rewrite calls_conclude.
  destruct Hl as [?|s' ? ? Hc ?|s' out ? ? ? ? ? ? Hc ?|s' e ? ? ? ? Hc ?
                  |s' e ? ? ? ? Hc ?]; [by destruct Ht|..]; rewrite Hc.
  - apply sorted_extend; [done|done|repeat constructor|].
    by intros c ->%list_elem_of_singleton.
  - apply sorted_extend; [done|done| |mem].
    repeat (constructor; [|repeat constructor; right; cbn; lia]). constructor.
  - apply sorted_extend; [done|done| |mem].
    repeat (constructor; [|repeat constructor; right; cbn; lia]). constructor.
  - apply sorted_extend; [done|done|apply calls_before_sorted|].
    intros c [?%calls_before_step| ->%list_elem_of_singleton]%elem_of_app; done.
Qed.

(** X7. The step budget bounds every collaborator: no cancellation
    check, Planner run or Navigator run happens at a step that is not
    below [maxSteps], and the Navigator runs at most [maxSteps] times. With
    [maxSteps = 0] nothing is called at all. *)
Theorem calls_within_budget taskId fuel r :
  execute opts co taskId fuel = Some r →
  (∀ c, c ∈ calls (final r) → call_step c < maxSteps opts) ∧
  length (navigations (calls (final r))) ≤ maxSteps opts ∧
  (maxSteps opts = 0 → calls (final r) = []).
Proof.
  intros (s0 & s' & o & -> & Hh & He & Hl)%execute_spec.
  rewrite calls_conclude.
  pose proof (hist_step _ _ _ Hh) as Hle.
  pose proof (hist_calls _ _ _ Hh) as Hb.
  pose proof (hist_navigations _ _ _ Hh) as Hn.
  assert (∀ c, c ∈ calls s' → call_step c < maxSteps opts) as Hbound.
  { intros c.
    destruct Hl as [?|s' ? ? Hc' ?|s' out ? ? ? ? ? ? Hc' ?|s' e ? ? ? ? Hc' ?
                    |s' e ? ? ? ? Hc' ?]; rewrite ?Hc'.
    - intros Hin%Hb. lia.
    - intros [Hin%Hb| ->%list_elem_of_singleton]%elem_of_app; cbn; lia.
    - intros [Hin%Hb|Hin]%elem_of_app; [lia|].
      assert (call_step c = step s0) as -> by (revert Hin; mem). done.
    - intros [Hin%Hb|Hin]%elem_of_app; [lia|].
      assert (call_step c = step s0) as -> by (revert Hin; mem). done.
    - intros [Hin%Hb|[Hin%calls_before_step| ->%list_elem_of_singleton]
                       %elem_of_app]%elem_of_app; cbn; lia. }
  split; [exact Hbound|]. split.
  - destruct Hl as [?|s' ? ? Hc ?|s' out ? ? ? ? ? ? Hc ?|s' e ? ? ? ? Hc ?
                    |s' e ? ? ? ? Hc ?]; rewrite ?Hc, ?navigations_app,
      ?navigations_before, ?Hn, ?length_app, ?length_seq; cbn; lia.
  - intros Hz. destruct (calls s') as [|c l] eqn:Hcs; [done|].
    assert (call_step c < maxSteps opts) by (apply Hbound; mem).
    lia.
Qed.

(** X8. When the budget is exhausted, the last thing that happened is
    the Navigator run of the last pass: the Planner is not run again, so a
    completion that the Navigator signals in pass [maxSteps - 1] is never
    checked. *)
Theorem exhausted_after_navigator taskId fuel r :
  execute opts co taskId fuel = Some r →
  outcome_of_loop r = Returns Exhausted →
  0 < maxSteps opts →
  step (final r) = maxSteps opts ∧
  last (calls (final r)) = Some (CallNavigate (maxSteps opts - 1)) ∧
  (∃ b, navigate co (maxSteps opts - 1) = Returns b).
Proof.
  intros (s0 & s' & o & -> & Hh & Ht & Hl)%execute_tidy Ho Hpos.
  cbn in Ho. subst o. rewrite calls_conclude. cbn [final conclude publish step].
  inversion Hl as [Hle| | | |]; subst.
  pose proof (hist_step _ _ _ Hh) as Hle'.
  assert (step s' = maxSteps opts) as Heq by lia.
  split; [done|]. destruct Ht as [_ Hlast]. rewrite Heq in Hlast.
  destruct (maxSteps opts) as [|n] eqn:Hn; [lia|].
  replace (S n - 1) with n by lia. split; [done|].
  destruct (hist_passes _ _ _ Hh n) as (_ & _ & _ & Hb & _); [lia|done].
Qed.

(** X9. Once a stop is observed no agent is invoked: a run that is
    stopped ends with the cancellation check of the pass [i] it was
    stopped in, neither the Planner nor the Navigator runs in that pass,
    and every pass before it went past its check. *)
Theorem stop_ends_run taskId fuel r :
  execute opts co taskId fuel = Some r →
  outcome_of_loop r = Returns Stopped →
  ∃ i, shouldStop co i = true ∧
       last (calls (final r)) = Some (CallShouldStop i) ∧
       (CallRunPlanner i ∉ calls (final r)) ∧
       (CallNavigate i ∉ calls (final r)) ∧
       (∀ j, j < i → shouldStop co j = false ∧ CallNavigate j ∈ calls (final r)).
Proof.
  intros (s0 & s' & o & -> & Hh & He & Hl)%execute_spec Ho.
  cbn in Ho. subst o. rewrite calls_conclude.
  pose proof (hist_calls _ _ _ Hh) as Hb.
  inversion Hl as [|s1 Hlt Hs Hc Hem| | |]; subst.
  exists (step s0). rewrite Hc, last_snoc.
  split; [done|]. split; [done|]. split; [|split].
  - intros [Hin%Hb|Hin%list_elem_of_singleton]%elem_of_app; [cbn in Hin; lia|done].
  - intros [Hin%Hb|Hin%list_elem_of_singleton]%elem_of_app; [cbn in Hin; lia|done].
  - intros j Hj. destruct (hist_passes _ _ _ Hh j Hj) as (? & _ & ? & _).
    split; [done|]. mem.
Qed.

(** X10. With [planningInterval = 0] the remainder test never holds: the
    Planner runs only after a Navigator run that signalled completion. If
    the Navigator never does, the Planner is never run and the loop is
    never left by a completion. *)
Theorem interval_zero_needs_navigator taskId fuel r :
  execute opts co taskId fuel = Some r →
  planningInterval opts = 0 →
  (∀ i, navigate co i ≠ Returns true) →
  (∀ i, CallRunPlanner i ∉ calls (final r)) ∧
  outcome_of_loop r ≠ Returns PlannerDone.
Proof.
  intros (s0 & s' & o & -> & Hh & He & Hl)%execute_spec Hk Hnav.
  assert (∀ i, gate_at opts co i = false) as Hgate.
  { intros i. unfold gate_at, planning_gate. rewrite Hk. cbn.
    destruct i as [|j]; [done|]. cbn.
    destruct (navigate co j) as [[]|] eqn:Hn; [|done|done].
    by destruct (Hnav j). }
  rewrite calls_conclude. cbn [outcome_of_loop conclude].
  pose proof (hist_calls _ _ _ Hh) as Hb.
  assert (∀ i, CallRunPlanner i ∉ calls s0) as Hold.
  { intros i Hin. pose proof (Hb _ Hin) as Hlt. cbn in Hlt.
    destruct (hist_passes _ _ _ Hh i Hlt) as (_ & _ & _ & _ & Hiff & _).
    apply Hiff in Hin. by rewrite Hgate in Hin. }
  destruct Hl as [?|s' ? ? Hc ?|s' out ? ? Hg ? ? ? Hc ?|s' e ? ? Hg ? Hc ?
                  |s' e ? ? ? ? Hc ?]; rewrite ?Hc;
    try (by rewrite Hgate in Hg); (split; [|done]); intros i.
  - apply Hold.
  - intros [Hin|Hin%list_elem_of_singleton]%elem_of_app; [by eapply Hold|done].
  - unfold calls_before_navigate. rewrite Hgate.
    intros [Hin|Hin]%elem_of_app; [by eapply Hold|]. revert Hin. mem.
Qed.

End Facts.

Lemma calls_in_order_witness :
  ∃ r, execute opts_10_5 co_title "task-1" 11 = Some r ∧
       StronglySorted call_before (calls (final r)).
Proof.
  destruct (execute opts_10_5 co_title "task-1" 11) as [r|] eqn:Hr;
    [|vm_compute in Hr; discriminate Hr].
  exists r. split; [reflexivity|].
  exact (calls_in_order opts_10_5 co_title "task-1" 11 r Hr).
Defined.

Lemma calls_within_budget_witness :
  ∃ r, execute opts_3_1 co_auth_failure "task-3" 4 = Some r ∧
       (∀ c, c ∈ calls (final r) → call_step c < maxSteps opts_3_1) ∧
       length (navigations (calls (final r))) ≤ maxSteps opts_3_1 ∧
       (maxSteps opts_3_1 = 0 → calls (final r) = []).
Proof.
  destruct (execute opts_3_1 co_auth_failure "task-3" 4) as [r|] eqn:Hr;
    [|vm_compute in Hr; discriminate Hr].
  exists r. split; [reflexivity|].
  exact (calls_within_budget opts_3_1 co_auth_failure "task-3" 4 r Hr).
Defined.

Lemma exhausted_after_navigator_witness :
  ∃ r, execute opts_10_5 co_navigator_only "task-2" 11 = Some r ∧
       outcome_of_loop r = Returns Exhausted ∧
       0 < maxSteps opts_10_5 ∧
       step (final r) = maxSteps opts_10_5 ∧
       last (calls (final r)) = Some (CallNavigate (maxSteps opts_10_5 - 1)) ∧
       (∃ b, navigate co_navigator_only (maxSteps opts_10_5 - 1) = Returns b).
Proof.
  destruct (execute opts_10_5 co_navigator_only "task-2" 11) as [r|] eqn:Hr;
    [|vm_compute in Hr; discriminate Hr].
  assert (outcome_of_loop r = Returns Exhausted) as Ho.
  { vm_compute in Hr. by injection Hr as <-. }
  assert (0 < maxSteps opts_10_5) as Hpos by (cbn; lia).
  exists r. split; [reflexivity|]. split; [exact Ho|]. split; [exact Hpos|].
  exact (exhausted_after_navigator opts_10_5 co_navigator_only "task-2" 11 r
           Hr Ho Hpos).
Defined.

Lemma stop_ends_run_witness :
  ∃ r, execute opts_3_1 co_stopped "task" 4 = Some r ∧
       outcome_of_loop r = Returns Stopped ∧
       ∃ i, shouldStop co_stopped i = true ∧
            last (calls (final r)) = Some (CallShouldStop i) ∧
            (CallRunPlanner i ∉ calls (final r)) ∧
            (CallNavigate i ∉ calls (final r)) ∧
            (∀ j, j < i → shouldStop co_stopped j = false ∧
                          CallNavigate j ∈ calls (final r)).
Proof.
  destruct (execute opts_3_1 co_stopped "task" 4) as [r|] eqn:Hr;
    [|vm_compute in Hr; discriminate Hr].
  assert (outcome_of_loop r = Returns Stopped) as Ho.
  { vm_compute in Hr. by injection Hr as <-. }
  exists r. split; [reflexivity|]. split; [exact Ho|].
  exact (stop_ends_run opts_3_1 co_stopped "task" 4 r Hr Ho).
Defined.

Lemma interval_zero_needs_navigator_witness :
  ∃ r, execute opts_3_0 co_never_done "task-4" 4 = Some r ∧
       planningInterval opts_3_0 = 0 ∧
       (∀ i, navigate co_never_done i ≠ Returns true) ∧
       (∀ i, CallRunPlanner i ∉ calls (final r)) ∧
       outcome_of_loop r ≠ Returns PlannerDone.
Proof.
  destruct (execute opts_3_0 co_never_done "task-4" 4) as [r|] eqn:Hr;
    [|vm_compute in Hr; discriminate Hr].
  assert (∀ i, navigate co_never_done i ≠ Returns true) as Hnav by done.
  exists r. split; [reflexivity|]. split; [reflexivity|]. split; [exact Hnav|].
  exact (interval_zero_needs_navigator opts_3_0 co_never_done "task-4" 4 r
           Hr eq_refl Hnav).
Defined.

End ExecutorMore.

(** * More properties of the agents *)

Module MoreAgentFacts.

Import Agent MoreAgents.

(** What the body of the [try] leaves in the context. *)
Lemma execute_body_effects env s :
  match execute_body env s with
  | (s', Returns v) =>
      s' = {| actionResults :=
                actionResults s
                  ++ [{| isDone := false; success := true;
                         extractedContent := Some (JSON_stringify env v);
                         result_error := None; includeInMemory := true;
                         interactedElement := None |}];
              published :=
                published s
                  ++ [mkEvent SYSTEM STEP_START "DeFi Agent analyzing protocol...";
                      mkEvent SYSTEM STEP_OK
                        ("DeFi Analysis: " +:+ protocol_name v +:+ " - Risk: "
                         +:+ RiskLevel_text (risk_level v) +:+ " - "
                         +:+ RecommendedAction_text (recommended_action v))] |}
  | (s', Throws _) =>
      s' = {| actionResults := actionResults s;
              published :=
                published s
                  ++ [mkEvent SYSTEM STEP_START
                        "DeFi Agent analyzing protocol..."] |}
  end.
Proof.
  unfold execute_body.
  cbv [emitEvent push_result ask mbind mret eff_bind eff_ret modify throw].
  destruct (getState env) as [browserState|e]; [|done].
  destruct (visibleText browserState) as [pageText|e]; [|done].
  destruct (getMessages env) as [messages|e]; [|done].
  destruct (getSystemMessage env) as [system|e]; [|done].
  destruct (invoke env _) as [[v|]|e]; [|done..].
  cbn [actionResults published]. by rewrite <- (assoc_L (++)).
Qed.

(** X11. What [DeFiAgent.execute] leaves in the shared context. It
    always publishes [STEP_START]. It records an action result, the JSON
    of the analysis, exactly when it returns a result, and then publishes
    [STEP_OK]. When it returns an error it publishes [STEP_FAIL] with the
    message and records nothing. When it rethrows a fatal error it
    publishes nothing more and records nothing. *)
Theorem execute_effects env s :
  match execute env s with
  | (s', Returns out) =>
      match result out with
      | Some v =>
          error out = None ∧
          actionResults s'
          = actionResults s
              ++ [{| isDone := false; success := true;
                     extractedContent := Some (JSON_stringify env v);
                     result_error := None; includeInMemory := true;
                     interactedElement := None |}] ∧
          published s'
          = published s
              ++ [mkEvent SYSTEM STEP_START "DeFi Agent analyzing protocol...";
                  mkEvent SYSTEM STEP_OK
                    ("DeFi Analysis: " +:+ protocol_name v +:+ " - Risk: "
                     +:+ RiskLevel_text (risk_level v) +:+ " - "
                     +:+ RecommendedAction_text (recommended_action v))]
      | None =>
          actionResults s' = actionResults s ∧
          ∃ msg, error out = Some msg ∧
                 published s'
                 = published s
                     ++ [mkEvent SYSTEM STEP_START "DeFi Agent analyzing protocol...";
                         mkEvent SYSTEM STEP_FAIL ("DeFi analysis failed: " +:+ msg)]
      end
  | (s', Throws _) =>
      actionResults s' = actionResults s ∧
      published s'
      = published s
          ++ [mkEvent SYSTEM STEP_START "DeFi Agent analyzing protocol..."]
  end.
Proof.
  pose proof (execute_body_effects env s) as Hb.
  unfold execute, try_catch. cbv [mbind eff_bind mret eff_ret].
  destruct (execute_body env s) as [s0 [v|e]]; subst s0; [done|].
  unfold execute_handler.
  cbv [emitEvent mbind eff_bind mret eff_ret modify throw].
  destruct (isAbortedError env e); [done|].
  destruct (isAuthenticationError env e); [done|].
  destruct (isBadRequestError env e); [done|].
  destruct (isForbiddenError env e); [done|].
  cbn. split; [done|]. eexists. split; [done|].
  by rewrite <- (assoc_L (++)).
Qed.

(** X12. What leaves [analyzeProtocol]. An output it returns has
    exactly one of [result] and [error]. What it throws is either what the
    navigation threw, passed on as it is with the context untouched, or
    one of the four fatal errors of [execute]; a failed navigation never
    comes back as an output with an [error]. *)
Theorem analyzeProtocol_outcomes env navigate url s :
  match analyzeProtocol env navigate url s with
  | (s', Returns out) =>
      navigate url = Returns tt ∧ id out = this_id env ∧ exactly_one out = true
  | (s', Throws e) =>
      (navigate url = Throws e ∧ s' = s) ∨
      (navigate url = Returns tt ∧
       e ∈ [ErrorObj RequestCancelledError "DeFi analysis was cancelled";
            ErrorObj ChatModelAuthError "Authentication failed for DeFi analysis";
            ErrorObj ChatModelBadRequestError "Invalid request for DeFi analysis";
            ErrorObj ChatModelForbiddenError "Access forbidden for DeFi analysis"])
  end.
Proof.
  unfold analyzeProtocol. cbv [mbind eff_bind ask throw mret eff_ret].
  destruct (navigate url) as [[]|e0]; [|by left].
  destruct (AgentFacts.execute_cases env s)
    as [(s' & v & _ & ->)|(s0 & e & _ & ->)]; [done|].
  pose proof (AgentFacts.execute_handler_cases env e s0) as Hh.
  destruct (classify env e).
  - rewrite Hh. right. split; [done|]. set_solver.
  - rewrite Hh. right. split; [done|]. set_solver.
  - rewrite Hh. right. split; [done|]. set_solver.
  - rewrite Hh. right. split; [done|]. set_solver.
  - destruct Hh as [s' ->]. done.
Qed.

Lemma validator_cases env s :
  (∃ o, validator_body env s = (s, Returns o) ∧
        validator_execute env s
        = (s, Returns {| id := validator_id env; result := o; error := None |})) ∨
  (∃ e, validator_body env s = (s, Throws e) ∧
        validator_execute env s
        = (s, Returns {| id := validator_id env; result := None;
                         error := Some (error_message e) |})).
Proof.
  cbv [validator_execute validator_body try_catch ask
       mbind mret eff_bind eff_ret gets throw].
  repeat case_match; simplify_eq/=; eauto.
Qed.

(** X13. [ValidatorAgent.execute] never throws and leaves the context
    as it is: every error inside it, a cancellation or an authentication
    failure included, comes back in the [error] field. Its output never
    has both [result] and [error]; it has neither exactly when the model
    call resolved to [null]. *)
Theorem validator_execute_swallows env s :
  ∃ out,
    validator_execute env s = (s, Returns out) ∧
    id out = validator_id env ∧
    (∀ s0 e, validator_body env s = (s0, Throws e) →
             result out = None ∧ error out = Some (error_message e)) ∧
    ¬ (is_Some (result out) ∧ is_Some (error out)) ∧
    (exactly_one out = false ↔ ∃ s0, validator_body env s = (s0, Returns None)).
Proof.
  destruct (validator_cases env s) as [(o & Hb & ->)|(e & Hb & ->)];
    eexists; (split; [reflexivity|]); cbn; (split; [reflexivity|]); rewrite Hb.
  - split; [by intros ? ? [=]|]. split; [by intros [_ [? [=]]]|].
    destruct o; cbn; split; try done.
    + by intros [? [=]].
    + eauto.
  - split; [by intros ? ? [= _ <-]|]. split; [by intros [[? [=]] _]|].
    split; [done|by intros [? [=]]].
Qed.

(** X14. [YourAgent.execute] never throws and its output always has
    exactly one of [result] and [error]. [STEP_START] is always
    published; a failure publishes nothing else, so the panel is not told
    of it. *)
Theorem your_execute_total env s :
  ∃ s' out,
    your_execute env s = (s', Returns out) ∧
    exactly_one out = true ∧
    actionResults s' = actionResults s ∧
    match result out with
    | Some v =>
        published s'
        = published s
            ++ [mkEvent SYSTEM STEP_START "Analyzing...";
                mkEvent SYSTEM STEP_OK ("Analysis complete: " +:+ recommendation v)]
    | None =>
        published s' = published s ++ [mkEvent SYSTEM STEP_START "Analyzing..."]
    end.
Proof.
  cbv [your_execute your_body try_catch ask emitEvent
       mbind mret eff_bind eff_ret gets modify throw].
  repeat case_match; simplify_eq/=; eexists _, _; (split; [reflexivity|]);
    cbn; rewrite <- ?(assoc_L (++)); done.
Qed.

(** The samples, run. *)

Example validator_swallows_cancellation :
  validator_execute validator_cancelled context_with_failure
  = (context_with_failure,
     Returns {| id := "validator"; result := None;
                error := Some "The operation was aborted" |}).
Proof. vm_compute. reflexivity. Qed.

Example validator_null_output :
  validator_execute validator_null context_with_failure
  = (context_with_failure,
     Returns {| id := "validator"; result := None; error := None |}).
Proof. vm_compute. reflexivity. Qed.

Example validationQuery_sample :
  validationQuery [failed_click] "https://app.aave.com"
  = LF +:+ "Recent actions:" +:+ LF
    +:+ "- Success: false, Error: Element not found" +:+ LF +:+ LF
    +:+ "Current URL: https://app.aave.com" +:+ LF +:+ LF
    +:+ "Validate if the recent actions achieved their intended goals." +:+ LF.
Proof. vm_compute. reflexivity. Qed.

Example analyzeProtocol_timeout :
  analyzeProtocol env_answering navigate_timeout "https://app.aave.com"
    empty_context
  = (empty_context,
     Throws (ErrorObj Error "Navigation timeout: https://app.aave.com")).
Proof. vm_compute. reflexivity. Qed.

End MoreAgentFacts.

(** * Properties of the Executor with the DeFi agent *)

Module DeFiExecutorFacts.

Import Agent DeFiExecutor.

Lemma string_app_nil (b : string) : "" +:+ b = b.
Proof. reflexivity. Qed.

Lemma string_app_cons x (a b : string) : String x a +:+ b = String x (a +:+ b).
Proof. reflexivity. Qed.

Lemma string_app_assoc (a b c : string) : (a +:+ b) +:+ c = a +:+ (b +:+ c).
Proof.
  induction a as [|x a IH]; [done|].
  by rewrite !string_app_cons, IH.
Qed.

Lemma prefix_spec (p s : string) :
  String.prefix p s = true ↔ ∃ rest, s = p +:+ rest.
Proof.
  revert s. induction p as [|x p IH]; intros s.
  - destruct s; cbn; split; eauto.
  - destruct s as [|y s]; cbn [String.prefix].
    + split; [done|]. by intros [rest [=]].
    + setoid_rewrite string_app_cons.
      destruct (Ascii.ascii_dec x y) as [->|Hne].
      * rewrite IH. split; intros [rest Hr]; exists rest; congruence.
      * split; [done|]. intros [rest [= ? ?]]. done.
Qed.

Lemma includes_spec (s needle : string) :
  includes s needle = true ↔ ∃ pre post, s = pre +:+ needle +:+ post.
Proof.
  induction s as [|x s IH]; cbn [includes].
  - destruct (String.prefix needle "") eqn:Hp.
    + split; [intros _|done]. apply prefix_spec in Hp as [rest Hr].
      by exists "", rest.
    + split; [done|]. intros (pre & post & Heq).
      destruct pre; [|done]. rewrite string_app_nil in Heq.
      assert (String.prefix needle "" = true) as Hp'
        by (apply prefix_spec; eauto).
      congruence.
  - destruct (String.prefix needle (String x s)) eqn:Hp.
    + split; [intros _|done]. apply prefix_spec in Hp as [rest Hr].
      by exists "", rest.
    + rewrite IH. split.
      * intros (pre & post & ->). by exists (String x pre), post.
      * intros (pre & post & Heq). destruct pre as [|y pre].
        -- rewrite string_app_nil in Heq.
           assert (String.prefix needle (String x s) = true) as Hp'
             by (apply prefix_spec; eauto).
           congruence.
        -- rewrite string_app_cons in Heq. injection Heq as -> ->. eauto.
Qed.

Lemma ascii_lower_app (a b : string) :
  ascii_lower (a +:+ b) = ascii_lower a +:+ ascii_lower b.
Proof.
  induction a as [|x a IH]; [done|].
  rewrite string_app_cons. cbn [ascii_lower]. by rewrite IH.
Qed.

Lemma ascii_lower_split (t a b : string) :
  ascii_lower t = a +:+ b →
  ∃ a' b', t = a' +:+ b' ∧ ascii_lower a' = a ∧ ascii_lower b' = b.
Proof.
  revert t. induction a as [|x a IH]; intros t Ht.
  - by exists "", t.
  - destruct t as [|y t]; [done|].
    rewrite string_app_cons in Ht. cbn [ascii_lower] in Ht.
    injection Ht as <- Ht.
    destruct (IH t Ht) as (a' & b' & -> & <- & <-).
    by exists (String y a'), b'.
Qed.

Lemma existsb_elem_of {A} (f : A → bool) (l : list A) :
  existsb f l = true ↔ ∃ x, x ∈ l ∧ f x = true.
Proof.
  rewrite existsb_exists. by setoid_rewrite list_elem_of_In.
Qed.

Lemma slice_last_app {A} (n : nat) (older recent : list A) :
  n ≤ length recent → slice_last n (older ++ recent) = slice_last n recent.
Proof.
  intros Hn. unfold slice_last. rewrite length_app.
  replace (length older + length recent - n)
    with (length older + (length recent - n)) by lia.
  by rewrite drop_app_add.
Qed.

(** What [execute] publishes are step events. *)
Lemma execute_publishes env s :
  ∃ evs, published (execute env s).1 = published s ++ evs ∧
         Forall (λ ev, ev_state ev ≠ TASK_FAIL) evs.
Proof.
  pose proof (MoreAgentFacts.execute_body_effects env s) as Hb.
  unfold execute, try_catch. cbv [mbind eff_bind mret eff_ret].
  destruct (execute_body env s) as [s0 [v|e]]; subst s0.
  { eexists. split; [reflexivity|]. by repeat constructor. }
  unfold execute_handler.
  cbv [emitEvent mbind eff_bind mret eff_ret modify throw].
  destruct (isAbortedError env e);
    [eexists; split; [reflexivity|]; by repeat constructor|].
  destruct (isAuthenticationError env e);
    [eexists; split; [reflexivity|]; by repeat constructor|].
  destruct (isBadRequestError env e);
    [eexists; split; [reflexivity|]; by repeat constructor|].
  destruct (isForbiddenError env e);
    [eexists; split; [reflexivity|]; by repeat constructor|].
  cbn. rewrite <- (assoc_L (++)).
  eexists. split; [reflexivity|]. by repeat constructor.
Qed.

Section Facts.

Variable toLowerCase : string → string.

(** X15. On ASCII text [checkIfDeFiTask] is a search for substrings
    without regard to case: a task is a DeFi task exactly when some part
    of it, lower-cased, is one of the keywords. The part need not be a
    word of the task. *)
Theorem checkIfDeFiTask_substring task :
  (∀ s, is_ascii s = true → toLowerCase s = ascii_lower s) →
  is_ascii task = true →
  checkIfDeFiTask toLowerCase task = true ↔
  ∃ pre part post,
    task = pre +:+ part +:+ post ∧ ascii_lower part ∈ defiKeywords.
Proof.
  intros Hlow Hascii. unfold checkIfDeFiTask. rewrite (Hlow task Hascii).
  rewrite existsb_elem_of. split.
  - intros (keyword & Hk & (pre & post & Heq)%includes_spec).
    apply ascii_lower_split in Heq as (pre' & rest & -> & _ & Hrest).
    apply ascii_lower_split in Hrest as (part & post' & -> & <- & _).
    by exists pre', part, post'.
  - intros (pre & part & post & -> & Hk).
    exists (ascii_lower part). split; [done|].
    apply includes_spec. rewrite !ascii_lower_app. eauto.
Qed.

(** X16. [shouldRunDeFiRecheck] only looks at the last three action
    results: whatever was recorded before them does not matter. *)
Theorem recheck_looks_at_last_three older recent :
  3 ≤ length recent →
  shouldRunDeFiRecheck (older ++ recent) = shouldRunDeFiRecheck recent.
Proof.
  intros Hn. unfold shouldRunDeFiRecheck. by rewrite slice_last_app.
Qed.

(** X17. The record of a successful analysis is itself one of the three
    results that [shouldRunDeFiRecheck] looks at next: after
    [DeFiAgent.execute] returned a result, a recheck is due exactly when
    one of the two results before mentions a navigation or the JSON of
    the analysis does. *)
Theorem recheck_after_analysis env s s' out v :
  execute env s = (s', Returns out) →
  result out = Some v →
  shouldRunDeFiRecheck (actionResults s')
  = existsb mentions_navigation (slice_last 2 (actionResults s))
    || (includes (JSON_stringify env v) "go_to_url"
        || includes (JSON_stringify env v) "switch_tab").
Proof.
  intros Hx Hres.
  assert (actionResults s'
          = actionResults s
              ++ [{| isDone := false; success := true;
                     extractedContent := Some (JSON_stringify env v);
                     result_error := None; includeInMemory := true;
                     interactedElement := None |}]) as ->.
  { pose proof (MoreAgentFacts.execute_body_effects env s) as Hb. revert Hx.
    unfold execute, try_catch. cbv [mbind eff_bind mret eff_ret].
    destruct (execute_body env s) as [s0 [v0|e]]; subst s0.
    - intros [= <- <-]. cbn in Hres. by injection Hres as ->.
    - unfold execute_handler.
      cbv [emitEvent mbind eff_bind mret eff_ret modify throw].
      destruct (isAbortedError env e); [done|].
      destruct (isAuthenticationError env e); [done|].
      destruct (isBadRequestError env e); [done|].
      destruct (isForbiddenError env e); [done|].
      intros [= <- <-]. done. }
  unfold shouldRunDeFiRecheck, slice_last.
  rewrite length_app. cbn [length].
  replace (length (actionResults s) + 1 - 3)
    with (length (actionResults s) - 2) by lia.
  rewrite drop_app_le by lia.
  rewrite existsb_app. cbn. by rewrite orb_false_r.
Qed.

(** X18. Before the loop, the task is halted only on a successful
    analysis with risk [Critical] and recommendation [Do Not Proceed], and
    then [TASK_FAIL] is the last event. Without the agent, or for a task
    that is no DeFi task, the agent is not run. An analysis that fails
    with a returned error, or advises against proceeding at a lower risk,
    lets the task enter the loop without a [TASK_FAIL]. The part throws
    when there is no task, even without an agent, and when the agent
    throws. *)
Theorem prologue_halts_on_critical defi taskId tasks s :
  let s0 := (emitEvent SYSTEM TASK_START taskId s).1 in
  match execute_prologue toLowerCase defi taskId tasks s with
  | (s', Returns Halted) =>
      ∃ agent task out v,
        defi = Some agent ∧ last tasks = Some task ∧
        checkIfDeFiTask toLowerCase task = true ∧
        (execute agent s0).2 = Returns out ∧ result out = Some v ∧
        risk_level v = Critical ∧ recommended_action v = DoNotProceed ∧
        last (published s')
        = Some (mkEvent SYSTEM TASK_FAIL
                  "Critical risk detected in DeFi protocol. Task halted for safety.")
  | (s', Returns EntersLoop) =>
      (∃ task, last tasks = Some task ∧
               (defi = None ∨ checkIfDeFiTask toLowerCase task = false →
                s' = s0)) ∧
      ∃ evs, published s' = published s ++ evs ∧
             Forall (λ ev, ev_state ev ≠ TASK_FAIL) evs
  | (s', Throws e) =>
      (tasks = [] ∧ e = no_task ∧ s' = s0) ∨
      ∃ agent task,
        defi = Some agent ∧ last tasks = Some task ∧
        checkIfDeFiTask toLowerCase task = true ∧
        execute agent s0 = (s', Throws e)
  end.
Proof.
  intros s0. unfold execute_prologue. cbv [mbind eff_bind].
  change (emitEvent SYSTEM TASK_START taskId s) with (s0, Returns tt).
  assert (published s0 = published s ++ [mkEvent SYSTEM TASK_START taskId])
    as Hs0 by done.
  assert (∃ evs, published s0 = published s ++ evs ∧
                 Forall (λ ev, ev_state ev ≠ TASK_FAIL) evs) as Hstart.
  { eexists. split; [exact Hs0|]. by repeat constructor. }
  clearbody s0.
  destruct (last tasks) as [task|] eqn:Hlast; cbv [mret eff_ret throw].
  2: { left. apply last_None in Hlast. done. }
  destruct (checkIfDeFiTask toLowerCase task) eqn:Hcheck.
  2: { split; [|done]. exists task. by destruct defi. }
  destruct defi as [agent|].
  2: { split; [|done]. by exists task. }
  destruct (execute_publishes agent s0) as (evs & Hpub & Hevs).
  destruct (execute agent s0) as [s1 [out|e]] eqn:Hx.
  2: { right. by exists agent, task. }
  assert (∃ evs, published s1 = published s ++ evs ∧
                 Forall (λ ev, ev_state ev ≠ TASK_FAIL) evs) as Hgo.
  { exists ([mkEvent SYSTEM TASK_START taskId] ++ evs).
    cbn [fst] in Hpub. rewrite Hpub, Hs0, <- (assoc_L (++)). split; [done|].
    apply Forall_app. split; [by repeat constructor|done]. }
  assert (∃ task0, Some task = Some task0 ∧
            (Some agent = None ∨ checkIfDeFiTask toLowerCase task0 = false →
             s1 = s0)) as Hno.
  { exists task. split; [done|]. intros [?|?]; congruence. }
  destruct (result out) as [v|] eqn:Hres; [|by split].
  destruct (risk_level v) eqn:Hrisk; try (cbn; by split).
  destruct (recommended_action v) eqn:Hact; try (cbn; by split).
  cbn. exists agent, task, out, v. rewrite last_snoc, Hx. done.
Qed.

End Facts.

(** The samples, run, with the ASCII part of [toLowerCase]. *)

Example april_is_a_defi_task :
  checkIfDeFiTask ascii_lower "Book a flight for April" = true.
Proof. vm_compute. reflexivity. Qed.

Example weather_is_no_defi_task :
  checkIfDeFiTask ascii_lower "What is the weather in Paris?" = false.
Proof. vm_compute. reflexivity. Qed.

Example critical_analysis_halts :
  (execute_prologue ascii_lower (Some env_critical) "task-7"
     ["Open example.org"; "Stake on sketchy-defi-project.xyz"]
     empty_context).2
  = Returns Halted.
Proof. vm_compute. reflexivity. Qed.

Lemma checkIfDeFiTask_substring_witness :
  (∀ s, is_ascii s = true → ascii_lower s = ascii_lower s) ∧
  is_ascii "Fix my MISTAKE" = true ∧
  (checkIfDeFiTask ascii_lower "Fix my MISTAKE" = true ↔
   ∃ pre part post,
     "Fix my MISTAKE" = pre +:+ part +:+ post ∧
     ascii_lower part ∈ defiKeywords).
Proof.
  split; [done|]. split; [reflexivity|].
  exact (checkIfDeFiTask_substring ascii_lower "Fix my MISTAKE"
           (λ _ _, eq_refl) eq_refl).
Defined.

Lemma recheck_looks_at_last_three_witness :
  3 ≤ length [click_result; click_result; click_result] ∧
  shouldRunDeFiRecheck
    ([navigation_result] ++ [click_result; click_result; click_result])
  = shouldRunDeFiRecheck [click_result; click_result; click_result].
Proof.
  assert (3 ≤ length [click_result; click_result; click_result]) as Hn
    by (cbn; lia).
  split; [exact Hn|].
  exact (recheck_looks_at_last_three [navigation_result]
           [click_result; click_result; click_result] Hn).
Defined.

Lemma recheck_after_analysis_witness :
  execute env_answering context_after_navigation
  = ((execute env_answering context_after_navigation).1,
     Returns {| id := "defi"; result := Some sample_analysis; error := None |}) ∧
  shouldRunDeFiRecheck
    (actionResults (execute env_answering context_after_navigation).1)
  = existsb mentions_navigation
      (slice_last 2 (actionResults context_after_navigation))
    || (includes (JSON_stringify env_answering sample_analysis) "go_to_url"
        || includes (JSON_stringify env_answering sample_analysis) "switch_tab").
Proof.
  assert (execute env_answering context_after_navigation
          = ((execute env_answering context_after_navigation).1,
             Returns {| id := "defi"; result := Some sample_analysis;
                        error := None |})) as Hx
    by (vm_compute; reflexivity).
  split; [exact Hx|].
  exact (recheck_after_analysis env_answering context_after_navigation
           _ _ sample_analysis Hx eq_refl).
Defined.

(** In that run the navigation is the fourth result from the end once the
    analysis is recorded, and no recheck is due. *)
Example navigation_leaves_the_window :
  shouldRunDeFiRecheck (actionResults context_after_navigation) = true ∧
  shouldRunDeFiRecheck
    (actionResults (execute env_answering context_after_navigation).1)
  = false.
Proof. split; vm_compute; reflexivity. Qed.

End DeFiExecutorFacts.

(** * Properties of the DeFi actions *)

Module DeFiActionFacts.

Import Agent DeFiExecutor DeFiActions DeFiExecutorFacts.

Lemma is_ascii_app (a b : string) :
  is_ascii (a +:+ b) = is_ascii a && is_ascii b.
Proof.
  induction a as [|x a IH]; [done|].
  rewrite string_app_cons. cbn [is_ascii]. by rewrite IH, andb_assoc.
Qed.

Lemma no_LF_app (a b : string) : no_LF (a +:+ b) = no_LF a && no_LF b.
Proof.
  induction a as [|x a IH]; [done|].
  rewrite string_app_cons. cbn [no_LF]. by rewrite IH, andb_assoc.
Qed.

Lemma lower_ascii_LF (a : Ascii.ascii) :
  Ascii.eqb (lower_ascii a) (Ascii.ascii_of_nat 10)
  = Ascii.eqb a (Ascii.ascii_of_nat 10).
Proof. by destruct a as [[] [] [] [] [] [] [] []]. Qed.

Lemma no_LF_lower (s : string) : no_LF (ascii_lower s) = no_LF s.
Proof.
  induction s as [|x s IH]; [done|].
  cbn [ascii_lower no_LF]. by rewrite lower_ascii_LF, IH.
Qed.

Lemma split_LF_cons (s : string) : ∃ line lines, split_LF s = line :: lines.
Proof.
  induction s as [|x s (l & ls & IH)]; cbn [split_LF]; [by eauto|].
  destruct (Ascii.eqb x _); [by eauto|]. rewrite IH. eauto.
Qed.

(** The first line is the text up to the first line feed. *)
Lemma split_LF_first (s line : string) lines :
  split_LF s = line :: lines → ∃ rest, s = line +:+ rest.
Proof.
  revert line lines. induction s as [|x s IH]; intros line lines.
  - intros [= <- <-]. by exists "".
  - cbn [split_LF]. destruct (Ascii.eqb x _).
    + intros [= <- <-]. by eexists.
    + destruct (split_LF_cons s) as (l & ls & Hs). rewrite Hs.
      intros [= <- <-]. destruct (IH _ _ Hs) as [rest ->].
      exists rest. by rewrite string_app_cons.
Qed.

Lemma split_LF_starts (part rest : string) :
  no_LF part = true →
  ∃ line lines, split_LF (part +:+ rest) = (part +:+ line) :: lines.
Proof.
  intros Hpart. induction part as [|x part IH].
  - rewrite string_app_nil. destruct (split_LF_cons rest) as (l & ls & ->).
    by exists l, ls.
  - cbn [no_LF] in Hpart. apply andb_true_iff in Hpart as [Hx Hpart].
    apply negb_true_iff in Hx.
    destruct (IH Hpart) as (l & ls & Hs).
    rewrite string_app_cons. cbn [split_LF]. rewrite Hx, Hs.
    exists l, ls. by rewrite string_app_cons.
Qed.

(** Every line is a part of the text. *)
Lemma split_LF_part (s line : string) :
  line ∈ split_LF s → ∃ pre post, s = pre +:+ line +:+ post.
Proof.
  revert line. induction s as [|x s IH]; intros line.
  - cbn [split_LF]. intros ->%list_elem_of_singleton. by exists "", "".
  - cbn [split_LF]. destruct (Ascii.eqb x _).
    + intros [->|Hin]%elem_of_cons.
      * by exists "", (String x s).
      * destruct (IH _ Hin) as (pre & post & ->).
        exists (String x pre), post. by rewrite string_app_cons.
    + destruct (split_LF_cons s) as (l & ls & Hs). rewrite Hs.
      intros [->|Hin]%elem_of_cons.
      * destruct (split_LF_first _ _ _ Hs) as [rest ->].
        exists "", rest. by rewrite string_app_nil, string_app_cons.
      * destruct (IH line) as (pre & post & ->).
        { rewrite Hs. by apply elem_of_cons; right. }
        exists (String x pre), post. by rewrite string_app_cons.
Qed.

(** A part of the text without a line feed lies within one line. *)
Lemma split_LF_within (pre part post : string) :
  no_LF part = true →
  ∃ line pre' post',
    line ∈ split_LF (pre +:+ part +:+ post) ∧ line = pre' +:+ part +:+ post'.
Proof.
  intros Hpart. induction pre as [|x pre IH].
  - rewrite string_app_nil.
    destruct (split_LF_starts part post Hpart) as (l & ls & ->).
    exists (part +:+ l), "", l. split; [by apply elem_of_cons; left|done].
  - destruct IH as (line & pre' & post' & Hin & ->).
    rewrite string_app_cons. cbn [split_LF]. destruct (Ascii.eqb x _).
    + exists (pre' +:+ part +:+ post'), pre', post'.
      split; [by apply elem_of_cons; right|done].
    + destruct (split_LF_cons (pre +:+ part +:+ post)) as (l & ls & Hs).
      rewrite Hs in Hin |- *. apply elem_of_cons in Hin as [<-|Hin].
      * exists (String x (pre' +:+ part +:+ post')), (String x pre'), post'.
        split; [by apply elem_of_cons; left|]. by rewrite string_app_cons.
      * exists (pre' +:+ part +:+ post'), pre', post'.
        split; [by apply elem_of_cons; right|done].
Qed.

Lemma tokenomicsKeywords_no_LF keyword :
  keyword ∈ tokenomicsKeywords → no_LF keyword = true.
Proof.
  unfold tokenomicsKeywords. rewrite !elem_of_cons, elem_of_nil.
  intros H. repeat (destruct H as [->|H]; [reflexivity|]). done.
Qed.

Section Facts.

Variable substring : nat → nat → string → string.
Variables toLowerCase trim : string → string.

(** The loop collects the trimmed lines that pass the test, in order. *)
Lemma relevantInfo_filter pageText :
  relevantInfo toLowerCase trim pageText
  = trim <$> filter (λ line, mentions_tokenomics toLowerCase line = true)
               (split_LF pageText).
Proof.
  unfold relevantInfo. cbv zeta.
  enough (∀ lines acc,
    foldl (λ relevantInfo line,
             if mentions_tokenomics toLowerCase line
             then relevantInfo ++ [trim line] else relevantInfo) acc lines
    = acc ++ (trim <$> filter (λ line, mentions_tokenomics toLowerCase line = true)
                         lines)) as H by apply (H _ []).
  induction lines as [|l lines IH]; intros acc; cbn [foldl].
  - by rewrite filter_nil, fmap_nil, app_nil_r.
  - rewrite IH, filter_cons.
    destruct (mentions_tokenomics toLowerCase l) eqn:Hl.
    + rewrite decide_True by done. by rewrite fmap_cons, <- (assoc_L (++)).
    + rewrite decide_False by done. done.
Qed.

(** X19. The handler of [check_contract_audit] never throws. It reports
    success exactly when the page, the navigation, the load, the state and
    the visible text all came back; then the content is the label followed
    by [pageText.substring(0, 1000)]. Otherwise the result carries the
    message of what was thrown and no content. *)
Theorem checkContractAudit_total b args w :
  ∃ w' r,
    checkContractAudit substring b args w = (w', Returns r) ∧
    match getCurrentPage b,
          navigate b ("https://etherscan.io/address/" +:+ contract_address args),
          waitForPageLoad b,
          getState b false with
    | Returns _, Returns _, Returns _, Returns state =>
        match visibleText state with
        | Returns pageText =>
            r = {| init_success := true;
                   init_extractedContent :=
                     Some ("Contract audit check: "
                           +:+ substring 0 1000 pageText);
                   init_error := None;
                   init_includeInMemory := Some true |}
        | Throws e => r = failed e
        end
    | Throws e, _, _, _
    | Returns _, Throws e, _, _
    | Returns _, Returns _, Throws e, _
    | Returns _, Returns _, Returns _, Throws e => r = failed e
    end.
Proof.
  unfold checkContractAudit, checkContractAudit_body, try_catch, page_navigate,
    in_context, auditSites.
  cbv [mbind mret eff_bind eff_ret ask throw modify emitEvent].
  cbn [lookup list_lookup ctx visited].
  destruct (getCurrentPage b) as [[]|e1]; [|by eauto].
  destruct (navigate b _) as [[]|e2]; [|by eauto].
  destruct (waitForPageLoad b) as [[]|e3]; [|by eauto].
  destruct (getState b false) as [state|e4]; [|by eauto].
  destruct (visibleText state) as [pageText|e5]; by eauto.
Qed.

(** X20. What the handler of [check_contract_audit] does on the way. It
    records no action result itself. It publishes [STEP_START], then
    [STEP_OK] exactly when it succeeds, and never a [STEP_FAIL]: a failed
    check leaves its [STEP_START] unanswered. The only address it ever
    navigates to is the Etherscan page of the contract; the second audit
    site is not visited and [chain] is not used. *)
Theorem checkContractAudit_effects b args w :
  let w' := (checkContractAudit substring b args w).1 in
  let started :=
    mkEvent NAVIGATOR STEP_START
      ("Checking audit status for contract "
       +:+ substring 0 10 (contract_address args) +:+ "...") in
  actionResults (ctx w') = actionResults (ctx w) ∧
  (∀ r, (checkContractAudit substring b args w).2 = Returns r →
        published (ctx w')
        = published (ctx w)
            ++ started
               :: (if init_success r
                   then [mkEvent NAVIGATOR STEP_OK "Contract information retrieved"]
                   else [])) ∧
  visited w'
  = visited w
      ++ match getCurrentPage b with
         | Returns _ =>
             ["https://etherscan.io/address/" +:+ contract_address args]
         | Throws _ => []
         end.
Proof.
  unfold checkContractAudit, checkContractAudit_body, try_catch, page_navigate,
    in_context, auditSites.
  cbv [mbind mret eff_bind eff_ret ask throw modify emitEvent].
  cbn [lookup list_lookup ctx visited].
  destruct (getCurrentPage b) as [[]|e1].
  2: { cbn. rewrite app_nil_r. split; [done|]. split; [|done].
       by intros r [= <-]. }
  destruct (navigate b _) as [[]|e2].
  2: { cbn. split; [done|]. split; [|done]. by intros r [= <-]. }
  destruct (waitForPageLoad b) as [[]|e3].
  2: { cbn. split; [done|]. split; [|done]. by intros r [= <-]. }
  destruct (getState b false) as [state|e4].
  2: { cbn. split; [done|]. split; [|done]. by intros r [= <-]. }
  destruct (visibleText state) as [pageText|e5].
  2: { cbn. split; [done|]. split; [|done]. by intros r [= <-]. }
  cbn. split; [done|]. split; [|done]. intros r [= <-]. cbn.
  by rewrite <- (assoc_L (++)).
Qed.

(** X21. The handler of [extract_tokenomics] never throws and changes
    nothing: it publishes no event, navigates nowhere and records no
    result. It fails exactly when the state or its visible text cannot be
    read, and succeeds also when no line was found. *)
Theorem extractTokenomics_reads_only b w :
  ∃ r,
    extractTokenomics toLowerCase trim b w = (w, Returns r) ∧
    match getState b true with
    | Returns state =>
        match visibleText state with
        | Returns pageText =>
            r = {| init_success := true;
                   init_extractedContent :=
                     Some ("Tokenomics: "
                           +:+ js_join " | "
                                 (relevantInfo toLowerCase trim pageText));
                   init_error := None;
                   init_includeInMemory := Some true |}
        | Throws e => r = failed e
        end
    | Throws e => r = failed e
    end.
Proof.
  unfold extractTokenomics, try_catch.
  cbv [mbind mret eff_bind eff_ret ask throw].
  destruct (getState b true) as [state|e]; [|by eauto].
  destruct (visibleText state) as [pageText|e]; by eauto.
Qed.

(** X22. On ASCII text the search line by line finds what a search of
    the whole page finds, since no keyword holds a line feed:
    [relevantInfo] is empty exactly when the lower-cased page text
    includes none of the eight keywords. *)
Theorem relevantInfo_empty_iff pageText :
  (∀ s, is_ascii s = true → toLowerCase s = ascii_lower s) →
  is_ascii pageText = true →
  relevantInfo toLowerCase trim pageText = [] ↔
  ∀ keyword, keyword ∈ tokenomicsKeywords →
             includes (ascii_lower pageText) keyword = false.
Proof.
  intros Hlow Hascii. rewrite relevantInfo_filter. split.
  - intros Hnil keyword Hk.
    destruct (includes (ascii_lower pageText) keyword) eqn:Hin; [|done].
    exfalso. apply includes_spec in Hin as (pre & post & Heq).
    apply ascii_lower_split in Heq as (pre' & rest & -> & _ & Hrest).
    apply ascii_lower_split in Hrest as (part & post' & -> & Hpart & _).
    assert (no_LF part = true) as Hno.
    { rewrite <- no_LF_lower, Hpart. by apply tokenomicsKeywords_no_LF. }
    destruct (split_LF_within pre' part post' Hno)
      as (line & p & q & Hline & ->).
    assert (is_ascii (p +:+ part +:+ q) = true) as Hla.
    { destruct (split_LF_part _ _ Hline) as (a & c & Heq).
      rewrite Heq, !is_ascii_app, !andb_true_iff in Hascii.
      rewrite !is_ascii_app, !andb_true_iff. tauto. }
    apply fmap_nil_inv in Hnil.
    assert (p +:+ part +:+ q
            ∈ filter (λ line, mentions_tokenomics toLowerCase line = true)
                (split_LF (pre' +:+ part +:+ post'))) as Hf.
    { apply list_elem_of_filter. split; [|done].
      unfold mentions_tokenomics. apply existsb_elem_of.
      exists keyword. split; [done|]. rewrite (Hlow _ Hla).
      apply includes_spec. rewrite !ascii_lower_app, Hpart. eauto. }
    rewrite Hnil in Hf. by apply elem_of_nil in Hf.
  - intros Hnone.
    destruct (filter _ _) as [|line lines] eqn:Hf; [done|]. exfalso.
    assert (line ∈ filter (λ line, mentions_tokenomics toLowerCase line = true)
                     (split_LF pageText)) as Hin
      by (rewrite Hf; by apply elem_of_cons; left).
    apply list_elem_of_filter in Hin as [Hm Hline].
    destruct (split_LF_part _ _ Hline) as (a & c & ->).
    assert (is_ascii line = true) as Hla.
    { rewrite !is_ascii_app, !andb_true_iff in Hascii. tauto. }
    unfold mentions_tokenomics in Hm.
    apply existsb_elem_of in Hm as (keyword & Hk & Hinc).
    rewrite (Hlow _ Hla) in Hinc.
    apply includes_spec in Hinc as (p & q & Heq).
    specialize (Hnone keyword Hk).
    assert (includes (ascii_lower (a +:+ line +:+ c)) keyword = true) as Hyes.
    { apply includes_spec. rewrite !ascii_lower_app, Heq.
      exists (ascii_lower a +:+ p), (q +:+ ascii_lower c).
      by rewrite !string_app_assoc. }
    congruence.
Qed.

End Facts.

(** The samples, run; their texts are ASCII, where [substring] takes
    the characters of a text by position. *)

Example audit_on_etherscan :
  checkContractAudit String.substring browser_up audit_args empty_world
  = ({| ctx := {| actionResults := [];
                  published :=
                    [mkEvent NAVIGATOR STEP_START
                       "Checking audit status for contract 0xabc...";
                     mkEvent NAVIGATOR STEP_OK "Contract information retrieved"] |};
        visited := ["https://etherscan.io/address/0xabc"] |},
     Returns {| init_success := true;
                init_extractedContent :=
                  Some "Contract audit check: Contract Source Code Verified";
                init_error := None; init_includeInMemory := Some true |}).
Proof. vm_compute. reflexivity. Qed.

Example audit_timeout :
  checkContractAudit String.substring browser_timeout audit_args empty_world
  = ({| ctx := {| actionResults := [];
                  published :=
                    [mkEvent NAVIGATOR STEP_START
                       "Checking audit status for contract 0xabc..."] |};
        visited := ["https://etherscan.io/address/0xabc"] |},
     Returns {| init_success := false; init_extractedContent := None;
                init_error := Some "Navigation timeout";
                init_includeInMemory := None |}).
Proof. vm_compute. reflexivity. Qed.

Example tokenomics_of_token_page :
  (extractTokenomics ascii_lower (λ line, line) token_page empty_world).2
  = Returns {| init_success := true;
               init_extractedContent :=
                 Some "Tokenomics:   Total Supply: 1,000,000   | VESTING over 4 years";
               init_error := None; init_includeInMemory := Some true |}.
Proof. vm_compute. reflexivity. Qed.

Lemma relevantInfo_empty_iff_witness :
  (∀ s, is_ascii s = true → ascii_lower s = ascii_lower s) ∧
  is_ascii tokenomics_text = true ∧
  (relevantInfo ascii_lower (λ line, line) tokenomics_text = [] ↔
   ∀ keyword, keyword ∈ tokenomicsKeywords →
              includes (ascii_lower tokenomics_text) keyword = false).
Proof.
  split; [done|]. split; [reflexivity|].
  exact (relevantInfo_empty_iff ascii_lower (λ line, line) tokenomics_text
           (λ _ _, eq_refl) eq_refl).
Defined.

End DeFiActionFacts.
